(** * LODMatcher: matching LOD components to full-model components

    A shallow embedding of [extract_frame_data/lod_matcher.py].

    - Python dictionaries are insertion ordered and the matcher depends on
      that order, so a dictionary is an association list whose keys are
      kept distinct by [Dict.set].
    - Voxel sizes and the sensitivity are Python floats that are only passed
      around; they are modelled as rationals.  A similarity is a float that
      is compared: it is a rational or NaN, on which every comparison is
      false.  Infinities order like numbers and are not told apart.
    - The object state ([self]) is threaded explicitly through a state and
      exception monad.  A raised exception keeps the state reached so far,
      as the mutated instance survives the exception in Python.
    - [print] appends a structured line to [stdout]; wall-clock timings are
      not part of the model.
    - Mesh loading, metadata parsing, the similarity scorer and the
      vertex-group solver live outside this file's source and are the
      fields of [World]. *)

From Stdlib Require Import List String Ascii ZArith QArith Bool Lia Permutation.
From Stdlib Require Import DecimalString DecimalNat Sorted.
Import ListNotations.

Local Open Scope string_scope.
Local Open Scope list_scope.

(** ** Insertion-ordered dictionaries keyed by strings *)

Module Dict.

Definition t (V : Type) : Type := list (string * V).

Definition items {V} (d : t V) : list (string * V) := d.
Definition keys {V} (d : t V) : list string := map fst d.
Definition len {V} (d : t V) : nat := List.length d.

(** [d.get(k)] *)
Fixpoint get {V} (k : string) (d : t V) : option V :=
  match d with
  | [] => None
  | (k', v) :: d' => if String.eqb k k' then Some v else get k d'
  end.

(** [k in d] *)
Definition mem {V} (k : string) (d : t V) : bool :=
  match get k d with Some _ => true | None => false end.

(** [d[k] = v]: an existing key keeps its position, a new key goes last. *)
Fixpoint set {V} (k : string) (v : V) (d : t V) : t V :=
  match d with
  | [] => [(k, v)]
  | (k', v') :: d' =>
      if String.eqb k k' then (k', v) :: d' else (k', v') :: set k v d'
  end.

(** [del d[k]] when present. *)
Fixpoint remove {V} (k : string) (d : t V) : t V :=
  match d with
  | [] => []
  | (k', v') :: d' =>
      if String.eqb k k' then remove k d' else (k', v') :: remove k d'
  end.

(** [d.pop(k, None)]: the value, if any, and the dictionary left. *)
Definition pop {V} (k : string) (d : t V) : option V * t V :=
  (get k d, remove k d).

(** [dict(items)] and the dictionary comprehension [{k: v for k, v in items}]. *)
Definition of_items {V} (l : list (string * V)) : t V :=
  fold_left (fun d kv => set (fst kv) (snd kv) d) l [].

(** [d.update(e)] *)
Definition update {V} (d e : t V) : t V :=
  fold_left (fun d kv => set (fst kv) (snd kv) d) e d.

End Dict.

(** ** Python list helpers *)

(** [l[:n]] for a possibly negative [n]. *)
Definition slice_to {A} (n : Z) (l : list A) : list A :=
  if (0 <=? n)%Z then firstn (Z.to_nat n) l
  else firstn (Z.to_nat (Z.of_nat (List.length l) + n)) l.

(** [enumerate(l)] *)
Fixpoint enumerate_from {A} (i : nat) (l : list A) : list (nat * A) :=
  match l with
  | [] => []
  | x :: l' => (i, x) :: enumerate_from (S i) l'
  end.

Definition enumerate {A} (l : list A) : list (nat * A) := enumerate_from 0 l.

(** [f'{i}'] for a non-negative integer. *)
Definition str_of_nat (i : nat) : string := NilZero.string_of_uint (Nat.to_uint i).

(** A similarity as the scorer returns it: a float, which may be NaN. *)
Inductive Similarity : Type :=
| Num (q : Q)
| NaN.

Definition is_nan (x : Similarity) : bool :=
  match x with NaN => true | Num _ => false end.

(** [a < b] on floats: false as soon as one side is NaN. *)
Definition sim_ltb (a b : Similarity) : bool :=
  match a, b with
  | Num x, Num y => negb (Qle_bool y x)
  | _, _ => false
  end.

(** Some similarity of the items is NaN. *)
Definition has_nan (l : list (string * Similarity)) : bool :=
  existsb (fun kv => is_nan (snd kv)) l.

(** [sorted(items, key=itemgetter(1), reverse=True)] when no similarity is
    NaN: [<] is then a strict weak order, the sort is stable, also under
    [reverse=True], so items of equal similarity keep their relative order
    and the result is unique; it is computed here by insertion. *)
Fixpoint insert_desc (x : string * Similarity) (l : list (string * Similarity))
  : list (string * Similarity) :=
  match l with
  | [] => [x]
  | y :: l' =>
      if sim_ltb (snd x) (snd y) then y :: insert_desc x l' else x :: y :: l'
  end.

Definition insertion_sorted_desc (l : list (string * Similarity))
  : list (string * Similarity) :=
  fold_right insert_desc [] l.

(** ** Exceptions and results of the external services *)

Inductive exn : Type :=
| ValueError (full_hash : string)   (* 'Duplicate component vb0 hash ... found in Metadata.json!' *)
| StopIteration
| KeyError (key : string)
| AttributeError
| ExternalError (msg : string).

Inductive result (A : Type) : Type :=
| Ok (a : A)
| Err (e : exn).
Arguments Ok {A} a.
Arguments Err {A} e.

Definition Path : Type := string.

(** [path / name] *)
Definition path_join (p : Path) (name : string) : Path := (p ++ "/" ++ name)%string.

(** [GeometryMatcher]: the constructor arguments and the two attributes the
    matcher assigns before scoring. *)
Record GeometryMatcher : Type := mkGeometryMatcher {
  gm_method : string;
  gm_sensivity : Q;
  samples_count : Z;
  voxel_size : Q
}.

(** Everything the matcher consumes from outside its own source file. *)
Record World : Type := mkWorld {
  Mesh : Type;
  ComponentData : Type;
  (** [json.load] of [path / 'Metadata.json'], then the [vb0_hash] of each
      entry of [metadata['components']], in order. *)
  read_metadata : Path -> result (list string);
  (** [json.loads] of an in-memory descriptor, same extraction. *)
  parse_metadata : string -> result (list string);
  (** [NumpyMesh.from_paths(vb_path=...)] *)
  from_paths : Path -> result Mesh;
  (** [MigotoFormat.from_fmt_text(component.fmt)] followed by
      [NumpyMesh.from_bytes(...)] on the component's buffers. *)
  from_bytes : ComponentData -> result Mesh;
  (** [component.ib_source.data.path] *)
  ib_source_path : ComponentData -> string;
  (** [len(mesh.vertex_buffer)] *)
  vertex_buffer_len : Mesh -> nat;
  (** Attribute values a fresh [GeometryMatcher] starts with. *)
  default_samples_count : Z;
  default_voxel_size : Q;
  (** [GeometryMatcher.calculate_similarity]; the second mesh may be the
      absent-mesh value [None]. *)
  calculate_similarity : GeometryMatcher -> Mesh -> option Mesh -> result Similarity;
  (** [VertexGroupsMatcher(candidates_count).match_vertex_groups] *)
  match_vertex_groups : Z -> Mesh -> option Mesh -> result (list (Z * Z));
  (** What the interpreter's [sorted] leaves of items among whose keys
      there is a NaN: the comparisons are then inconsistent and the order
      depends on the runs and merges of the sort; it is a rearrangement of
      the items. *)
  nan_sorted : list (string * Similarity) -> list (string * Similarity);
  nan_sorted_perm : forall l, Permutation (nan_sorted l) l
}.

(** [sorted(items, key=itemgetter(1), reverse=True)] *)
Definition sorted_desc (W : World) (l : list (string * Similarity))
  : list (string * Similarity) :=
  if has_nan l then nan_sorted W l else insertion_sorted_desc l.

(** The dataclass fields of [LODMatcher]. *)
Record ObjectData (CD : Type) : Type := mkObjectData {
  metadata : string;
  components : list CD
}.
Arguments mkObjectData {CD} _ _.
Arguments metadata {CD} _.
Arguments components {CD} _.

Record Config (CD : Type) : Type := mkConfig {
  full_model_path : Path;
  geo_matcher_method : string;
  geo_matcher_sensivity : Q;
  geo_matcher_voxel_size : Q;
  geo_matcher_sample_size : Z;
  geo_matcher_prefilter_voxel_size : Q;
  geo_matcher_prefilter_sample_size : Z;
  geo_matcher_prefilter_candidates_count : Z;
  vg_matcher_candidates_count : Z;
  lod_model_path : option Path;
  lod_objects : option (Dict.t (ObjectData CD))
}.
Arguments mkConfig {CD}.
Arguments full_model_path {CD} _.
Arguments geo_matcher_method {CD} _.
Arguments geo_matcher_sensivity {CD} _.
Arguments geo_matcher_voxel_size {CD} _.
Arguments geo_matcher_sample_size {CD} _.
Arguments geo_matcher_prefilter_voxel_size {CD} _.
Arguments geo_matcher_prefilter_sample_size {CD} _.
Arguments geo_matcher_prefilter_candidates_count {CD} _.
Arguments vg_matcher_candidates_count {CD} _.
Arguments lod_model_path {CD} _.
Arguments lod_objects {CD} _.

(** A value of [self.matched]: [match_by_hash] stores the bare LOD name,
    [match_by_geometry] stores the triple. *)
Inductive MatchValue : Type :=
| MatchName (lod_name : string)
| MatchTuple (lod_name lod_hash : string) (similarity : Similarity).

(** Lines written by [print]. *)
Inductive Line : Type :=
| FailedToLoadLine (name path : string)
| ByHashLine (full_name full_hash lod_name : string) (candidates : nat)
             (similarity : Similarity)
| ByGeoLine (full_name full_hash lod_name lod_hash : string)
            (vertices candidates : nat) (similarity : Similarity)
| RemappedLine (remapped total : nat)
| AllMatchedLine (total : nat).

(** ** The instance state

    The attributes [__post_init__] creates and the methods mutate. *)

Record State (MeshT : Type) : Type := mkState {
  geo_matcher : GeometryMatcher;
  full_components : Dict.t string;            (* name -> hash *)
  lod_components : Dict.t string;             (* name -> hash *)
  lod_hash_to_name : Dict.t string;           (* hash -> name: the candidate pool *)
  full_meshes : Dict.t MeshT;
  lod_meshes : Dict.t (option MeshT);         (* [None]: the mesh failed to load *)
  matched : Dict.t MatchValue;                (* full hash -> match *)
  vg_maps : Dict.t (string * list (Z * Z));   (* full hash -> (lod hash, vg map) *)
  stdout : list Line
}.
Arguments mkState {MeshT}.
Arguments geo_matcher {MeshT} _.
Arguments full_components {MeshT} _.
Arguments lod_components {MeshT} _.
Arguments lod_hash_to_name {MeshT} _.
Arguments full_meshes {MeshT} _.
Arguments lod_meshes {MeshT} _.
Arguments matched {MeshT} _.
Arguments vg_maps {MeshT} _.
Arguments stdout {MeshT} _.

Section Monad.

Context {MeshT : Type}.

Definition set_geo_matcher (g : GeometryMatcher) (s : State MeshT) : State MeshT :=
  mkState g (full_components s) (lod_components s) (lod_hash_to_name s)
          (full_meshes s) (lod_meshes s) (matched s) (vg_maps s) (stdout s).

Definition set_full_components (d : Dict.t string) (s : State MeshT) : State MeshT :=
  mkState (geo_matcher s) d (lod_components s) (lod_hash_to_name s)
          (full_meshes s) (lod_meshes s) (matched s) (vg_maps s) (stdout s).

Definition set_lod_components (d : Dict.t string) (s : State MeshT) : State MeshT :=
  mkState (geo_matcher s) (full_components s) d (lod_hash_to_name s)
          (full_meshes s) (lod_meshes s) (matched s) (vg_maps s) (stdout s).

Definition set_lod_hash_to_name (d : Dict.t string) (s : State MeshT) : State MeshT :=
  mkState (geo_matcher s) (full_components s) (lod_components s) d
          (full_meshes s) (lod_meshes s) (matched s) (vg_maps s) (stdout s).

Definition set_full_meshes (d : Dict.t MeshT) (s : State MeshT) : State MeshT :=
  mkState (geo_matcher s) (full_components s) (lod_components s) (lod_hash_to_name s)
          d (lod_meshes s) (matched s) (vg_maps s) (stdout s).

Definition set_lod_meshes (d : Dict.t (option MeshT)) (s : State MeshT) : State MeshT :=
  mkState (geo_matcher s) (full_components s) (lod_components s) (lod_hash_to_name s)
          (full_meshes s) d (matched s) (vg_maps s) (stdout s).

Definition set_matched (d : Dict.t MatchValue) (s : State MeshT) : State MeshT :=
  mkState (geo_matcher s) (full_components s) (lod_components s) (lod_hash_to_name s)
          (full_meshes s) (lod_meshes s) d (vg_maps s) (stdout s).

Definition set_vg_maps (d : Dict.t (string * list (Z * Z))) (s : State MeshT) : State MeshT :=
  mkState (geo_matcher s) (full_components s) (lod_components s) (lod_hash_to_name s)
          (full_meshes s) (lod_meshes s) (matched s) d (stdout s).

Definition set_stdout (l : list Line) (s : State MeshT) : State MeshT :=
  mkState (geo_matcher s) (full_components s) (lod_components s) (lod_hash_to_name s)
          (full_meshes s) (lod_meshes s) (matched s) (vg_maps s) l.

(** ** State and exception monad *)

Inductive outcome (A : Type) : Type :=
| Return (a : A) (s : State MeshT)
| Raised (e : exn) (s : State MeshT).
Arguments Return {A} a s.
Arguments Raised {A} e s.

Definition Eff (A : Type) : Type := State MeshT -> outcome A.

Definition ret {A} (a : A) : Eff A := fun s => Return a s.

Definition bind {A B} (m : Eff A) (k : A -> Eff B) : Eff B :=
  fun s => match m s with
           | Return a s' => k a s'
           | Raised e s' => Raised e s'
           end.

Definition raise {A} (e : exn) : Eff A := fun s => Raised e s.

Definition get_state : Eff (State MeshT) := fun s => Return s s.

Definition modify (f : State MeshT -> State MeshT) : Eff unit := fun s => Return tt (f s).

Definition lift {A} (r : result A) : Eff A :=
  match r with Ok a => ret a | Err e => raise e end.

(** [d[k]] *)
Definition getitem {V} (d : Dict.t V) (k : string) : Eff V :=
  match Dict.get k d with Some v => ret v | None => raise (KeyError k) end.

Definition print (l : Line) : Eff unit :=
  modify (fun s => set_stdout (stdout s ++ [l]) s).

Local Notation "x <- m ;; k" := (bind m (fun x => k))
  (at level 61, m at next level, right associativity).
Local Notation "m ;; k" := (bind m (fun _ => k))
  (at level 61, right associativity).

(** [for x in l: body(x)] *)
Fixpoint for_each {A} (l : list A) (body : A -> Eff unit) : Eff unit :=
  match l with
  | [] => ret tt
  | x :: l' => body x ;; for_each l' body
  end.

(** [{key(x): value(x) for x in l}], where computing an entry may raise. *)
Fixpoint comprehension {A V} (l : list A) (entry : A -> Eff (string * V))
         (acc : Dict.t V) : Eff (Dict.t V) :=
  match l with
  | [] => ret acc
  | x :: l' =>
      kv <- entry x ;;
      comprehension l' entry (Dict.set (fst kv) (snd kv) acc)
  end.

(** [next(iter(d.items()))] *)
Definition next_iter {V} (d : Dict.t V) : Eff (string * V) :=
  match Dict.items d with
  | [] => raise StopIteration
  | kv :: _ => ret kv
  end.

End Monad.

Arguments Eff MeshT A : clear implicits.
Arguments outcome MeshT A : clear implicits.
Arguments Return {MeshT A} a s.
Arguments Raised {MeshT A} e s.

Notation "x <- m ;; k" := (bind m (fun x => k))
  (at level 61, m at next level, right associativity).
Notation "m ;; k" := (bind m (fun _ => k))
  (at level 61, right associativity).

Section Matcher.

Context {W : World}.

Local Abbreviation M := (Eff (Mesh W)).

Variable self : Config (ComponentData W).

(** [__post_init__] *)
Definition post_init : State (Mesh W) :=
  mkState (mkGeometryMatcher (geo_matcher_method self) (geo_matcher_sensivity self)
                             (default_samples_count W) (default_voxel_size W))
          [] [] [] [] [] [] [] [].

(** ** Loading *)

Definition _load_component_hashes (path : option Path) (json_str object_id : string)
  : M (Dict.t string) :=
  match path with
  | Some p =>
      hashes <- lift (read_metadata W (path_join p "Metadata.json")) ;;
      ret (Dict.of_items
             (map (fun ic => (("Component " ++ str_of_nat (fst ic))%string, snd ic))
                  (enumerate hashes)))
  | None =>
      hashes <- lift (parse_metadata W json_str) ;;
      ret (Dict.of_items
             (map (fun ic => ((object_id ++ " - Component " ++ str_of_nat (fst ic))%string,
                              snd ic))
                  (enumerate hashes)))
  end.

Definition load_metadata : M unit :=
  fc <- _load_component_hashes (Some (full_model_path self)) "" "" ;;
  modify (set_full_components fc) ;;
  match lod_model_path self with
  | Some p =>
      lc <- _load_component_hashes (Some p) "" "" ;;
      modify (set_lod_components lc)
  | None => ret tt
  end ;;
  match lod_objects self with
  | Some objs =>
      for_each (Dict.items objs) (fun o =>
        d <- _load_component_hashes None (metadata (snd o)) (fst o) ;;
        modify (fun s => set_lod_components (Dict.update (lod_components s) d) s))
  | None => ret tt
  end ;;
  modify (fun s =>
    set_lod_hash_to_name
      (Dict.of_items (map (fun nh => (snd nh, fst nh)) (Dict.items (lod_components s)))) s).

Definition load_meshes : M unit :=
  s <- get_state ;;
  fm <- comprehension (Dict.keys (full_components s))
          (fun name =>
             mesh <- lift (from_paths W (path_join (full_model_path self) (name ++ ".vb")%string)) ;;
             ret (name, mesh)) [] ;;
  modify (set_full_meshes fm) ;;
  match lod_model_path self with
  | Some p =>
      s <- get_state ;;
      lm <- comprehension (Dict.keys (lod_components s))
              (fun name =>
                 mesh <- lift (from_paths W (path_join p (name ++ ".vb")%string)) ;;
                 ret (name, Some mesh)) [] ;;
      modify (set_lod_meshes lm)
  | None => ret tt
  end ;;
  match lod_objects self with
  | Some objs =>
      for_each (Dict.items objs) (fun o =>
        for_each (enumerate (components (snd o))) (fun ic =>
          let name := (fst o ++ " - Component " ++ str_of_nat (fst ic))%string in
          match from_bytes W (snd ic) with
          | Ok mesh =>
              modify (fun s => set_lod_meshes (Dict.set name (Some mesh) (lod_meshes s)) s)
          | Err _ =>
              print (FailedToLoadLine name (ib_source_path W (snd ic))) ;;
              modify (fun s => set_lod_meshes (Dict.set name None (lod_meshes s)) s)
          end))
  | None => ret tt
  end.

(** ** Matching *)

(** [self.geo_matcher.calculate_similarity(full_mesh, lod_mesh)] with the
    matcher's current attribute values. *)
Definition similarity_of (full_mesh : Mesh W) (lod_mesh : option (Mesh W))
  : M Similarity :=
  s <- get_state ;;
  lift (calculate_similarity W (geo_matcher s) full_mesh lod_mesh).

Definition match_by_hash : M unit :=
  s <- get_state ;;
  for_each (Dict.items (full_components s)) (fun nh =>
    let full_name := fst nh in
    let full_hash := snd nh in
    s <- get_state ;;
    let popped := Dict.pop full_hash (lod_hash_to_name s) in
    modify (set_lod_hash_to_name (snd popped)) ;;
    match fst popped with
    | None => ret tt
    | Some lod_name =>
        s <- get_state ;;
        lod_mesh <- getitem (lod_meshes s) lod_name ;;
        match lod_mesh with
        | None => ret tt
        | Some _ =>
            full_mesh <- getitem (full_meshes s) full_name ;;
            lod_mesh <- getitem (lod_meshes s) lod_name ;;
            similarity <- similarity_of full_mesh lod_mesh ;;
            modify (fun s => set_matched (Dict.set full_hash (MatchName lod_name) (matched s)) s) ;;
            s <- get_state ;;
            print (ByHashLine full_name full_hash lod_name
                              (Dict.len (lod_hash_to_name s)) similarity)
        end
    end).

(** The loop of the nested [calculate_similarities]; the guard on an absent
    mesh is commented out in the source, so every entry is scored. *)
Fixpoint score_candidates (full_mesh : Mesh W) (l : list (string * string))
         (similarities : Dict.t Similarity) : M (Dict.t Similarity) :=
  match l with
  | [] => ret similarities
  | (lod_hash, lod_name) :: l' =>
      s <- get_state ;;
      lod_mesh <- getitem (lod_meshes s) lod_name ;;
      similarity <- similarity_of full_mesh lod_mesh ;;
      score_candidates full_mesh l' (Dict.set lod_hash similarity similarities)
  end.

Definition calculate_similarities (full_mesh : Mesh W) (lod_hash_to_names : Dict.t string)
  : M (Dict.t Similarity) :=
  similarities <- score_candidates full_mesh (Dict.items lod_hash_to_names) [] ;;
  ret (Dict.of_items (sorted_desc W (Dict.items similarities))).

Definition configure (samples : Z) (voxel : Q) : M unit :=
  modify (fun s =>
    set_geo_matcher
      (mkGeometryMatcher (gm_method (geo_matcher s)) (gm_sensivity (geo_matcher s))
                         samples voxel) s).

(** Hash shortcut: the branch [best_lod_name is not None]. *)
Definition hash_shortcut (full_name full_hash best_lod_name : string)
  : M (string * string * Similarity) :=
  s <- get_state ;;
  full_mesh <- getitem (full_meshes s) full_name ;;
  lod_mesh <- getitem (lod_meshes s) best_lod_name ;;
  similarity <- similarity_of full_mesh lod_mesh ;;
  print (ByHashLine full_name full_hash best_lod_name
                    (Dict.len (lod_hash_to_name s)) similarity) ;;
  ret (best_lod_name, full_hash, similarity).

(** Coarse stage: [prefiltered_lod_hashes]. *)
Definition prefilter (full_mesh : Mesh W) : M (list string) :=
  configure (geo_matcher_prefilter_sample_size self) (geo_matcher_prefilter_voxel_size self) ;;
  s <- get_state ;;
  prefiltered_similarities <- calculate_similarities full_mesh (lod_hash_to_name s) ;;
  ret (slice_to (Z.min (geo_matcher_prefilter_candidates_count self)
                       (Z.of_nat (Dict.len prefiltered_similarities)))
                (Dict.keys prefiltered_similarities)).

(** Fine stage over the prefiltered hashes, up to [next(iter(...))]. *)
Definition fine_match (full_mesh : Mesh W) (prefiltered_lod_hashes : list string)
  : M (string * Similarity) :=
  s <- get_state ;;
  lod_hash_to_names <- comprehension prefiltered_lod_hashes
                         (fun hash =>
                            name <- getitem (lod_hash_to_name s) hash ;;
                            ret (hash, name)) [] ;;
  configure (geo_matcher_sample_size self) (geo_matcher_voxel_size self) ;;
  similarities <- calculate_similarities full_mesh lod_hash_to_names ;;
  next_iter similarities.

(** Geometric search: the [else] branch. *)
Definition geometric_search (full_name full_hash : string) (full_mesh : Mesh W)
  : M (string * string * Similarity) :=
  prefiltered_lod_hashes <- prefilter full_mesh ;;
  best <- fine_match full_mesh prefiltered_lod_hashes ;;
  let best_lod_hash := fst best in
  let best_similarity := snd best in
  s <- get_state ;;
  best_lod_name <- getitem (lod_hash_to_name s) best_lod_hash ;;
  modify (set_lod_hash_to_name (Dict.remove best_lod_hash (lod_hash_to_name s))) ;;
  s <- get_state ;;
  lod_mesh <- getitem (lod_meshes s) best_lod_name ;;
  vertices <- match lod_mesh with
              | Some mesh => ret (vertex_buffer_len W mesh)
              | None => raise AttributeError
              end ;;
  print (ByGeoLine full_name full_hash best_lod_name best_lod_hash vertices
                   (Dict.len (lod_hash_to_name s)) best_similarity) ;;
  ret (best_lod_name, best_lod_hash, best_similarity).

(** [sum(1 for k, v in vg_map.items() if k != v)] *)
Definition remapped_count (vg_map : list (Z * Z)) : nat :=
  List.length (filter (fun kv => negb (Z.eqb (fst kv) (snd kv))) vg_map).

(** Vertex-group matching and recording for one matched pair. *)
Definition match_vgs (full_hash best_lod_name best_lod_hash : string) (full_mesh : Mesh W)
  : M unit :=
  s <- get_state ;;
  lod_mesh <- getitem (lod_meshes s) best_lod_name ;;
  vg_map <- lift (match_vertex_groups W (vg_matcher_candidates_count self) full_mesh lod_mesh) ;;
  let remapped := remapped_count vg_map in
  if (0 <? remapped)%nat then
    modify (fun s => set_vg_maps (Dict.set full_hash (best_lod_hash, vg_map) (vg_maps s)) s) ;;
    print (RemappedLine remapped
             (match List.length vg_map with O => 1%nat | n => n end))
  else
    print (AllMatchedLine (List.length vg_map)).

(** One iteration of the loop of [match_by_geometry]. *)
Definition match_component (full_name full_hash : string) : M unit :=
  s <- get_state ;;
  if Dict.mem full_hash (matched s) then raise (ValueError full_hash)
  else
    full_mesh <- getitem (full_meshes s) full_name ;;
    let popped := Dict.pop full_hash (lod_hash_to_name s) in
    modify (set_lod_hash_to_name (snd popped)) ;;
    best <- match fst popped with
            | Some best_lod_name => hash_shortcut full_name full_hash best_lod_name
            | None => geometric_search full_name full_hash full_mesh
            end ;;
    let best_lod_name := fst (fst best) in
    let best_lod_hash := snd (fst best) in
    let best_similarity := snd best in
    modify (fun s =>
      set_matched (Dict.set full_hash (MatchTuple best_lod_name best_lod_hash best_similarity)
                            (matched s)) s) ;;
    match_vgs full_hash best_lod_name best_lod_hash full_mesh.

Definition match_by_geometry : M unit :=
  s <- get_state ;;
  for_each (Dict.items (full_components s))
           (fun nh => match_component (fst nh) (snd nh)).

(** ** Public API *)

(** [run]: the call of [match_by_hash] is commented out in the source. *)
Definition run : M (Dict.t MatchValue) :=
  load_metadata ;;
  load_meshes ;;
  match_by_geometry ;;
  s <- get_state ;;
  ret (matched s).

End Matcher.

(** [LODMatcher(...).run()] on a fresh instance. *)
Definition run_fresh {W : World} (self : Config (ComponentData W))
  : outcome (Mesh W) (Dict.t MatchValue) :=
  run self (post_init self).

(** ** Concrete worlds used to run the matcher

    A model stored on disk under ["full"] and a LOD model under ["lod"]; a
    mesh is represented by the path it was read from. *)

Definition disk_world (full lod : list string)
  (score : GeometryMatcher -> string -> option string -> result Similarity)
  (solve : Z -> string -> option string -> result (list (Z * Z))) : World :=
  mkWorld string unit
    (fun p => if String.eqb p "full/Metadata.json" then Ok full
              else if String.eqb p "lod/Metadata.json" then Ok lod
              else Err (ExternalError p))
    (fun _ => Err (ExternalError "json"))
    (fun p => Ok p)
    (fun _ => Err (ExternalError "bytes"))
    (fun _ => "")
    (fun _ => 0%nat)
    0%Z 0%Q score solve (fun l => l) (fun l => Permutation_refl l).

Definition disk_config (count : Z) : Config unit :=
  mkConfig "full" "voxel" 1%Q 1%Q 100%Z 2%Q 10%Z count 3%Z (Some "lod") None.

(** A full model on disk and one in-memory LOD object ["obj"] whose
    components are given by whether their bytes load ([Some path]) or not. *)
Definition object_world (full lod : list string)
  (score : GeometryMatcher -> string -> option string -> result Similarity)
  (solve : Z -> string -> option string -> result (list (Z * Z))) : World :=
  mkWorld string (option string)
    (fun p => if String.eqb p "full/Metadata.json" then Ok full
              else Err (ExternalError p))
    (fun _ => Ok lod)
    (fun p => Ok p)
    (fun c => match c with Some m => Ok m | None => Err (ExternalError "bytes") end)
    (fun _ => "ib")
    (fun _ => 0%nat)
    0%Z 0%Q score solve (fun l => l) (fun l => Permutation_refl l).

Definition object_config (comps : list (option string)) (count : Z)
  : Config (option string) :=
  mkConfig "full" "voxel" 1%Q 1%Q 100%Z 2%Q 10%Z count 3%Z None
           (Some [("obj", mkObjectData "{}" comps)]).

Definition const_score : GeometryMatcher -> string -> option string -> result Similarity :=
  fun _ _ _ => Ok (Num 1).

(** Scores a LOD mesh by where it was read from: 9/10 for the second LOD
    component on disk, 4/10 for any other. *)
Definition graded_score : GeometryMatcher -> string -> option string -> result Similarity :=
  fun _ _ lod =>
    match lod with
    | Some p => if String.eqb p "lod/Component 1.vb" then Ok (Num (9 # 10))
                else Ok (Num (4 # 10))
    | None => Ok (Num (4 # 10))
    end.

(** Fails on the first and the fourth LOD component on disk, gives 1/2 to
    any other. *)
Definition picky_score : GeometryMatcher -> string -> option string -> result Similarity :=
  fun _ _ lod =>
    match lod with
    | Some p => if String.eqb p "lod/Component 0.vb" then Err (ExternalError p)
                else if String.eqb p "lod/Component 3.vb" then Err (ExternalError p)
                else Ok (Num (1 # 2))
    | None => Err AttributeError
    end.

Definition identity_solve : Z -> string -> option string -> result (list (Z * Z)) :=
  fun _ _ _ => Ok [(0, 0); (1, 1)]%Z.

Definition swap_solve : Z -> string -> option string -> result (list (Z * Z)) :=
  fun _ _ _ => Ok [(0, 0); (1, 2); (2, 1)]%Z.

(** ** Notions the properties are stated with *)

(** State or value an outcome ends with. *)
Definition final_state {MeshT A} (o : outcome MeshT A) : State MeshT :=
  match o with Return _ s => s | Raised _ s => s end.

Section Derived.

Context {W : World}.

(** The state after [configure]. *)
Definition configured (samples : Z) (voxel : Q) (s : State (Mesh W)) : State (Mesh W) :=
  set_geo_matcher
    (mkGeometryMatcher (gm_method (geo_matcher s)) (gm_sensivity (geo_matcher s))
                       samples voxel) s.

(** The state after the vertex-group step. *)
Definition vgs_recorded (full_hash best_lod_hash : string) (vg_map : list (Z * Z))
           (s : State (Mesh W)) : State (Mesh W) :=
  if (0 <? remapped_count vg_map)%nat then
    set_stdout
      (stdout s ++
       [RemappedLine (remapped_count vg_map)
                     (match List.length vg_map with O => 1%nat | n => n end)])
      (set_vg_maps (Dict.set full_hash (best_lod_hash, vg_map) (vg_maps s)) s)
  else set_stdout (stdout s ++ [AllMatchedLine (List.length vg_map)]) s.

(** The state a successful iteration leaves: the pool without the claimed
    hash, the new match, the printed line and the vertex-group record. *)
Definition claimed_state (full_hash lod_name lod_hash : string) (sim : Similarity)
           (vg_map : list (Z * Z)) (line : Line) (gm : GeometryMatcher)
           (s : State (Mesh W)) : State (Mesh W) :=
  vgs_recorded full_hash lod_hash vg_map
    (set_matched (Dict.set full_hash (MatchTuple lod_name lod_hash sim) (matched s))
       (set_stdout (stdout s ++ [line])
          (set_lod_hash_to_name (Dict.remove lod_hash (lod_hash_to_name s))
             (set_geo_matcher gm s)))).

(** Nothing matched yet, a candidate pool with distinct hashes, and nothing
    printed but failed-load reports. *)
Definition ready (s : State (Mesh W)) : Prop :=
  matched s = [] /\ vg_maps s = [] /\ NoDup (Dict.keys (lod_hash_to_name s)) /\
  forall l, In l (stdout s) -> exists name path, l = FailedToLoadLine name path.

Variable self : Config (ComponentData W).

(** The loop of [match_by_geometry] over the items of [full_components]. *)
Definition match_loop (l : list (string * string)) : Eff (Mesh W) unit :=
  for_each l (fun nh => match_component self (fst nh) (snd nh)).

(** The instance after [load_metadata] and [load_meshes]. *)
Definition load : outcome (Mesh W) unit :=
  bind (load_metadata self) (fun _ => load_meshes self) (post_init self).

(** The LOD hash index ([lod_hash_to_name]) as loaded. *)
Definition lod_index : Dict.t string :=
  match load with Return _ s => lod_hash_to_name s | Raised _ s => lod_hash_to_name s end.

End Derived.

(** LOD hashes referenced by the records of a match table. *)
Definition claimed_hashes (m : Dict.t MatchValue) : list string :=
  flat_map (fun kv => match snd kv with
                      | MatchTuple _ lod_hash _ => [lod_hash]
                      | MatchName _ => []
                      end) m.

(** [l] reports a match made by geometric search for the full hash [h]. *)
Definition geo_line_of (h : string) (l : Line) : Prop :=
  exists fn ln lh v c q, l = ByGeoLine fn h ln lh v c q.

(** Some line of [stdout] reports a match made by geometric search. *)
Definition geometric_work {MeshT} (s : State MeshT) : Prop :=
  exists fn fh ln lh v c q, In (ByGeoLine fn fh ln lh v c q) (stdout s).

(** [m] keeps [P], whether it returns or raises. *)
Definition preserves {MeshT A} (P : State MeshT -> Prop) (m : Eff MeshT A) : Prop :=
  forall s, P s -> match m s with Return _ s' => P s' | Raised _ s' => P s' end.

(** ** Concrete models the results are instantiated on *)

(** Full hashes [h1; h2] against LOD hashes [h2; h3], every pair scoring 1. *)
Definition crossed_world : World :=
  disk_world ["h1"; "h2"] ["h2"; "h3"] const_score identity_solve.

(** Full and LOD models with the same hashes; the solver swaps two groups. *)
Definition twin_world : World :=
  disk_world ["h1"; "h2"] ["h1"; "h2"] const_score swap_solve.

(** One full component against two LOD components of different similarity. *)
Definition graded_world : World :=
  disk_world ["h1"] ["h2"; "h3"] graded_score identity_solve.

(** Two LOD components share the hash [h1] of the second full component;
    the scorer fails on the first of them and on the LOD component no full
    component shares a hash with. *)
Definition shared_world : World :=
  disk_world ["h0"; "h1"] ["h1"; "h0"; "h1"; "h9"] picky_score swap_solve.

(** Two full components sharing the hash [h1]. *)
Definition duplicate_world : World :=
  disk_world ["h1"; "h1"] ["h2"] const_score identity_solve.

(** Two full components and a single LOD component. *)
Definition exhausted_world : World :=
  disk_world ["h1"; "h2"] ["h3"] const_score identity_solve.

(** One full component; the only LOD component is an in-memory one whose
    bytes do not load. *)
Definition absent_world
  (score : GeometryMatcher -> string -> option string -> result Similarity)
  (solve : Z -> string -> option string -> result (list (Z * Z))) : World :=
  object_world ["h1"] ["h2"] score solve.

Definition twin_matched : Dict.t MatchValue :=
  [("h1", MatchTuple "Component 0" "h1" (Num 1)); ("h2", MatchTuple "Component 1" "h2" (Num 1))].

Definition twin_final : State string :=
  final_state (run_fresh (W := twin_world) (disk_config 3)).

Definition crossed_matched : Dict.t MatchValue :=
  [("h1", MatchTuple "Component 0" "h2" (Num 1)); ("h2", MatchTuple "Component 1" "h3" (Num 1))].

Definition crossed_final : State string :=
  final_state (run_fresh (W := crossed_world) (disk_config 3)).

Definition shared_loaded : State string :=
  final_state (load (W := shared_world) (disk_config 3)).

Definition shared_matched : Dict.t MatchValue :=
  [("h0", MatchTuple "Component 1" "h0" (Num (1 # 2)));
   ("h1", MatchTuple "Component 2" "h1" (Num (1 # 2)))].

Definition duplicate_loaded : State string :=
  final_state (load (W := duplicate_world) (disk_config 3)).

Definition graded_loaded : State string :=
  final_state (load (W := graded_world) (disk_config 1)).

(** ** Notions for the loaders and the two search stages *)

(** The name [_load_component_hashes] gives the [i]-th component. *)
Definition component_name (path : option Path) (object_id : string) (i : nat) : string :=
  match path with
  | Some _ => ("Component " ++ str_of_nat i)%string
  | None => (object_id ++ " - Component " ++ str_of_nat i)%string
  end.

(** The descriptor [_load_component_hashes] reads. *)
Definition descriptor_of {W : World} (path : option Path) (json_str : string)
  : result (list string) :=
  match path with
  | Some p => read_metadata W (path_join p "Metadata.json")
  | None => parse_metadata W json_str
  end.

(** [a] is ranked before [b]: both similarities are numbers and that of
    [a] is at least that of [b]. *)
Definition ranks_before (a b : string * Similarity) : Prop :=
  match snd a, snd b with
  | Num x, Num y => (y <= x)%Q
  | _, _ => False
  end.

(** The matcher as the prefilter and as the fine stage configure it. *)
Definition coarse_matcher {W : World} (self : Config (ComponentData W))
           (s : State (Mesh W)) : GeometryMatcher :=
  mkGeometryMatcher (gm_method (geo_matcher s)) (gm_sensivity (geo_matcher s))
                    (geo_matcher_prefilter_sample_size self)
                    (geo_matcher_prefilter_voxel_size self).

Definition fine_matcher {W : World} (self : Config (ComponentData W))
           (s : State (Mesh W)) : GeometryMatcher :=
  mkGeometryMatcher (gm_method (geo_matcher s)) (gm_sensivity (geo_matcher s))
                    (geo_matcher_sample_size self)
                    (geo_matcher_voxel_size self).

(** The inner loop of [load_meshes] over the components of one in-memory
    object (lines 93-100). *)
Definition load_object_meshes {W : World} (object_id : string)
           (comps : list (ComponentData W)) : Eff (Mesh W) unit :=
  for_each (enumerate comps) (fun ic =>
    let name := (object_id ++ " - Component " ++ str_of_nat (fst ic))%string in
    match from_bytes W (snd ic) with
    | Ok mesh =>
        modify (fun s => set_lod_meshes (Dict.set name (Some mesh) (lod_meshes s)) s)
    | Err _ =>
        print (FailedToLoadLine name (ib_source_path W (snd ic))) ;;
        modify (fun s => set_lod_meshes (Dict.set name None (lod_meshes s)) s)
    end).

(** What [load_meshes] does once [full_meshes] is assigned (lines 85-100). *)
Definition load_lod_meshes {W : World} (self : Config (ComponentData W))
  : Eff (Mesh W) unit :=
  match lod_model_path self with
  | Some p =>
      s <- get_state ;;
      lm <- comprehension (Dict.keys (lod_components s))
              (fun name =>
                 mesh <- lift (from_paths W (path_join p (name ++ ".vb")%string)) ;;
                 ret (name, Some mesh)) [] ;;
      modify (set_lod_meshes lm)
  | None => ret tt
  end ;;
  match lod_objects self with
  | Some objs =>
      for_each (Dict.items objs) (fun o =>
        load_object_meshes (fst o) (components (snd o)))
  | None => ret tt
  end.

(** The entry of [lod_meshes] for a component: its mesh, or [None] when
    its bytes do not load. *)
Definition loaded_or_absent {W : World} (c : ComponentData W) : option (Mesh W) :=
  match from_bytes W c with Ok mesh => Some mesh | Err _ => None end.

(** The lines printed for the components, from index [i] on, that fail. *)
Fixpoint failed_lines {W : World} (object_id : string) (i : nat)
         (comps : list (ComponentData W)) : list Line :=
  match comps with
  | [] => []
  | c :: comps' =>
      match from_bytes W c with
      | Ok _ => failed_lines object_id (S i) comps'
      | Err _ =>
          FailedToLoadLine (component_name None object_id i) (ib_source_path W c)
          :: failed_lines object_id (S i) comps'
      end
  end.

(** The file a full component's mesh is read from. *)
Definition full_mesh_path {W : World} (self : Config (ComponentData W)) (name : string)
  : Path :=
  path_join (full_model_path self) (name ++ ".vb")%string.

(** The loop of [match_by_hash] over the items of [full_components]. *)
Definition match_by_hash_loop {W : World} (l : list (string * string))
  : Eff (Mesh W) unit :=
  for_each l (fun nh =>
    let full_name := fst nh in
    let full_hash := snd nh in
    s <- get_state ;;
    let popped := Dict.pop full_hash (lod_hash_to_name s) in
    modify (set_lod_hash_to_name (snd popped)) ;;
    match fst popped with
    | None => ret tt
    | Some lod_name =>
        s <- get_state ;;
        lod_mesh <- getitem (lod_meshes s) lod_name ;;
        match lod_mesh with
        | None => ret tt
        | Some _ =>
            full_mesh <- getitem (full_meshes s) full_name ;;
            lod_mesh <- getitem (lod_meshes s) lod_name ;;
            similarity <- similarity_of full_mesh lod_mesh ;;
            modify (fun s => set_matched (Dict.set full_hash (MatchName lod_name) (matched s)) s) ;;
            s <- get_state ;;
            print (ByHashLine full_name full_hash lod_name
                              (Dict.len (lod_hash_to_name s)) similarity)
        end
    end).

(** ** Further concrete models *)

(** A full model whose mesh files cannot be read. *)
Definition unreadable_world : World :=
  mkWorld string unit
    (fun p => if String.eqb p "full/Metadata.json" then Ok ["h1"]
              else Ok [])
    (fun _ => Err (ExternalError "json"))
    (fun p => Err (ExternalError p))
    (fun _ => Err (ExternalError "bytes"))
    (fun _ => "")
    (fun _ => 0%nat)
    0%Z 0%Q const_score identity_solve (fun l => l) (fun l => Permutation_refl l).

(** One full component and an in-memory LOD component with the same hash,
    whose bytes do not load. *)
Definition absent_twin_world : World :=
  object_world ["h2"] ["h2"] const_score identity_solve.

(** One full component and an empty LOD model. *)
Definition no_lod_world : World :=
  disk_world ["h1"] [] const_score identity_solve.

Definition twin_loaded : State string :=
  final_state (load (W := twin_world) (disk_config 3)).

Definition twin_metadata_loaded : State string :=
  final_state (load_metadata (W := twin_world) (disk_config 3)
                             (post_init (W := twin_world) (disk_config 3))).

Definition absent_metadata_loaded : State string :=
  final_state (load_metadata (W := absent_world const_score identity_solve)
                 (object_config [None] 3)
                 (post_init (W := absent_world const_score identity_solve)
                            (object_config [None] 3))).

Definition unreadable_metadata_loaded : State string :=
  final_state (load_metadata (W := unreadable_world) (disk_config 3)
                             (post_init (W := unreadable_world) (disk_config 3))).

Definition absent_twin_loaded : State string :=
  final_state (load (W := absent_twin_world) (object_config [None] 3)).

Definition no_lod_loaded : State string :=
  final_state (load (W := no_lod_world) (disk_config 3)).

(** * Properties *)

(** ** Dictionaries *)

Module DictFacts.
Import Dict.

Section Facts.
Context {V : Type}.
Implicit Types (d : Dict.t V) (k : string) (v : V).

Lemma get_set_eq k v d : get k (set k v d) = Some v.
Proof.
  induction d as [|[k' v'] d IH]; simpl.
  - now rewrite String.eqb_refl.
  - destruct (String.eqb k k') eqn:E; simpl; rewrite E; auto.
Qed.

Lemma get_set_neq k k' v d : k <> k' -> get k' (set k v d) = get k' d.
Proof.
  intros Hn. induction d as [|[k0 v0] d IH]; simpl.
  - destruct (String.eqb k' k) eqn:E; auto.
    apply String.eqb_eq in E. congruence.
  - destruct (String.eqb k k0) eqn:E; simpl.
    + apply String.eqb_eq in E. subst k0.
      destruct (String.eqb k' k) eqn:E'; auto.
      apply String.eqb_eq in E'. congruence.
    + now rewrite IH.
Qed.

Lemma get_remove_eq k d : get k (remove k d) = None.
Proof.
  induction d as [|[k' v'] d IH]; simpl; auto.
  destruct (String.eqb k k') eqn:E; simpl; auto. now rewrite E.
Qed.

Lemma get_remove_neq k k' d : k <> k' -> get k' (remove k d) = get k' d.
Proof.
  intros Hn. induction d as [|[k0 v0] d IH]; simpl; auto.
  destruct (String.eqb k k0) eqn:E; simpl.
  - apply String.eqb_eq in E. subst k0.
    destruct (String.eqb k' k) eqn:E'; auto.
    apply String.eqb_eq in E'. congruence.
  - now rewrite IH.
Qed.

Lemma get_None_notin k d : get k d = None <-> ~ In k (keys d).
Proof.
  induction d as [|[k' v'] d IH]; simpl.
  - tauto.
  - destruct (String.eqb k k') eqn:E.
    + apply String.eqb_eq in E. subst. split; [discriminate | tauto].
    + apply String.eqb_neq in E. rewrite IH. split; intros H.
      * intros [H1 | H1]; [congruence | tauto].
      * tauto.
Qed.

Lemma get_Some_in k v d : get k d = Some v -> In k (keys d).
Proof.
  intros H. destruct (in_dec string_dec k (keys d)) as [Hi | Hn]; auto.
  apply get_None_notin in Hn. congruence.
Qed.

Lemma in_keys_get k d : In k (keys d) -> exists v, get k d = Some v.
Proof.
  intros H. destruct (get k d) as [v|] eqn:E; eauto.
  apply get_None_notin in E. tauto.
Qed.

Lemma mem_true_iff k d : mem k d = true <-> In k (keys d).
Proof.
  unfold mem. destruct (get k d) eqn:E.
  - split; auto. intros _. eapply get_Some_in; eauto.
  - apply get_None_notin in E. split; [discriminate | tauto].
Qed.

Lemma mem_false_iff k d : mem k d = false <-> ~ In k (keys d).
Proof.
  rewrite <- mem_true_iff. destruct (mem k d); split; congruence.
Qed.

Lemma remove_notin k d : get k d = None -> remove k d = d.
Proof.
  induction d as [|[k' v'] d IH]; simpl; auto.
  destruct (String.eqb k k'); [discriminate|]. intros H. now rewrite IH.
Qed.

Lemma set_notin k v d : get k d = None -> set k v d = d ++ [(k, v)].
Proof.
  induction d as [|[k' v'] d IH]; simpl; auto.
  destruct (String.eqb k k'); [discriminate|]. intros H. now rewrite IH.
Qed.

Lemma keys_set k v d : keys (set k v d) = if mem k d then keys d else keys d ++ [k].
Proof.
  unfold mem. induction d as [|[k' v'] d IH]; simpl; auto.
  destruct (String.eqb k k') eqn:E; simpl; auto.
  rewrite IH. destruct (get k d); auto.
Qed.

Lemma in_keys_set k k' v d : In k' (keys (set k v d)) <-> k' = k \/ In k' (keys d).
Proof.
  rewrite keys_set. destruct (mem k d) eqn:E.
  - apply mem_true_iff in E. split; [tauto|]. intros [->|]; auto.
  - rewrite in_app_iff. simpl. split; intros H; intuition auto.
Qed.

Lemma in_keys_remove k k' d : In k' (keys (remove k d)) <-> k' <> k /\ In k' (keys d).
Proof.
  induction d as [|[k0 v0] d IH]; simpl; [tauto|].
  destruct (String.eqb k k0) eqn:E.
  - apply String.eqb_eq in E. subst k0. rewrite IH. split; intros H.
    + tauto.
    + destruct H as [Hn [H | H]]; [congruence | tauto].
  - apply String.eqb_neq in E. simpl. rewrite IH. split; intros H.
    + destruct H as [H | H]; [subst; split; auto | tauto].
    + tauto.
Qed.

Lemma NoDup_keys_remove k d : NoDup (keys d) -> NoDup (keys (remove k d)).
Proof.
  induction d as [|[k0 v0] d IH]; simpl; auto.
  intros H. inversion H as [|? ? Hn Hd]; subst.
  destruct (String.eqb k k0); auto.
  simpl. constructor; auto. rewrite in_keys_remove. tauto.
Qed.

Lemma NoDup_keys_set k v d : NoDup (keys d) -> NoDup (keys (set k v d)).
Proof.
  intros H. rewrite keys_set. destruct (mem k d) eqn:E; auto.
  apply mem_false_iff in E.
  apply NoDup_app; auto.
  - constructor; [simpl; tauto | constructor].
  - intros x Hx [<- | []]. tauto.
Qed.

Lemma NoDup_keys_fold_set (l : list (string * V)) d :
  NoDup (keys d) ->
  NoDup (keys (fold_left (fun d kv => set (fst kv) (snd kv) d) l d)).
Proof.
  revert d. induction l as [|[k v] l IH]; simpl; auto.
  intros d H. apply IH. now apply NoDup_keys_set.
Qed.

Lemma NoDup_keys_of_items (l : list (string * V)) : NoDup (keys (of_items l)).
Proof. apply NoDup_keys_fold_set. constructor. Qed.

Lemma in_keys_fold_set (l : list (string * V)) d k :
  In k (keys (fold_left (fun d kv => set (fst kv) (snd kv) d) l d)) <->
  In k (keys d) \/ In k (map fst l).
Proof.
  revert d. induction l as [|[k0 v0] l IH]; simpl; intros d; [tauto|].
  rewrite IH, in_keys_set. intuition auto.
Qed.

Lemma in_keys_of_items (l : list (string * V)) k :
  In k (keys (of_items l)) <-> In k (map fst l).
Proof. unfold of_items. rewrite in_keys_fold_set. simpl. tauto. Qed.

End Facts.
End DictFacts.

(** ** Sorting and slicing *)

Lemma insert_desc_perm x l : Permutation (insert_desc x l) (x :: l).
Proof.
  induction l as [|y l IH]; simpl; auto.
  destruct (sim_ltb (snd x) (snd y)); auto.
  eapply perm_trans; [apply perm_skip; exact IH | apply perm_swap].
Qed.

Lemma insertion_sorted_desc_perm l : Permutation (insertion_sorted_desc l) l.
Proof.
  induction l as [|x l IH]; simpl; auto.
  eapply perm_trans; [apply insert_desc_perm | now apply perm_skip].
Qed.

(** Sorting rearranges the items, whatever their similarities. *)
Lemma sorted_desc_perm (W : World) l : Permutation (sorted_desc W l) l.
Proof.
  unfold sorted_desc. destruct (has_nan l).
  - apply nan_sorted_perm.
  - apply insertion_sorted_desc_perm.
Qed.

Lemma in_sorted_desc (W : World) y l : In y (sorted_desc W l) <-> In y l.
Proof.
  split; apply Permutation_in;
    [apply sorted_desc_perm | apply Permutation_sym, sorted_desc_perm].
Qed.

Lemma length_sorted_desc (W : World) l :
  List.length (sorted_desc W l) = List.length l.
Proof. apply Permutation_length, sorted_desc_perm. Qed.

Lemma firstn_incl {A} (n : nat) (l : list A) : incl (firstn n l) l.
Proof.
  intros x Hx. rewrite <- (firstn_skipn n l). apply in_or_app. now left.
Qed.

Lemma slice_to_incl {A} (n : Z) (l : list A) : incl (slice_to n l) l.
Proof.
  unfold slice_to. destruct (0 <=? n)%Z; apply firstn_incl.
Qed.

Lemma slice_to_length {A} (n : Z) (l : list A) :
  (0 <= n)%Z -> (Z.of_nat (List.length (slice_to n l)) <= n)%Z.
Proof.
  intros Hn. unfold slice_to.
  destruct (0 <=? n)%Z eqn:E; [|apply Z.leb_gt in E; lia].
  rewrite length_firstn. lia.
Qed.

(** ** The monad *)

Section MonadFacts.
Context {MeshT : Type}.

Lemma bind_Return {A B} (m : Eff MeshT A) (k : A -> Eff MeshT B) s b s2 :
  bind m k s = Return b s2 ->
  exists a s1, m s = Return a s1 /\ k a s1 = Return b s2.
Proof.
  unfold bind. destruct (m s) as [a s1|e s1]; [eauto | discriminate].
Qed.

Lemma bind_Raised {A B} (m : Eff MeshT A) (k : A -> Eff MeshT B) s e s2 :
  bind m k s = Raised e s2 ->
  m s = Raised e s2 \/ exists a s1, m s = Return a s1 /\ k a s1 = Raised e s2.
Proof.
  unfold bind. destruct (m s) as [a s1|e1 s1]; [eauto | intros H; left; congruence].
Qed.

Lemma getitem_Return {V} (d : Dict.t V) k (s s' : State MeshT) v :
  getitem d k s = Return v s' -> s' = s /\ Dict.get k d = Some v.
Proof.
  unfold getitem. destruct (Dict.get k d); unfold ret, raise; intros H;
    inversion H; auto.
Qed.

Lemma lift_Return {A} (r : result A) (s s' : State MeshT) a :
  lift r s = Return a s' -> s' = s /\ r = Ok a.
Proof.
  destruct r; unfold lift, ret, raise; intros H; inversion H; auto.
Qed.

Lemma next_iter_Return {V} (d : Dict.t V) (s s' : State MeshT) kv :
  next_iter d s = Return kv s' -> s' = s /\ exists d', d = kv :: d'.
Proof.
  unfold next_iter, Dict.items. destruct d; unfold ret, raise; intros H;
    inversion H; eauto.
Qed.

Lemma for_each_app {A} (l1 l2 : list A) (body : A -> Eff MeshT unit) s :
  for_each (l1 ++ l2) body s =
  bind (for_each l1 body) (fun _ => for_each l2 body) s.
Proof.
  revert s. induction l1 as [|x l1 IH]; intros s; simpl; [reflexivity|].
  unfold bind in *. destruct (body x s) as [[] s1|e s1]; auto.
Qed.

End MonadFacts.

(** Decompose a hypothesis [bind m k s = Return _ _]. *)
Ltac bind_inv H :=
  let a := fresh "a" in
  let s := fresh "s" in
  let H1 := fresh "H" in
  apply bind_Return in H; destruct H as (a & s & H1 & H).

(** ** One iteration of the matching loop *)

Section StepFacts.
Context {W : World}.
Variable self : Config (ComponentData W).

Lemma get_state_Return (s a s1 : State (Mesh W)) :
  get_state s = Return a s1 -> a = s /\ s1 = s.
Proof. unfold get_state. intros H. inversion H. auto. Qed.

Lemma similarity_of_Return (fm : Mesh W) lm (s s' : State (Mesh W)) q :
  similarity_of fm lm s = Return q s' ->
  s' = s /\ calculate_similarity W (geo_matcher s) fm lm = Ok q.
Proof.
  unfold similarity_of. intros H.
  apply bind_Return in H. destruct H as (s0 & s1 & H0 & H).
  inversion H0; subst. now apply lift_Return in H.
Qed.

Lemma score_candidates_Return (fm : Mesh W) l acc s r s' :
  score_candidates fm l acc s = Return r s' ->
  s' = s /\
  forall k, In k (Dict.keys r) <-> In k (Dict.keys acc) \/ In k (map fst l).
Proof.
  revert acc. induction l as [|[lod_hash lod_name] l IH]; intros acc H; simpl in H.
  - inversion H; subst. split; auto. intros k. simpl. tauto.
  - bind_inv H. apply get_state_Return in H0. destruct H0; subst.
    bind_inv H. apply getitem_Return in H0. destruct H0; subst.
    bind_inv H. apply similarity_of_Return in H0. destruct H0; subst.
    apply IH in H. destruct H as [-> Hk]. split; auto.
    intros k. rewrite Hk, DictFacts.in_keys_set. simpl. intuition auto.
Qed.

Lemma in_keys_sorted_desc k (l : list (string * Similarity)) :
  In k (map fst (sorted_desc W l)) <-> In k (map fst l).
Proof.
  rewrite !in_map_iff.
  split; intros [x [Hx Hi]]; exists x; (split; [exact Hx|]);
    [apply (proj1 (in_sorted_desc W x l)) | apply (proj2 (in_sorted_desc W x l))];
    exact Hi.
Qed.

Lemma calculate_similarities_Return (fm : Mesh W) d s r s' :
  calculate_similarities fm d s = Return r s' ->
  s' = s /\ forall k, In k (Dict.keys r) <-> In k (Dict.keys d).
Proof.
  unfold calculate_similarities. intros H.
  bind_inv H. apply score_candidates_Return in H0. destruct H0 as [-> Hk].
  inversion H; subst. split; auto.
  intros k. rewrite DictFacts.in_keys_of_items.
  unfold Dict.items. rewrite in_keys_sorted_desc.
  specialize (Hk k). unfold Dict.keys, Dict.items in *. simpl in Hk. tauto.
Qed.

Lemma pool_comprehension_Return (pool : Dict.t string) l acc (s : State (Mesh W)) r s' :
  comprehension l (fun hash => bind (getitem pool hash) (fun name => ret (hash, name)))
                acc s = Return r s' ->
  s' = s /\
  forall k, In k (Dict.keys r) <-> In k (Dict.keys acc) \/ In k l.
Proof.
  revert acc. induction l as [|h l IH]; intros acc H; simpl in H.
  - inversion H; subst. split; auto. intros k. simpl. tauto.
  - bind_inv H. bind_inv H0. apply getitem_Return in H1. destruct H1; subst.
    inversion H0; subst. simpl in H.
    apply IH in H. destruct H as [-> Hk]. split; auto.
    intros k. rewrite Hk, DictFacts.in_keys_set. simpl. intuition auto.
Qed.

Lemma prefilter_Return (fm : Mesh W) s pre s' :
  prefilter self fm s = Return pre s' ->
  s' = configured (geo_matcher_prefilter_sample_size self)
                  (geo_matcher_prefilter_voxel_size self) s /\
  incl pre (Dict.keys (lod_hash_to_name s)) /\
  ((0 <= geo_matcher_prefilter_candidates_count self)%Z ->
   (Z.of_nat (List.length pre) <= geo_matcher_prefilter_candidates_count self)%Z).
Proof.
  unfold prefilter. intros H.
  bind_inv H. inversion H0; subst. clear H0.
  bind_inv H. apply get_state_Return in H0. destruct H0; subst.
  bind_inv H. apply calculate_similarities_Return in H0. destruct H0 as [-> Hk].
  inversion H; subst. clear H. split; auto. split.
  - intros k Hin. apply slice_to_incl in Hin. apply Hk in Hin. exact Hin.
  - intros Hc.
    etransitivity; [apply slice_to_length; lia | lia].
Qed.

Lemma fine_match_Return (fm : Mesh W) pre s best s' :
  fine_match self fm pre s = Return best s' ->
  s' = configured (geo_matcher_sample_size self) (geo_matcher_voxel_size self) s /\
  In (fst best) pre.
Proof.
  unfold fine_match. intros H.
  bind_inv H. apply get_state_Return in H0. destruct H0; subst.
  bind_inv H. apply pool_comprehension_Return in H0. destruct H0 as [-> Hk].
  bind_inv H. inversion H0; subst. clear H0.
  bind_inv H. apply calculate_similarities_Return in H0. destruct H0 as [-> Hs].
  apply next_iter_Return in H. destruct H as [-> [d' ->]].
  split; auto.
  assert (Hin : In (fst best) (Dict.keys (best :: d'))) by (simpl; auto).
  apply Hs, Hk in Hin. simpl in Hin. tauto.
Qed.

Lemma geometric_search_Return full_name full_hash (fm : Mesh W) s best s' :
  geometric_search self full_name full_hash fm s = Return best s' ->
  exists pre s1 mesh,
    prefilter self fm s = Return pre s1 /\
    (exists s2, fine_match self fm pre s1 = Return (snd (fst best), snd best) s2) /\
    In (snd (fst best)) pre /\
    Dict.get (snd (fst best)) (lod_hash_to_name s) = Some (fst (fst best)) /\
    Dict.get (fst (fst best)) (lod_meshes s) = Some (Some mesh) /\
    s' = set_stdout
           (stdout s ++
            [ByGeoLine full_name full_hash (fst (fst best)) (snd (fst best))
                       (vertex_buffer_len W mesh)
                       (Dict.len (Dict.remove (snd (fst best)) (lod_hash_to_name s)))
                       (snd best)])
           (set_lod_hash_to_name
              (Dict.remove (snd (fst best)) (lod_hash_to_name s))
              (configured (geo_matcher_sample_size self) (geo_matcher_voxel_size self) s)).
Proof.
  unfold geometric_search. intros H.
  bind_inv H. rename a into pre, s0 into s1, H0 into Hpre.
  destruct (prefilter_Return _ _ _ _ Hpre) as (Hs1 & Hincl & _).
  bind_inv H. rename a into win, H0 into Hfine.
  destruct (fine_match_Return _ _ _ _ _ Hfine) as [Hs0 Hin].
  bind_inv H. apply get_state_Return in H0. destruct H0; subst a s2.
  bind_inv H. apply getitem_Return in H0. destruct H0 as [-> Hget].
  bind_inv H. inversion H0; subst a0 s2. clear H0.
  bind_inv H. apply get_state_Return in H0. destruct H0; subst a0 s2.
  bind_inv H. apply getitem_Return in H0. destruct H0 as [-> Hmesh].
  bind_inv H. destruct a0 as [mesh|]; [|discriminate].
  inversion H0; subst a1 s2. clear H0.
  bind_inv H. inversion H0; subst a0 s2. clear H0.
  inversion H; subst best s'. clear H.
  subst s0 s1. simpl in *.
  exists pre, (configured (geo_matcher_prefilter_sample_size self)
                          (geo_matcher_prefilter_voxel_size self) s), mesh.
  destruct win as [wh wq]. simpl in *.
  split; auto. split; [eauto|]. repeat split; auto.
Qed.

Lemma hash_shortcut_Return full_name full_hash lod_name (s : State (Mesh W)) best s' :
  hash_shortcut full_name full_hash lod_name s = Return best s' ->
  exists fm lm,
    Dict.get full_name (full_meshes s) = Some fm /\
    Dict.get lod_name (lod_meshes s) = Some lm /\
    calculate_similarity W (geo_matcher s) fm lm = Ok (snd best) /\
    fst best = (lod_name, full_hash) /\
    s' = set_stdout
           (stdout s ++
            [ByHashLine full_name full_hash lod_name
                        (Dict.len (lod_hash_to_name s)) (snd best)]) s.
Proof.
  unfold hash_shortcut. intros H.
  bind_inv H. apply get_state_Return in H0. destruct H0; subst a s0.
  bind_inv H. apply getitem_Return in H0. destruct H0 as [-> Hfm].
  bind_inv H. apply getitem_Return in H0. destruct H0 as [-> Hlm].
  bind_inv H. apply similarity_of_Return in H0. destruct H0 as [-> Hsim].
  bind_inv H. inversion H0; subst a2 s0. clear H0.
  inversion H; subst best s'. clear H.
  exists a, a0. repeat split; auto.
Qed.

Lemma match_vgs_Return full_hash lod_name lod_hash (fm : Mesh W) s u s' :
  match_vgs self full_hash lod_name lod_hash fm s = Return u s' ->
  exists lm vg_map,
    Dict.get lod_name (lod_meshes s) = Some lm /\
    match_vertex_groups W (vg_matcher_candidates_count self) fm lm = Ok vg_map /\
    s' = vgs_recorded full_hash lod_hash vg_map s.
Proof.
  unfold match_vgs, vgs_recorded. intros H.
  bind_inv H. apply get_state_Return in H0. destruct H0; subst a s0.
  bind_inv H. apply getitem_Return in H0. destruct H0 as [-> Hlm].
  bind_inv H. apply lift_Return in H0. destruct H0 as [-> Hvg].
  exists a, a0. repeat split; auto.
  destruct (0 <? remapped_count a0)%nat.
  - bind_inv H. inversion H0; subst. inversion H; subst. reflexivity.
  - inversion H; subst. reflexivity.
Qed.

Lemma set_lod_hash_to_name_same (s : State (Mesh W)) :
  set_lod_hash_to_name (lod_hash_to_name s) s = s.
Proof. destruct s; reflexivity. Qed.

Lemma match_component_Return full_name full_hash s u s' :
  match_component self full_name full_hash s = Return u s' ->
  Dict.mem full_hash (matched s) = false /\
  exists fm ln lh sim lm vg_map line gm,
    Dict.get full_name (full_meshes s) = Some fm /\
    Dict.get lh (lod_hash_to_name s) = Some ln /\
    Dict.get ln (lod_meshes s) = Some lm /\
    match_vertex_groups W (vg_matcher_candidates_count self) fm lm = Ok vg_map /\
    ((Dict.get full_hash (lod_hash_to_name s) = Some ln /\ lh = full_hash /\
      calculate_similarity W (geo_matcher s) fm lm = Ok sim /\
      line = ByHashLine full_name full_hash ln
               (Dict.len (Dict.remove full_hash (lod_hash_to_name s))) sim /\
      gm = geo_matcher s)
     \/
     (Dict.get full_hash (lod_hash_to_name s) = None /\
      (exists pre s1, prefilter self fm s = Return pre s1 /\ In lh pre) /\
      (exists mesh, lm = Some mesh /\
         line = ByGeoLine full_name full_hash ln lh (vertex_buffer_len W mesh)
                  (Dict.len (Dict.remove lh (lod_hash_to_name s))) sim) /\
      gm = mkGeometryMatcher (gm_method (geo_matcher s)) (gm_sensivity (geo_matcher s))
                             (geo_matcher_sample_size self)
                             (geo_matcher_voxel_size self))) /\
    s' = claimed_state full_hash ln lh sim vg_map line gm s.
Proof.
  unfold match_component. intros H.
  bind_inv H. apply get_state_Return in H0. destruct H0; subst a s0.
  destruct (Dict.mem full_hash (matched s)) eqn:Hmem; [discriminate|].
  split; auto.
  bind_inv H. apply getitem_Return in H0. destruct H0 as [-> Hfm].
  rename a into fm.
  bind_inv H. inversion H0; subst a s0. clear H0.
  bind_inv H. rename a into best, s0 into s2, H0 into Hbest.
  bind_inv H. inversion H0; subst a s0. clear H0.
  apply match_vgs_Return in H. destruct H as (lm & vg_map & Hlm & Hvg & ->).
  unfold Dict.pop in Hbest. simpl in Hbest.
  destruct (Dict.get full_hash (lod_hash_to_name s)) as [ln|] eqn:Hget.
  - apply hash_shortcut_Return in Hbest.
    destruct Hbest as (fm' & lm' & Hfm' & Hlm' & Hsim & Hfst & ->).
    simpl in *. destruct best as [[bn bh] bs]. simpl in *.
    inversion Hfst; subst bn bh. clear Hfst.
    assert (fm' = fm) by congruence. subst fm'.
    assert (lm' = lm) by congruence. subst lm'.
    exists fm, ln, full_hash, bs, lm, vg_map.
    eexists. exists (geo_matcher s).
    repeat split; eauto.
    left. repeat split; eauto.
  - rewrite (DictFacts.remove_notin _ _ Hget) in Hbest.
    rewrite set_lod_hash_to_name_same in Hbest.
    apply geometric_search_Return in Hbest.
    destruct Hbest as (pre & s1 & mesh & Hpre & _ & Hin & Hln & Hmesh & ->).
    destruct best as [[bn bh] bs]. simpl in *.
    assert (lm = Some mesh) by congruence. subst lm.
    exists fm, bn, bh, bs, (Some mesh), vg_map.
    eexists. eexists.
    repeat split; eauto.
    right. repeat split; eauto.
Qed.

Lemma match_component_frame full_name full_hash s u s' :
  match_component self full_name full_hash s = Return u s' ->
  exists ln lh sim,
    Dict.mem full_hash (matched s) = false /\
    matched s' = matched s ++ [(full_hash, MatchTuple ln lh sim)] /\
    Dict.get lh (lod_hash_to_name s) = Some ln /\
    lod_hash_to_name s' = Dict.remove lh (lod_hash_to_name s) /\
    full_components s' = full_components s /\
    full_meshes s' = full_meshes s /\
    lod_meshes s' = lod_meshes s /\
    (forall k, k <> full_hash -> Dict.get k (vg_maps s') = Dict.get k (vg_maps s)).
Proof.
  intros H. apply match_component_Return in H.
  destruct H as (Hmem & fm & ln & lh & sim & lm & vg & line & gm &
                 Hfm & Hln & Hlm & Hvg & _ & ->).
  exists ln, lh, sim. split; auto.
  assert (Hnone : Dict.get full_hash (matched s) = None).
  { apply DictFacts.get_None_notin. now apply DictFacts.mem_false_iff. }
  unfold claimed_state, vgs_recorded.
  destruct (0 <? remapped_count vg)%nat; simpl;
    rewrite (DictFacts.set_notin _ _ _ Hnone); repeat split; auto.
  intros k Hk. now apply DictFacts.get_set_neq.
Qed.

End StepFacts.

(** ** The matching loop *)

Lemma claimed_hashes_app m1 m2 :
  claimed_hashes (m1 ++ m2) = claimed_hashes m1 ++ claimed_hashes m2.
Proof. unfold claimed_hashes. apply flat_map_app. Qed.


Lemma in_claimed_get lh (m : Dict.t MatchValue) :
  NoDup (Dict.keys m) ->
  In lh (claimed_hashes m) ->
  exists fh n q, Dict.get fh m = Some (MatchTuple n lh q).
Proof.
  induction m as [|[k v] m IH]; simpl; [tauto|].
  intros Hnd Hin. inversion Hnd as [|? ? Hk Hnd']; subst.
  apply in_app_or in Hin. destruct Hin as [Hin | Hin].
  - destruct v as [|n h q]; simpl in Hin; [tauto|].
    destruct Hin as [-> | []].
    exists k, n, q. now rewrite String.eqb_refl.
  - destruct (IH Hnd' Hin) as (fh & n & q & Hget).
    exists fh, n, q.
    destruct (String.eqb fh k) eqn:E; auto.
    apply String.eqb_eq in E. subst.
    apply DictFacts.get_Some_in in Hget. tauto.
Qed.


Lemma NoDup_app_inv {A} (l l' : list A) :
  NoDup (l ++ l') -> NoDup l /\ NoDup l' /\ forall a, In a l -> ~ In a l'.
Proof.
  intros H. split; [eapply NoDup_app_remove_r; eauto|].
  split; [eapply NoDup_app_remove_l; eauto|].
  induction l as [|x l IH]; simpl in *; [tauto|].
  inversion H as [|? ? Hx Hnd]; subst.
  intros a [<- | Ha].
  - intros Hin. apply Hx. apply in_or_app. now right.
  - now apply IH.
Qed.

Lemma get_app_l {V} k (d e : Dict.t V) v :
  Dict.get k d = Some v -> Dict.get k (d ++ e) = Some v.
Proof.
  induction d as [|[k' v'] d IH]; simpl; [discriminate|].
  destruct (String.eqb k k'); auto.
Qed.

Lemma get_app_r {V} k (d e : Dict.t V) :
  Dict.get k d = None -> Dict.get k (d ++ e) = Dict.get k e.
Proof.
  induction d as [|[k' v'] d IH]; simpl; auto.
  destruct (String.eqb k k'); [discriminate | auto].
Qed.

Section LoopFacts.
Context {W : World}.
Variable self : Config (ComponentData W).

Lemma match_loop_cons_Return x l s u s' :
  match_loop self (x :: l) s = Return u s' ->
  exists s1, match_component self (fst x) (snd x) s = Return tt s1 /\
             match_loop self l s1 = Return u s'.
Proof.
  unfold match_loop. simpl. intros H. bind_inv H. destruct a. eauto.
Qed.

Lemma match_loop_split pre x post s u s' :
  match_loop self (pre ++ x :: post) s = Return u s' ->
  exists s1 s2,
    match_loop self pre s = Return tt s1 /\
    match_component self (fst x) (snd x) s1 = Return tt s2 /\
    match_loop self post s2 = Return u s'.
Proof.
  unfold match_loop. rewrite for_each_app. intros H.
  bind_inv H. destruct a. fold (match_loop self (x :: post)) in H.
  apply match_loop_cons_Return in H. destruct H as (s2 & H1 & H2).
  exists s0, s2. auto.
Qed.

(** What a completed loop leaves of the state it started from. *)
Lemma match_loop_frame l : forall s u s',
  match_loop self l s = Return u s' ->
  full_components s' = full_components s /\
  full_meshes s' = full_meshes s /\
  lod_meshes s' = lod_meshes s /\
  (forall k, ~ In k (map snd l) -> Dict.get k (vg_maps s') = Dict.get k (vg_maps s)) /\
  (forall k n, Dict.get k (lod_hash_to_name s') = Some n ->
               Dict.get k (lod_hash_to_name s) = Some n) /\
  exists added,
    matched s' = matched s ++ added /\
    Dict.keys added = map snd l /\
    (forall fh v, In (fh, v) added ->
       exists n lh q, v = MatchTuple n lh q /\ Dict.get lh (lod_hash_to_name s) = Some n) /\
    (forall k n, Dict.get k (lod_hash_to_name s) = Some n ->
       Dict.get k (lod_hash_to_name s') = Some n \/ In k (claimed_hashes added)).
Proof.
  induction l as [|[name h] l IH]; intros s u s' H.
  - inversion H; subst. repeat split; auto.
    exists []. rewrite app_nil_r. repeat split; auto. simpl. tauto.
  - apply match_loop_cons_Return in H. destruct H as (s1 & Hstep & Hloop).
    simpl in Hstep. apply match_component_frame in Hstep.
    destruct Hstep as (ln & lh & sim & Hmem & Hm & Hln & Hpool & Hfc & Hfm & Hlm & Hvg).
    apply IH in Hloop.
    destruct Hloop as (Hfc' & Hfm' & Hlm' & Hvg' & Hsub & added & Hm' & Hkeys & Hval & Hcov).
    split; [congruence|]. split; [congruence|]. split; [congruence|].
    split.
    { intros k Hk. simpl in Hk. rewrite Hvg' by tauto. apply Hvg. intuition auto. }
    split.
    { intros k n Hk. apply Hsub in Hk. rewrite Hpool in Hk.
      destruct (string_dec lh k) as [-> | Hne].
      - rewrite DictFacts.get_remove_eq in Hk. discriminate.
      - now rewrite DictFacts.get_remove_neq in Hk. }
    exists ((h, MatchTuple ln lh sim) :: added).
    split; [rewrite Hm', Hm, <- app_assoc; reflexivity|].
    split; [simpl; now rewrite Hkeys|].
    split.
    { intros fh v [Heq | Hin].
      - inversion Heq; subst. eauto.
      - destruct (Hval _ _ Hin) as (n & lh' & q & -> & Hget).
        exists n, lh', q. split; auto.
        rewrite Hpool in Hget.
        destruct (string_dec lh lh') as [-> | Hne].
        + rewrite DictFacts.get_remove_eq in Hget. discriminate.
        + now rewrite DictFacts.get_remove_neq in Hget. }
    intros k n Hk. simpl.
    destruct (string_dec lh k) as [-> | Hne]; [auto|].
    assert (Hk1 : Dict.get k (lod_hash_to_name s1) = Some n).
    { rewrite Hpool. now rewrite DictFacts.get_remove_neq. }
    destruct (Hcov _ _ Hk1); auto.
Qed.

(** Claimed hashes and pool keys stay pairwise distinct. *)
Lemma match_loop_NoDup l : forall s u s',
  match_loop self l s = Return u s' ->
  NoDup (claimed_hashes (matched s) ++ Dict.keys (lod_hash_to_name s)) ->
  NoDup (claimed_hashes (matched s') ++ Dict.keys (lod_hash_to_name s')).
Proof.
  induction l as [|[name h] l IH]; intros s u s' H Hnd.
  - inversion H; subst. exact Hnd.
  - apply match_loop_cons_Return in H. destruct H as (s1 & Hstep & Hloop).
    simpl in Hstep. apply match_component_frame in Hstep.
    destruct Hstep as (ln & lh & sim & Hmem & Hm & Hln & Hpool & _).
    apply (IH _ _ _ Hloop). rewrite Hm, Hpool, claimed_hashes_app. simpl.
    apply NoDup_app_inv in Hnd. destruct Hnd as (Hc & Hp & Hdis).
    apply DictFacts.get_Some_in in Hln.
    apply NoDup_app.
    + apply NoDup_app; auto.
      * constructor; [simpl; tauto | constructor].
      * intros a Ha [<- | []]. apply (Hdis _ Ha Hln).
    + now apply DictFacts.NoDup_keys_remove.
    + intros a Ha. rewrite DictFacts.in_keys_remove.
      apply in_app_or in Ha. destruct Ha as [Ha | [<- | []]].
      * intros [_ Hin]. apply (Hdis _ Ha Hin).
      * tauto.
Qed.

(** Hashes processed by a completed loop are pairwise distinct and new. *)
Lemma match_loop_fresh l : forall s u s',
  match_loop self l s = Return u s' ->
  NoDup (map snd l) /\
  forall k, In k (map snd l) -> ~ In k (Dict.keys (matched s)).
Proof.
  induction l as [|[name h] l IH]; intros s u s' H.
  - simpl. split; [constructor | tauto].
  - apply match_loop_cons_Return in H. destruct H as (s1 & Hstep & Hloop).
    simpl in Hstep. apply match_component_frame in Hstep.
    destruct Hstep as (ln & lh & sim & Hmem & Hm & _).
    apply IH in Hloop. destruct Hloop as (Hnd & Hnew).
    apply DictFacts.mem_false_iff in Hmem.
    assert (Hk : forall k, In k (map snd l) -> k <> h /\ ~ In k (Dict.keys (matched s))).
    { intros k Hin. specialize (Hnew k Hin). rewrite Hm in Hnew.
      unfold Dict.keys in Hnew. rewrite map_app, in_app_iff in Hnew. simpl in Hnew.
      split; [intros ->; tauto | unfold Dict.keys; tauto]. }
    simpl. split.
    + constructor; auto. intros Hin. apply Hk in Hin. tauto.
    + intros k [<- | Hin]; auto. now apply Hk.
Qed.

Lemma stdout_claimed_state fh ln lh sim vg line gm (s : State (Mesh W)) :
  exists vl,
    stdout (claimed_state fh ln lh sim vg line gm s) = stdout s ++ [line; vl] /\
    forall h, ~ geo_line_of h vl.
Proof.
  unfold claimed_state, vgs_recorded.
  destruct (0 <? remapped_count vg)%nat; simpl; rewrite <- app_assoc; simpl;
    eexists; (split; [reflexivity|]);
    intros h (fn & ln' & lh' & v & c & q & Heq); discriminate.
Qed.

(** The lines one successful iteration prints. *)
Lemma match_component_lines name h s u s' :
  match_component self name h s = Return u s' ->
  exists line vl,
    stdout s' = stdout s ++ [line; vl] /\
    (forall h', ~ geo_line_of h' vl) /\
    (forall h', geo_line_of h' line ->
                h' = h /\ Dict.get h (lod_hash_to_name s) = None).
Proof.
  intros H. apply match_component_Return in H.
  destruct H as (_ & fm & ln & lh & sim & lm & vg & line & gm & _ & _ & _ & _ & Hbranch & ->).
  destruct (stdout_claimed_state h ln lh sim vg line gm s) as (vl & Hout & Hvl).
  exists line, vl. split; auto. split; auto.
  intros h' (fn & ln' & lh' & v & c & q & Heq).
  destruct Hbranch as [(_ & _ & _ & -> & _) | (Hnone & _ & (mesh & _ & ->) & _)].
  - discriminate.
  - inversion Heq; subst. auto.
Qed.

(** A completed loop only appends lines, and each geometric-match line it
    appends is for a hash it processed. *)
Lemma match_loop_stdout l : forall s u s',
  match_loop self l s = Return u s' ->
  exists lines,
    stdout s' = stdout s ++ lines /\
    forall h line, In line lines -> geo_line_of h line -> In h (map snd l).
Proof.
  induction l as [|[name h] l IH]; intros s u s' H.
  - inversion H; subst. exists []. rewrite app_nil_r. split; [reflexivity|].
    intros h line [].
  - apply match_loop_cons_Return in H. destruct H as (s1 & Hstep & Hloop).
    simpl in Hstep. apply match_component_lines in Hstep.
    destruct Hstep as (line & vl & Hout & Hvl & Hline).
    apply IH in Hloop. destruct Hloop as (lines & Hout' & Hlines).
    exists (line :: vl :: lines). split.
    + rewrite Hout', Hout, <- app_assoc. reflexivity.
    + intros h' x [<- | [<- | Hin]] Hgeo; simpl.
      * left. symmetry. now apply Hline.
      * exfalso. exact (Hvl _ Hgeo).
      * right. eauto.
Qed.

(** How a completed loop resolved one of its components. *)
Lemma component_record pre name h post s u s' :
  match_loop self (pre ++ (name, h) :: post) s = Return u s' ->
  exists s1 fm ln lh sim lm vg line,
    match_loop self pre s = Return tt s1 /\
    Dict.get name (full_meshes s') = Some fm /\
    Dict.get lh (lod_hash_to_name s1) = Some ln /\
    Dict.get ln (lod_meshes s') = Some lm /\
    match_vertex_groups W (vg_matcher_candidates_count self) fm lm = Ok vg /\
    ((Dict.get h (lod_hash_to_name s1) = Some ln /\ lh = h /\
      calculate_similarity W (geo_matcher s1) fm lm = Ok sim /\
      line = ByHashLine name h ln
               (Dict.len (Dict.remove h (lod_hash_to_name s1))) sim)
     \/
     (Dict.get h (lod_hash_to_name s1) = None /\
      (exists pf s2, prefilter self fm s1 = Return pf s2 /\ In lh pf) /\
      (exists mesh, lm = Some mesh /\
         line = ByGeoLine name h ln lh (vertex_buffer_len W mesh)
                  (Dict.len (Dict.remove lh (lod_hash_to_name s1))) sim))) /\
    Dict.get h (matched s') = Some (MatchTuple ln lh sim) /\
    Dict.get h (vg_maps s') =
      (if (0 <? remapped_count vg)%nat then Some (lh, vg) else Dict.get h (vg_maps s)) /\
    In line (stdout s') /\
    ~ In h (map snd pre) /\ ~ In h (map snd post) /\
    (forall k v, Dict.get k (matched s1) = Some v -> Dict.get k (matched s') = Some v) /\
    (Dict.get h (lod_hash_to_name s1) <> None ->
     forall l, In l (stdout s') -> geo_line_of h l -> In l (stdout s)).
Proof.
  intros H.
  destruct (match_loop_fresh _ _ _ _ H) as (Hnd & Hnew).
  rewrite map_app in Hnd. simpl in Hnd.
  pose proof (NoDup_remove_2 _ _ _ Hnd) as Hnotin.
  rewrite in_app_iff in Hnotin.
  apply match_loop_split in H. destruct H as (s1 & s2 & Hpre & Hstep & Hpost).
  simpl in Hstep.
  pose proof (match_loop_frame _ _ _ _ Hpre) as (_ & Hfm1 & Hlm1 & Hvg1 & _).
  pose proof (match_loop_frame _ _ _ _ Hpost)
    as (_ & Hfm2 & Hlm2 & Hvg2 & _ & added & Hm2 & _).
  destruct (match_loop_stdout _ _ _ _ Hpost) as (lines & Hout & Hlines).
  destruct (match_loop_stdout _ _ _ _ Hpre) as (lines1 & Hout1 & Hlines1).
  destruct (match_component_lines _ _ _ _ _ Hstep)
    as (line0 & vl0 & Hout0 & Hvl0 & Hline0).
  apply match_component_Return in Hstep.
  destruct Hstep as (Hmem & fm & ln & lh & sim & lm & vg & line & gm &
                     Hfm & Hln & Hlm & Hvg & Hbranch & ->).
  assert (Hfull : full_meshes s' = full_meshes s1).
  { rewrite Hfm2. unfold claimed_state, vgs_recorded.
    destruct (0 <? remapped_count vg)%nat; reflexivity. }
  assert (Hlod : lod_meshes s' = lod_meshes s1).
  { rewrite Hlm2. unfold claimed_state, vgs_recorded.
    destruct (0 <? remapped_count vg)%nat; reflexivity. }
  exists s1, fm, ln, lh, sim, lm, vg, line.
  split; auto. split; [congruence|]. split; auto. split; [congruence|].
  split; auto. split.
  { destruct Hbranch as [(H1 & H2 & H3 & H4 & _) | (H1 & H2 & H3 & _)]; [left | right]; auto. }
  split.
  { rewrite Hm2. apply get_app_l. unfold claimed_state, vgs_recorded.
    destruct (0 <? remapped_count vg)%nat; simpl; apply DictFacts.get_set_eq. }
  split.
  { rewrite Hvg2 by tauto. rewrite <- Hvg1 by tauto.
    unfold claimed_state, vgs_recorded.
    destruct (0 <? remapped_count vg)%nat; simpl; auto.
    apply DictFacts.get_set_eq. }
  split.
  { rewrite Hout.
    destruct (stdout_claimed_state h ln lh sim vg line gm s1) as (l1 & -> & _).
    apply in_or_app. left. apply in_or_app. right. simpl. auto. }
  split; [tauto|]. split; [tauto|].
  split.
  { intros k v Hk. rewrite Hm2. apply get_app_l.
    assert (Hne : h <> k).
    { intros ->. apply DictFacts.mem_false_iff in Hmem.
      apply DictFacts.get_Some_in in Hk. tauto. }
    unfold claimed_state, vgs_recorded.
    destruct (0 <? remapped_count vg)%nat; simpl;
      rewrite DictFacts.get_set_neq; auto. }
  intros Hsome l Hin Hgeo.
  rewrite Hout, Hout0, Hout1 in Hin.
  apply in_app_or in Hin. destruct Hin as [Hin | Hin].
  - apply in_app_or in Hin. destruct Hin as [Hin | Hin].
    + apply in_app_or in Hin. destruct Hin as [Hin | Hin]; auto.
      exfalso. apply (Hlines1 _ _ Hin) in Hgeo. tauto.
    + exfalso. destruct Hin as [<- | [<- | []]].
      * apply Hline0 in Hgeo. tauto.
      * exact (Hvl0 _ Hgeo).
  - exfalso. apply (Hlines _ _ Hin) in Hgeo. tauto.
Qed.

End LoopFacts.

(** ** Loading *)

Section Preserves.
Context {MeshT : Type}.
Variable P : State MeshT -> Prop.

Lemma preserves_ret {A} (a : A) : preserves P (ret a).
Proof. intros s H. exact H. Qed.

Lemma preserves_raise {A} e : preserves P (@raise MeshT A e).
Proof. intros s H. exact H. Qed.

Lemma preserves_lift {A} (r : result A) : preserves P (lift r).
Proof. destruct r; [apply preserves_ret | apply preserves_raise]. Qed.

Lemma preserves_getitem {V} (d : Dict.t V) k : preserves P (getitem d k).
Proof.
  unfold getitem. destruct (Dict.get k d); [apply preserves_ret | apply preserves_raise].
Qed.

Lemma preserves_get_state : preserves P get_state.
Proof. intros s H. exact H. Qed.

Lemma preserves_modify f : (forall s, P s -> P (f s)) -> preserves P (modify f).
Proof. intros Hf s H. simpl. auto. Qed.

Lemma preserves_bind {A B} (m : Eff MeshT A) (k : A -> Eff MeshT B) :
  preserves P m -> (forall a, preserves P (k a)) -> preserves P (bind m k).
Proof.
  intros Hm Hk s H. unfold bind. specialize (Hm s H).
  destruct (m s) as [a s1|e s1]; auto. apply Hk; auto.
Qed.

Lemma preserves_for_each {A} (l : list A) (body : A -> Eff MeshT unit) :
  (forall x, preserves P (body x)) -> preserves P (for_each l body).
Proof.
  intros Hb. induction l as [|x l IH]; simpl.
  - apply preserves_ret.
  - apply preserves_bind; auto.
Qed.

Lemma preserves_comprehension {A V} (l : list A) (entry : A -> Eff MeshT (string * V)) :
  (forall x, preserves P (entry x)) ->
  forall acc, preserves P (comprehension l entry acc).
Proof.
  intros He. induction l as [|x l IH]; intros acc; simpl.
  - apply preserves_ret.
  - apply preserves_bind; auto.
Qed.

End Preserves.

Section RunFacts.
Context {W : World}.
Variable self : Config (ComponentData W).

Lemma ready_post_init : ready (post_init self).
Proof. repeat split; simpl; try constructor. intros l []. Qed.

Lemma ready_print_failed name path (s : State (Mesh W)) :
  ready s -> ready (set_stdout (stdout s ++ [FailedToLoadLine name path]) s).
Proof.
  intros (Hm & Hv & Hnd & Hout). repeat split; auto. simpl.
  intros l Hin. apply in_app_or in Hin. destruct Hin as [Hin | [<- | []]]; eauto.
Qed.

Lemma preserves_load_component_hashes path json_str object_id :
  preserves ready (@_load_component_hashes W path json_str object_id).
Proof.
  unfold _load_component_hashes. destruct path;
    (apply preserves_bind; [apply preserves_lift | intros; apply preserves_ret]).
Qed.

Lemma preserves_load_metadata : preserves ready (load_metadata self).
Proof.
  unfold load_metadata.
  apply preserves_bind; [apply preserves_load_component_hashes | intros fc].
  apply preserves_bind; [apply preserves_modify; intros s H; exact H | intros _].
  apply preserves_bind.
  { destruct (lod_model_path self); [|apply preserves_ret].
    apply preserves_bind; [apply preserves_load_component_hashes | intros lc].
    apply preserves_modify. intros s H. exact H. }
  intros _. apply preserves_bind.
  { destruct (lod_objects self); [|apply preserves_ret].
    apply preserves_for_each. intros o.
    apply preserves_bind; [apply preserves_load_component_hashes | intros d].
    apply preserves_modify. intros s H. exact H. }
  intros _. apply preserves_modify. intros s (Hm & Hv & _ & Hout).
  repeat split; auto. simpl. apply DictFacts.NoDup_keys_of_items.
Qed.

Lemma preserves_load_meshes : preserves ready (load_meshes self).
Proof.
  unfold load_meshes.
  apply preserves_bind; [apply preserves_get_state | intros s0].
  apply preserves_bind.
  { apply preserves_comprehension. intros name.
    apply preserves_bind; [apply preserves_lift | intros; apply preserves_ret]. }
  intros fm. apply preserves_bind; [apply preserves_modify; intros s H; exact H | intros _].
  apply preserves_bind.
  { destruct (lod_model_path self); [|apply preserves_ret].
    apply preserves_bind; [apply preserves_get_state | intros s1].
    apply preserves_bind.
    { apply preserves_comprehension. intros name.
      apply preserves_bind; [apply preserves_lift | intros; apply preserves_ret]. }
    intros lm. apply preserves_modify. intros s H. exact H. }
  intros _. destruct (lod_objects self); [|apply preserves_ret].
  apply preserves_for_each. intros o. apply preserves_for_each. intros ic.
  destruct (from_bytes W (snd ic)).
  - apply preserves_modify. intros s H. exact H.
  - apply preserves_bind; [apply preserves_modify; apply ready_print_failed | intros _].
    apply preserves_modify. intros s H. exact H.
Qed.

Lemma run_fresh_Return m s' :
  run_fresh self = Return m s' ->
  exists s0,
    load self = Return tt s0 /\ ready s0 /\
    match_loop self (Dict.items (full_components s0)) s0 = Return tt s' /\
    m = matched s'.
Proof.
  unfold run_fresh, run, load. intros H.
  apply bind_Return in H. destruct H as ([] & s1 & Hmeta & H).
  apply bind_Return in H. destruct H as ([] & s2 & Hmesh & H).
  apply bind_Return in H. destruct H as ([] & s3 & Hgeo & H).
  apply bind_Return in H. destruct H as (s4 & s5 & Hget & H).
  apply get_state_Return in Hget. destruct Hget; subst s4 s5.
  inversion H; subst m s'. clear H.
  unfold match_by_geometry in Hgeo.
  apply bind_Return in Hgeo. destruct Hgeo as (s4 & s5 & Hget & Hgeo).
  apply get_state_Return in Hget. destruct Hget; subst s4 s5.
  exists s2. unfold bind. rewrite Hmeta, Hmesh.
  split; auto. split; [|split; auto].
  pose proof (preserves_load_metadata _ ready_post_init) as R1.
  rewrite Hmeta in R1. pose proof (preserves_load_meshes _ R1) as R2.
  rewrite Hmesh in R2. exact R2.
Qed.

End RunFacts.

Lemma get_Some_In_items {V} k v (d : Dict.t V) : Dict.get k d = Some v -> In (k, v) d.
Proof.
  induction d as [|[k' v'] d IH]; simpl; [discriminate|].
  destruct (String.eqb k k') eqn:E.
  - apply String.eqb_eq in E. intros H. inversion H; subst. auto.
  - auto.
Qed.

(** * Results *)

Section Results.
Context {W : World}.
Variable self : Config (ComponentData W).


(** C10. A run that returns normally has recorded a match for every full
    component of the full-component table. *)
Theorem completed_run_matches_every_component m s' name h :
  run_fresh self = Return m s' ->
  In (name, h) (Dict.items (full_components s')) ->
  exists ln lh q, Dict.get h m = Some (MatchTuple ln lh q).
Proof.
  intros Hrun Hin.
  apply run_fresh_Return in Hrun.
  destruct Hrun as (s0 & _ & (Hm0 & _ & _) & Hloop & ->).
  apply match_loop_frame in Hloop.
  destruct Hloop as (Hfc & _ & _ & _ & _ & added & Hm & Hkeys & Hval & _).
  rewrite Hfc in Hin. rewrite Hm, Hm0. simpl.
  assert (Hk : In h (Dict.keys added)).
  { rewrite Hkeys. apply in_map_iff. exists (name, h). auto. }
  apply DictFacts.in_keys_get in Hk. destruct Hk as [v Hv].
  destruct (Hval _ _ (get_Some_In_items _ _ _ Hv)) as (n & lh & q & -> & _).
  eauto.
Qed.

Lemma remapped_count_pos vg :
  (0 <? remapped_count vg)%nat = true <-> exists k v, In (k, v) vg /\ k <> v.
Proof.
  unfold remapped_count. induction vg as [|[k v] vg IH]; simpl.
  - split; [discriminate | intros (k & v & [] & _)].
  - destruct (Z.eqb_spec k v) as [-> | Hne]; simpl.
    + rewrite IH. split.
      * intros (k & v' & Hin & Hd). eauto.
      * intros (k & v' & [Heq | Hin] & Hd); [inversion Heq; subst; tauto | eauto].
    + split; auto. intros _. exists k, v. auto.
Qed.

Lemma remapped_count_zero vg :
  (0 <? remapped_count vg)%nat = false <-> forall k v, In (k, v) vg -> k = v.
Proof.
  split.
  - intros H k v Hin. destruct (Z.eq_dec k v) as [|Hne]; auto.
    assert (Hp : (0 <? remapped_count vg)%nat = true).
    { apply remapped_count_pos. eauto. }
    congruence.
  - intros H. destruct (0 <? remapped_count vg)%nat eqn:E; auto.
    apply remapped_count_pos in E. destruct E as (k & v & Hin & Hne).
    apply H in Hin. tauto.
Qed.

Lemma lod_index_loaded s0 : load self = Return tt s0 -> lod_index self = lod_hash_to_name s0.
Proof. unfold lod_index. intros ->. reflexivity. Qed.

(** A full component whose hash is in the LOD hash index is claimed through
    the hash shortcut, unless an earlier full component took that LOD
    component first; it is then resolved by the geometric search, to a LOD
    component with another hash. *)
Lemma hash_claim_or_taken m s' pre name h post B :
  run_fresh self = Return m s' ->
  Dict.items (full_components s') = pre ++ (name, h) :: post ->
  Dict.get h (lod_index self) = Some B ->
  (exists q n,
     Dict.get h m = Some (MatchTuple B h q) /\
     In (ByHashLine name h B n q) (stdout s') /\
     forall l, In l (stdout s') -> ~ geo_line_of h l)
  \/
  ((exists h' q, In h' (map snd pre) /\ h' <> h /\
                 Dict.get h' m = Some (MatchTuple B h q)) /\
   exists ln lh q' v c,
     lh <> h /\ Dict.get h m = Some (MatchTuple ln lh q') /\
     In (ByGeoLine name h ln lh v c q') (stdout s')).
Proof.
  intros Hrun Hitems Hidx.
  apply run_fresh_Return in Hrun.
  destruct Hrun as (s0 & Hload & (Hm0 & _ & Hnd0 & Hout0) & Hloop & ->).
  rewrite (lod_index_loaded _ Hload) in Hidx.
  assert (Hfc : full_components s' = full_components s0).
  { apply (match_loop_frame self _ _ _ _ Hloop). }
  rewrite Hfc in Hitems. rewrite Hitems in Hloop.
  apply component_record in Hloop.
  destruct Hloop as (s1 & fm & ln & lh & sim & lm & vg & line & Hpre & Hfm & Hln & Hlm &
                     _ & Hbranch & Hrec & _ & Hline & Hnpre & _ & Hkeep & Hnogeo).
  pose proof (match_loop_fresh self _ _ _ _ Hpre) as (Hndpre & _).
  assert (Hnd1 : NoDup (claimed_hashes (matched s1) ++ Dict.keys (lod_hash_to_name s1))).
  { apply (match_loop_NoDup self _ _ _ _ Hpre). rewrite Hm0. exact Hnd0. }
  apply match_loop_frame in Hpre.
  destruct Hpre as (_ & _ & _ & _ & _ & added & Hm1 & Hkeys & Hval & Hcov).
  rewrite Hm0 in Hm1. simpl in Hm1.
  destruct (Hcov _ _ Hidx) as [Hstill | Htaken].
  - left. destruct Hbranch as [(H1 & -> & Hsim & ->) | (H1 & _)]; [|congruence].
    assert (ln = B) by congruence. subst ln.
    exists sim, (Dict.len (Dict.remove h (lod_hash_to_name s1))).
    repeat split; auto.
    intros l Hin Hgeo.
    assert (Hin0 : In l (stdout s0)).
    { apply Hnogeo; auto. congruence. }
    destruct (Hout0 _ Hin0) as (n0 & p0 & ->).
    destruct Hgeo as (? & ? & ? & ? & ? & ? & Heq). discriminate.
  - right. split.
    + rewrite <- Hkeys in Hndpre.
      destruct (in_claimed_get _ _ Hndpre Htaken) as (fh & n & q & Hget).
      pose proof (get_Some_In_items _ _ _ Hget) as Hin.
      destruct (Hval _ _ Hin) as (n' & lh' & q' & Heq & Hpool).
      inversion Heq; subst n' lh' q'.
      assert (n = B) by congruence. subst n.
      assert (Hfh : In fh (map snd pre)).
      { rewrite <- Hkeys. eapply DictFacts.get_Some_in; eauto. }
      exists fh, q. split; auto. split; [intros ->; tauto|].
      apply Hkeep. now rewrite Hm1.
    + assert (Hgone : Dict.get h (lod_hash_to_name s1) = None).
      { apply DictFacts.get_None_notin.
        apply NoDup_app_inv in Hnd1. destruct Hnd1 as (_ & _ & Hdis).
        apply Hdis. now rewrite Hm1. }
      destruct Hbranch as [(H1 & _) | (_ & _ & (mesh & -> & ->))]; [congruence|].
      exists ln, lh, sim, (vertex_buffer_len W mesh),
             (Dict.len (Dict.remove lh (lod_hash_to_name s1))).
      split; [intros ->; congruence|]. split; auto.
Qed.

(** C3, as amended.  [run] makes a single pass: the records it returns are
    all triples written by [match_by_geometry], none is a bare name written
    by [match_by_hash].  Within that pass a full component whose hash is in
    the LOD hash index is claimed by the hash shortcut, and no line reports
    a geometric match for it, unless an earlier full component, with
    another hash, already claimed that LOD component; the component is then
    resolved by the geometric search, to a LOD component with another
    hash. *)
Theorem single_pass_hash_resolution m s' :
  run_fresh self = Return m s' ->
  (forall fh v, Dict.get fh m = Some v -> exists n lh q, v = MatchTuple n lh q) /\
  forall pre name h post B,
    Dict.items (full_components s') = pre ++ (name, h) :: post ->
    Dict.get h (lod_index self) = Some B ->
    (exists q n, Dict.get h m = Some (MatchTuple B h q) /\
                 In (ByHashLine name h B n q) (stdout s') /\
                 forall fn ln lh v c q',
                   ~ In (ByGeoLine fn h ln lh v c q') (stdout s'))
    \/
    ((exists h' q, In h' (map snd pre) /\ h' <> h /\
                   Dict.get h' m = Some (MatchTuple B h q)) /\
     exists ln lh q' v c,
       lh <> h /\ Dict.get h m = Some (MatchTuple ln lh q') /\
       In (ByGeoLine name h ln lh v c q') (stdout s')).
Proof.
  intros Hrun. split.
  - intros fh v Hget.
    pose proof Hrun as Hrun'. apply run_fresh_Return in Hrun'.
    destruct Hrun' as (s0 & _ & (Hm0 & _ & _) & Hloop & ->).
    apply match_loop_frame in Hloop.
    destruct Hloop as (_ & _ & _ & _ & _ & added & Hm & _ & Hval & _).
    rewrite Hm, Hm0 in Hget. simpl in Hget.
    destruct (Hval _ _ (get_Some_In_items _ _ _ Hget)) as (n & lh & q & -> & _).
    eauto.
  - intros pre name h post B Hitems Hidx.
    destruct (hash_claim_or_taken _ _ _ _ _ _ _ Hrun Hitems Hidx)
      as [(q & n & Hget & Hline & Hnogeo) | Htaken]; [left | right; exact Htaken].
    exists q, n. split; auto. split; auto.
    intros fn ln lh v c q' Hin. apply (Hnogeo _ Hin).
    exists fn, ln, lh, v, c, q'. reflexivity.
Qed.

(** C8. For every matched pair a vertex-group remap is stored under the full
    component's hash exactly when the solver's mapping has an entry whose
    output index differs from its input index; an identity mapping stores
    nothing. *)
Theorem remap_stored_iff_not_identity m s' fh ln lh q :
  run_fresh self = Return m s' ->
  Dict.get fh m = Some (MatchTuple ln lh q) ->
  exists name fm lm vg,
    In (name, fh) (Dict.items (full_components s')) /\
    Dict.get name (full_meshes s') = Some fm /\
    Dict.get ln (lod_meshes s') = Some lm /\
    match_vertex_groups W (vg_matcher_candidates_count self) fm lm = Ok vg /\
    ((exists k v, In (k, v) vg /\ k <> v) <->
     Dict.get fh (vg_maps s') = Some (lh, vg)) /\
    ((forall k v, In (k, v) vg -> k = v) <-> Dict.get fh (vg_maps s') = None).
Proof.
  intros Hrun Hget.
  apply run_fresh_Return in Hrun.
  destruct Hrun as (s0 & _ & (Hm0 & Hv0 & _) & Hloop & ->).
  pose proof (match_loop_frame self _ _ _ _ Hloop)
    as (Hfc & _ & _ & _ & _ & added & Hm & Hkeys & _).
  assert (Hin : In fh (map snd (Dict.items (full_components s0)))).
  { rewrite <- Hkeys. rewrite Hm, Hm0 in Hget. simpl in Hget.
    eapply DictFacts.get_Some_in; eauto. }
  apply in_map_iff in Hin. destruct Hin as ([name fh'] & Heq & Hin).
  simpl in Heq. subst fh'.
  destruct (in_split _ _ Hin) as (pre & post & Hsplit).
  rewrite Hsplit in Hloop. apply component_record in Hloop.
  destruct Hloop as (s1 & fm & ln' & lh' & sim & lm & vg & line & _ & Hfm & _ & Hlm &
                     Hvg & _ & Hrec & Hmaps & _).
  rewrite Hrec in Hget. inversion Hget; subst ln' lh' sim. clear Hget.
  rewrite Hv0 in Hmaps. simpl in Hmaps.
  exists name, fm, lm, vg.
  split; [rewrite Hfc; exact Hin|]. split; auto. split; auto. split; auto.
  rewrite Hmaps. split.
  - rewrite <- remapped_count_pos.
    destruct (0 <? remapped_count vg)%nat; split; congruence.
  - rewrite <- remapped_count_zero.
    destruct (0 <? remapped_count vg)%nat; split; congruence.
Qed.

Lemma run_fresh_after_load s0 :
  load self = Return tt s0 ->
  run_fresh self =
  bind (match_by_geometry self) (fun _ => bind get_state (fun s => ret (matched s))) s0.
Proof.
  unfold load, run_fresh, run, bind.
  destruct (load_metadata self (post_init self)) as [[] sa|e sa]; [|discriminate].
  destruct (load_meshes self sa) as [[] sb|e sb]; [|discriminate].
  intros H. inversion H; subst. reflexivity.
Qed.

(** C6, as amended.  A full-component table with a repeated hash never
    yields a completed run, and when processing reaches the later holder of
    the hash the run raises [ValueError] for that hash in exactly the state
    the earlier components left, so nothing is scored for the later holder.
    The earlier components, the first holder among them, have been
    processed by then. *)
Theorem duplicate_hash_raises_at_later_holder s0 pre name h post :
  load self = Return tt s0 ->
  Dict.items (full_components s0) = pre ++ (name, h) :: post ->
  In h (map snd pre) ->
  (forall m s', run_fresh self <> Return m s') /\
  (forall s1, match_loop self pre s0 = Return tt s1 ->
              run_fresh self = Raised (ValueError h) s1).
Proof.
  intros Hload Hitems Hdup. split.
  - intros m s' Hrun. apply run_fresh_Return in Hrun.
    destruct Hrun as (s0' & Hload' & _ & Hloop & _).
    rewrite Hload in Hload'. inversion Hload'; subst s0'.
    rewrite Hitems in Hloop. apply match_loop_fresh in Hloop.
    destruct Hloop as (Hnd & _). rewrite map_app in Hnd. simpl in Hnd.
    apply NoDup_remove_2 in Hnd. apply Hnd. apply in_or_app. now left.
  - intros s1 Hpre. rewrite (run_fresh_after_load _ Hload).
    unfold match_by_geometry. unfold bind at 1 2. simpl.
    rewrite Hitems.
    change (for_each (pre ++ (name, h) :: post)
                     (fun nh => match_component self (fst nh) (snd nh)))
      with (match_loop self (pre ++ (name, h) :: post)).
    unfold match_loop. rewrite for_each_app. unfold bind at 1.
    fold (match_loop self pre). rewrite Hpre. simpl.
    unfold bind at 1. unfold match_component at 1. unfold bind at 1. simpl.
    apply match_loop_frame in Hpre.
    destruct Hpre as (_ & _ & _ & _ & _ & added & Hm & Hkeys & _).
    assert (Hmem : Dict.mem h (matched s1) = true).
    { apply DictFacts.mem_true_iff. rewrite Hm. unfold Dict.keys.
      rewrite map_app. apply in_or_app. right. fold (Dict.keys added).
      now rewrite Hkeys. }
    rewrite Hmem. reflexivity.
Qed.

(** C7. The candidate the fine stage selects is one of the hashes the coarse
    prefilter kept; those are hashes of the candidate pool, and at most
    [geo_matcher_prefilter_candidates_count] of them when that count is not
    negative. *)
Theorem fine_winner_in_prefilter full_name full_hash (fm : Mesh W) s best s' :
  geometric_search self full_name full_hash fm s = Return best s' ->
  exists pre s1 s2,
    prefilter self fm s = Return pre s1 /\
    fine_match self fm pre s1 = Return (snd (fst best), snd best) s2 /\
    In (snd (fst best)) pre /\
    incl pre (Dict.keys (lod_hash_to_name s)) /\
    ((0 <= geo_matcher_prefilter_candidates_count self)%Z ->
     (Z.of_nat (List.length pre) <= geo_matcher_prefilter_candidates_count self)%Z).
Proof.
  intros H. apply geometric_search_Return in H.
  destruct H as (pre & s1 & mesh & Hpre & (s2 & Hfine) & Hin & _).
  destruct (prefilter_Return self _ _ _ _ Hpre) as (_ & Hincl & Hlen).
  exists pre, s1, s2. auto.
Qed.

End Results.

(** * Concrete runs *)

(** C1.  With full components [h1; h2] and one LOD component [h3], the
    first full component claims [h3]; the second then meets an empty
    candidate pool and the run raises [StopIteration] instead of leaving it
    unmatched. *)
Theorem empty_pool_raises_StopIteration :
  exists s,
    run_fresh (W := exhausted_world) (disk_config 3) = Raised StopIteration s /\
    matched s = [("h1", MatchTuple "Component 0" "h3" (Num 1))] /\
    lod_hash_to_name s = [].
Proof.
  exists (final_state (run_fresh (W := exhausted_world) (disk_config 3))).
  vm_compute. repeat split; reflexivity.
Qed.

(** C2.  A LOD component whose mesh failed to load stays in the candidate
    pool and is scored: whatever the scorer and the solver do, the run
    aborts, and with a scorer that accepts the absent mesh the component
    wins the search, leaves the pool, and the run raises
    [AttributeError]. *)
Theorem absent_mesh_aborts_run :
  (forall score solve,
     exists e s,
       run_fresh (W := absent_world score solve) (object_config [None] 3) = Raised e s /\
       Dict.get "obj - Component 0" (lod_meshes s) = Some None /\
       matched s = []) /\
  exists s,
    run_fresh (W := absent_world const_score identity_solve) (object_config [None] 3)
    = Raised AttributeError s /\
    lod_hash_to_name (final_state (load (W := absent_world const_score identity_solve)
                                        (object_config [None] 3)))
    = [("h2", "obj - Component 0")] /\
    lod_hash_to_name s = [].
Proof.
  split.
  - intros score solve. cbv.
    repeat match goal with
           | |- context [score ?a ?b ?c] => destruct (score a b c) as [[?|]|?]; cbn
           end;
      do 2 eexists; repeat split; reflexivity.
  - exists (final_state (run_fresh (W := absent_world const_score identity_solve)
                                   (object_config [None] 3))).
    vm_compute. repeat split; reflexivity.
Qed.

(** C3, counterexample.  [h2] is in the LOD hash index, yet the full
    component with hash [h2] is matched by geometric search to [h3]: the
    earlier full component, resolved geometrically, had taken [h2]. *)
Lemma indexed_hash_resolved_geometrically :
  exists m s,
    run_fresh (W := crossed_world) (disk_config 3) = Return m s /\
    In ("Component 1", "h2") (Dict.items (full_components s)) /\
    Dict.get "h2" (lod_index (W := crossed_world) (disk_config 3)) = Some "Component 0" /\
    Dict.get "h2" m = Some (MatchTuple "Component 1" "h3" (Num 1)) /\
    In (ByGeoLine "Component 1" "h2" "Component 1" "h3" 0 0 (Num 1)) (stdout s).
Proof.
  exists [("h1", MatchTuple "Component 0" "h2" (Num 1)); ("h2", MatchTuple "Component 1" "h3" (Num 1))].
  exists (final_state (run_fresh (W := crossed_world) (disk_config 3))).
  vm_compute. repeat split; auto.
Qed.

(** C6, counterexample.  With the hash [h1] repeated the run does abort
    with [ValueError "h1"], but only after the first holder was matched by
    geometric search. *)
Lemma duplicate_detected_after_geometric_work :
  Dict.items (full_components
                (final_state (load (W := duplicate_world) (disk_config 3))))
  = [("Component 0", "h1"); ("Component 1", "h1")] /\
  ~ (exists s,
       run_fresh (W := duplicate_world) (disk_config 3) = Raised (ValueError "h1") s /\
       ~ geometric_work s).
Proof.
  split; [vm_compute; reflexivity|].
  intros (s & Hrun & Hno). apply Hno.
  assert (Hs : s = final_state (run_fresh (W := duplicate_world) (disk_config 3))).
  { rewrite Hrun. reflexivity. }
  subst s. unfold geometric_work.
  exists "Component 0", "h1", "Component 0", "h2", 0%nat, 0%nat, (Num 1).
  vm_compute. auto.
Qed.

(** ** Instances of the general results *)


Lemma completed_run_matches_twin :
  exists ln lh q, Dict.get "h2" twin_matched = Some (MatchTuple ln lh q).
Proof.
  apply (completed_run_matches_every_component (W := twin_world) (disk_config 3)
           twin_matched twin_final "Component 1" "h2").
  - vm_compute; reflexivity.
  - vm_compute; auto.
Defined.

Lemma single_pass_hash_resolution_crossed :
  (forall fh v, Dict.get fh crossed_matched = Some v -> exists n lh q, v = MatchTuple n lh q) /\
  forall pre name h post B,
    Dict.items (full_components crossed_final) = pre ++ (name, h) :: post ->
    Dict.get h (lod_index (W := crossed_world) (disk_config 3)) = Some B ->
    (exists q n, Dict.get h crossed_matched = Some (MatchTuple B h q) /\
                 In (ByHashLine name h B n q) (stdout crossed_final) /\
                 forall fn ln lh v c q',
                   ~ In (ByGeoLine fn h ln lh v c q') (stdout crossed_final))
    \/
    ((exists h' q, In h' (map snd pre) /\ h' <> h /\
                   Dict.get h' crossed_matched = Some (MatchTuple B h q)) /\
     exists ln lh q' v c,
       lh <> h /\ Dict.get h crossed_matched = Some (MatchTuple ln lh q') /\
       In (ByGeoLine name h ln lh v c q') (stdout crossed_final)).
Proof.
  apply (single_pass_hash_resolution (W := crossed_world) (disk_config 3)
           crossed_matched crossed_final).
  vm_compute; reflexivity.
Defined.

Lemma duplicate_hash_raises_in_duplicate_world :
  (forall m s', run_fresh (W := duplicate_world) (disk_config 3) <> Return m s') /\
  (forall s1,
     match_loop (W := duplicate_world) (disk_config 3) [("Component 0", "h1")]
                duplicate_loaded = Return tt s1 ->
     run_fresh (W := duplicate_world) (disk_config 3) = Raised (ValueError "h1") s1).
Proof.
  apply (duplicate_hash_raises_at_later_holder (W := duplicate_world) (disk_config 3)
           duplicate_loaded [("Component 0", "h1")] "Component 1" "h1" []).
  - vm_compute; reflexivity.
  - vm_compute; reflexivity.
  - simpl; auto.
Defined.

Lemma fine_winner_in_prefilter_graded :
  exists pre s1 s2,
    prefilter (W := graded_world) (disk_config 1) "full/Component 0.vb" graded_loaded
    = Return pre s1 /\
    fine_match (W := graded_world) (disk_config 1) "full/Component 0.vb" pre s1
    = Return ("h3", Num (9 # 10)) s2 /\
    In "h3" pre /\
    incl pre (Dict.keys (lod_hash_to_name graded_loaded)) /\
    ((0 <= 1)%Z -> (Z.of_nat (List.length pre) <= 1)%Z).
Proof.
  apply (fine_winner_in_prefilter (W := graded_world) (disk_config 1)
           "Component 0" "h1" "full/Component 0.vb" graded_loaded
           ("Component 1", "h3", Num (9 # 10))
           (final_state (geometric_search (W := graded_world) (disk_config 1)
                           "Component 0" "h1" "full/Component 0.vb" graded_loaded))).
  vm_compute; reflexivity.
Defined.

Lemma remap_stored_twin :
  exists name fm lm vg,
    In (name, "h1") (Dict.items (full_components twin_final)) /\
    Dict.get name (full_meshes twin_final) = Some fm /\
    Dict.get "Component 0" (lod_meshes twin_final) = Some lm /\
    match_vertex_groups twin_world 3 fm lm = Ok vg /\
    ((exists k v, In (k, v) vg /\ k <> v) <->
     Dict.get "h1" (vg_maps twin_final) = Some ("h1", vg)) /\
    ((forall k v, In (k, v) vg -> k = v) <-> Dict.get "h1" (vg_maps twin_final) = None).
Proof.
  apply (remap_stored_iff_not_identity (W := twin_world) (disk_config 3)
           twin_matched twin_final "h1" "Component 0" "h1" (Num 1)).
  - vm_compute; reflexivity.
  - vm_compute; reflexivity.
Defined.

(** * Further properties of the loaders and of the matcher *)

(** ** Names, tables and rankings *)

Lemma to_uint_not_Nil n : Nat.to_uint n <> Decimal.Nil.
Proof.
  intros H. assert (Hn : n = 0%nat).
  { rewrite <- (DecimalNat.Unsigned.of_to n), H. reflexivity. }
  subst n. discriminate H.
Qed.

Lemma str_of_nat_inj n m : str_of_nat n = str_of_nat m -> n = m.
Proof.
  unfold str_of_nat. intros H.
  apply DecimalNat.Unsigned.to_uint_inj.
  pose proof (NilZero.usu _ (to_uint_not_Nil n)) as Hn.
  pose proof (NilZero.usu _ (to_uint_not_Nil m)) as Hm.
  rewrite H in Hn. congruence.
Qed.

Lemma append_inj_r (p a b : string) : (p ++ a = p ++ b)%string -> a = b.
Proof.
  induction p as [|c p IH]; simpl; auto. intros H. inversion H. auto.
Qed.

Lemma component_name_inj path object_id i j :
  component_name path object_id i = component_name path object_id j -> i = j.
Proof.
  unfold component_name. destruct path; intros H.
  - apply append_inj_r in H. now apply str_of_nat_inj.
  - apply append_inj_r in H. apply append_inj_r in H. now apply str_of_nat_inj.
Qed.

Lemma of_items_app {V} (l : list (string * V)) : forall acc,
  NoDup (Dict.keys acc ++ map fst l) ->
  fold_left (fun d kv => Dict.set (fst kv) (snd kv) d) l acc = acc ++ l.
Proof.
  induction l as [|[k v] l IH]; intros acc Hnd; simpl.
  - now rewrite app_nil_r.
  - simpl in Hnd. pose proof (NoDup_remove_2 _ _ _ Hnd) as Hk.
    rewrite DictFacts.set_notin.
    + rewrite IH.
      * now rewrite <- app_assoc.
      * unfold Dict.keys. rewrite map_app. simpl. rewrite <- app_assoc. exact Hnd.
    + apply DictFacts.get_None_notin. intros Hin. apply Hk.
      apply in_or_app. now left.
Qed.

Lemma of_items_NoDup {V} (l : list (string * V)) :
  NoDup (map fst l) -> Dict.of_items l = l.
Proof. intros H. unfold Dict.of_items. now rewrite of_items_app. Qed.

Lemma in_enumerate_from {A} (l : list A) : forall i j x,
  In (j, x) (enumerate_from i l) -> (i <= j)%nat /\ nth_error l (j - i) = Some x.
Proof.
  induction l as [|y l IH]; intros i j x; simpl; [tauto|].
  intros [Heq | Hin].
  - inversion Heq; subst. rewrite Nat.sub_diag. auto.
  - apply IH in Hin. destruct Hin as [Hle Hnth]. split; [lia|].
    replace (j - i)%nat with (S (j - S i)) by lia. exact Hnth.
Qed.

Lemma NoDup_enumerate_names {A} (name : nat -> string) (l : list A) :
  (forall i j, name i = name j -> i = j) ->
  forall i, NoDup (map (fun ic => name (fst ic)) (enumerate_from i l)).
Proof.
  intros Hinj. induction l as [|y l IH]; intros i; simpl; constructor; auto.
  intros Hin. apply in_map_iff in Hin. destruct Hin as ([j x] & Hname & Hin).
  simpl in Hname. apply Hinj in Hname. subst j.
  apply in_enumerate_from in Hin. lia.
Qed.

Lemma map_snd_enumerate_from {A} (f : nat -> string) (l : list A) : forall i,
  map snd (map (fun ic => (f (fst ic), snd ic)) (enumerate_from i l)) = l.
Proof. induction l as [|y l IH]; intros i; simpl; [reflexivity | now rewrite IH]. Qed.

Lemma get_enumerate_from {A} (name : nat -> string) (l : list A) :
  (forall i j, name i = name j -> i = j) ->
  forall i k,
    Dict.get (name (i + k)%nat)
             (map (fun ic => (name (fst ic), snd ic)) (enumerate_from i l))
    = nth_error l k.
Proof.
  intros Hinj. induction l as [|y l IH]; intros i k; simpl.
  - now destruct k.
  - destruct k as [|k]; simpl.
    + rewrite Nat.add_0_r, String.eqb_refl. reflexivity.
    + destruct (String.eqb (name (i + S k)%nat) (name i)) eqn:E.
      * apply String.eqb_eq in E. apply Hinj in E. lia.
      * replace (i + S k)%nat with (S i + k)%nat by lia. apply IH.
Qed.

Lemma get_of_items_rev {V} (l : list (string * V)) : forall acc h,
  Dict.get h (fold_left (fun d kv => Dict.set (fst kv) (snd kv) d) l acc)
  = match Dict.get h (rev l) with Some v => Some v | None => Dict.get h acc end.
Proof.
  induction l as [|[k v] l IH]; intros acc h; simpl; [reflexivity|].
  rewrite IH. destruct (Dict.get h (rev l)) as [x|] eqn:E.
  - now rewrite (get_app_l _ _ _ _ E).
  - rewrite (get_app_r _ _ _ E). simpl.
    destruct (String.eqb h k) eqn:Ek.
    + apply String.eqb_eq in Ek. subst. apply DictFacts.get_set_eq.
    + apply String.eqb_neq in Ek. apply DictFacts.get_set_neq. congruence.
Qed.

Lemma get_split {V} h v (d : Dict.t V) :
  Dict.get h d = Some v ->
  exists d1 d2, d = d1 ++ (h, v) :: d2 /\ ~ In h (map fst d1).
Proof.
  induction d as [|[k x] d IH]; simpl; [discriminate|].
  destruct (String.eqb h k) eqn:E.
  - apply String.eqb_eq in E. subst k. intros H. inversion H; subst.
    exists [], d. simpl. auto.
  - apply String.eqb_neq in E. intros H.
    destruct (IH H) as (d1 & d2 & -> & Hn).
    exists ((k, x) :: d1), d2. split; auto. simpl. intros [Hk | Hin]; auto.
Qed.

(** The value [dict(items)] holds for a key is the one of its last item. *)
Lemma get_of_items_last {V} h v (l : list (string * V)) :
  Dict.get h (Dict.of_items l) = Some v ->
  exists l1 l2, l = l1 ++ (h, v) :: l2 /\ ~ In h (map fst l2).
Proof.
  unfold Dict.of_items. rewrite get_of_items_rev. simpl.
  destruct (Dict.get h (rev l)) as [x|] eqn:E; [|discriminate].
  intros H. inversion H; subst x.
  apply get_split in E. destruct E as (d1 & d2 & Hrev & Hn).
  exists (rev d2), (rev d1). split.
  - rewrite <- (rev_involutive l), Hrev, rev_app_distr. simpl.
    now rewrite <- app_assoc.
  - rewrite map_rev. intros Hin. apply in_rev in Hin. tauto.
Qed.

Section LoaderFacts.
Context {W : World}.

Lemma load_component_hashes_Return path json_str object_id (s : State (Mesh W)) d s' :
  _load_component_hashes path json_str object_id s = Return d s' ->
  s' = s /\
  exists hashes,
    descriptor_of (W := W) path json_str = Ok hashes /\
    map snd (Dict.items d) = hashes /\
    NoDup (Dict.keys d) /\
    forall i, Dict.get (component_name path object_id i) d = nth_error hashes i.
Proof.
  unfold _load_component_hashes, descriptor_of. intros H.
  assert (Hgen : forall hashes : list string,
    let l := map (fun ic : nat * string =>
                    (component_name path object_id (fst ic), snd ic))
                 (enumerate hashes) in
    Dict.of_items l = l /\ map snd l = hashes /\ NoDup (map fst l) /\
    forall i, Dict.get (component_name path object_id i) l = nth_error hashes i).
  { intros hashes l.
    assert (Hnd : NoDup (map fst l)).
    { unfold l. rewrite map_map. simpl.
      apply NoDup_enumerate_names. apply component_name_inj. }
    split; [now apply of_items_NoDup|]. split; [apply map_snd_enumerate_from|].
    split; auto. intros i.
    apply (get_enumerate_from (component_name path object_id) hashes
             (component_name_inj path object_id) 0 i). }
  assert (Hd : exists hashes,
    descriptor_of (W := W) path json_str = Ok hashes /\ s' = s /\
    d = Dict.of_items
          (map (fun ic : nat * string =>
                  (component_name path object_id (fst ic), snd ic))
               (enumerate hashes))).
  { unfold descriptor_of. destruct path as [p|];
      bind_inv H; apply lift_Return in H0; destruct H0 as [-> Hd];
      unfold ret in H; injection H as H1 H2; exists a;
      (split; [exact Hd | split; [symmetry; exact H2 | symmetry; exact H1]]). }
  destruct Hd as (hashes & Hdesc & -> & ->).
  split; auto. exists hashes. split; [exact Hdesc|].
  destruct (Hgen hashes) as (Heq & Hsnd & Hnd & Hget).
  rewrite Heq. unfold Dict.items, Dict.keys. auto.
Qed.

(** X1. [_load_component_hashes] returns, without touching the instance,
    a table that lists the descriptor's hashes in their order, the [i]-th
    one under the name of component [i] and nothing under any further
    index. *)
Theorem load_component_hashes_table path json_str object_id (s : State (Mesh W)) d s' :
  _load_component_hashes path json_str object_id s = Return d s' ->
  s' = s /\
  exists hashes,
    descriptor_of (W := W) path json_str = Ok hashes /\
    map snd (Dict.items d) = hashes /\
    NoDup (Dict.keys d) /\
    forall i, Dict.get (component_name path object_id i) d = nth_error hashes i.
Proof. apply load_component_hashes_Return. Qed.

End LoaderFacts.

Lemma get_of_split {V} (l1 l2 : list (string * V)) k v :
  NoDup (map fst (l1 ++ (k, v) :: l2)) -> Dict.get k (l1 ++ (k, v) :: l2) = Some v.
Proof.
  intros Hnd. rewrite map_app in Hnd. simpl in Hnd.
  apply NoDup_remove_2 in Hnd.
  rewrite get_app_r.
  - simpl. now rewrite String.eqb_refl.
  - apply DictFacts.get_None_notin. intros Hin. apply Hnd. apply in_or_app. now left.
Qed.

Section MetadataFacts.
Context {W : World}.
Variable self : Config (ComponentData W).

Lemma load_metadata_Return (s s' : State (Mesh W)) :
  load_metadata self s = Return tt s' ->
  NoDup (Dict.keys (lod_components s)) ->
  NoDup (Dict.keys (lod_components s')) /\
  lod_hash_to_name s' =
  Dict.of_items (map (fun nh => (snd nh, fst nh)) (Dict.items (lod_components s'))).
Proof.
  unfold load_metadata. intros H Hnd.
  apply bind_Return in H. destruct H as (fc & s1 & Hfc & H).
  apply load_component_hashes_Return in Hfc. destruct Hfc as (-> & _).
  apply bind_Return in H. destruct H as ([] & s2 & Hmod & H).
  unfold modify in Hmod. injection Hmod as <-.
  apply bind_Return in H. destruct H as ([] & s3 & Hdisk & H).
  apply bind_Return in H. destruct H as ([] & s4 & Hobj & H).
  unfold modify in H. injection H as <-. simpl.
  assert (H3 : NoDup (Dict.keys (lod_components s3))).
  { destruct (lod_model_path self) as [p|].
    - apply bind_Return in Hdisk. destruct Hdisk as (lc & s2' & Hlc & Hset).
      apply load_component_hashes_Return in Hlc.
      destruct Hlc as (-> & hashes & _ & _ & Hlcnd & _).
      unfold modify in Hset. injection Hset as <-. exact Hlcnd.
    - unfold ret in Hdisk. injection Hdisk as <-. exact Hnd. }
  split; [|reflexivity].
  destruct (lod_objects self) as [objs|].
  - clear Hdisk. revert s3 H3 Hobj. unfold Dict.items.
    induction objs as [|o objs IH]; intros s3 H3 Hobj; cbn [for_each] in Hobj.
    + unfold ret in Hobj. injection Hobj as <-. exact H3.
    + apply bind_Return in Hobj. destruct Hobj as ([] & s5 & Hbody & Hrest).
      apply (IH s5); auto.
      apply bind_Return in Hbody. destruct Hbody as (d & s3' & Hd & Hset).
      apply load_component_hashes_Return in Hd. destruct Hd as (-> & _).
      unfold modify in Hset. injection Hset as <-. simpl.
      unfold Dict.update. now apply DictFacts.NoDup_keys_fold_set.
  - unfold ret in Hobj. injection Hobj as <-. exact H3.
Qed.

(** X2. After [load_metadata] on a fresh instance the LOD hash index
    inverts [lod_components]: its keys are distinct, an indexed hash maps
    to a component that carries it, namely the last one that does, and
    every hash of a LOD component is indexed. *)
Theorem lod_index_inverts_lod_components (s' : State (Mesh W)) :
  load_metadata self (post_init self) = Return tt s' ->
  NoDup (Dict.keys (lod_hash_to_name s')) /\
  (forall h n,
     Dict.get h (lod_hash_to_name s') = Some n ->
     Dict.get n (lod_components s') = Some h /\
     exists l1 l2,
       Dict.items (lod_components s') = l1 ++ (n, h) :: l2 /\ ~ In h (map snd l2)) /\
  (forall n h,
     Dict.get n (lod_components s') = Some h ->
     exists n', Dict.get h (lod_hash_to_name s') = Some n').
Proof.
  intros H. apply load_metadata_Return in H; [|constructor].
  destruct H as (Hnd & ->). split; [apply DictFacts.NoDup_keys_of_items|]. split.
  - intros h n Hget. apply get_of_items_last in Hget.
    destruct Hget as (m1 & m2 & Heq & Hlast).
    assert (Hsplit : exists l1 l2,
              Dict.items (lod_components s') = l1 ++ (n, h) :: l2 /\
              ~ In h (map snd l2)).
    { revert m1 Heq. generalize (Dict.items (lod_components s')).
      intros l m1. revert l. induction m1 as [|x m1 IH]; intros l Heq.
      - destruct l as [|[n0 h0] l]; [discriminate|]. simpl in Heq.
        injection Heq as <- <- Hm2. exists [], l. split; auto.
        rewrite <- Hm2, map_map in Hlast. simpl in Hlast.
        intros Hin. apply Hlast. exact Hin.
      - destruct l as [|y l]; [discriminate|]. simpl in Heq.
        injection Heq as Hx Hrest. destruct (IH _ Hrest) as (l1 & l2 & -> & Hn).
        exists (y :: l1), l2. auto. }
    split; auto. destruct Hsplit as (l1 & l2 & Heq' & _).
    unfold Dict.items in Heq'. rewrite Heq'. apply get_of_split.
    rewrite <- Heq'. exact Hnd.
  - intros n h Hget. apply DictFacts.in_keys_get.
    apply DictFacts.in_keys_of_items. rewrite map_map. simpl.
    apply get_Some_In_items in Hget.
    apply in_map_iff. exists (n, h). auto.
Qed.

End MetadataFacts.

(** ** Mesh loading *)

Section MeshFacts.
Context {W : World}.
Variable self : Config (ComponentData W).

Lemma load_meshes_unfold (s : State (Mesh W)) :
  load_meshes self s =
  bind get_state (fun s0 =>
    bind (comprehension (Dict.keys (full_components s0))
            (fun name =>
               bind (lift (from_paths W (full_mesh_path self name)))
                    (fun mesh => ret (name, mesh))) [])
         (fun fm => bind (modify (set_full_meshes fm))
                         (fun _ => load_lod_meshes self))) s.
Proof. reflexivity. Qed.

Lemma load_object_meshes_Return object_id comps (s : State (Mesh W)) :
  exists s',
    load_object_meshes object_id comps s = Return tt s' /\
    (forall i c, nth_error comps i = Some c ->
       Dict.get (component_name None object_id i) (lod_meshes s')
       = Some (loaded_or_absent c)) /\
    (forall k, (forall i, (i < List.length comps)%nat ->
                          k <> component_name None object_id i) ->
       Dict.get k (lod_meshes s') = Dict.get k (lod_meshes s)) /\
    stdout s' = stdout s ++ failed_lines object_id 0 comps /\
    s' = set_stdout (stdout s') (set_lod_meshes (lod_meshes s') s).
Proof.
  unfold load_object_meshes, enumerate.
  assert (Hgen : forall comps i (s : State (Mesh W)),
    exists s',
      for_each (enumerate_from i comps) (fun ic =>
        let name := (object_id ++ " - Component " ++ str_of_nat (fst ic))%string in
        match from_bytes W (snd ic) with
        | Ok mesh =>
            modify (fun s => set_lod_meshes (Dict.set name (Some mesh) (lod_meshes s)) s)
        | Err _ =>
            bind (print (FailedToLoadLine name (ib_source_path W (snd ic))))
                 (fun _ => modify (fun s =>
                    set_lod_meshes (Dict.set name None (lod_meshes s)) s))
        end) s = Return tt s' /\
      (forall k c, nth_error comps k = Some c ->
         Dict.get (component_name None object_id (i + k)) (lod_meshes s')
         = Some (loaded_or_absent c)) /\
      (forall key, (forall k, (k < List.length comps)%nat ->
                              key <> component_name None object_id (i + k)) ->
         Dict.get key (lod_meshes s') = Dict.get key (lod_meshes s)) /\
      stdout s' = stdout s ++ failed_lines object_id i comps /\
      s' = set_stdout (stdout s') (set_lod_meshes (lod_meshes s') s)).
  { clear comps s. induction comps as [|c comps IH]; intros i s.
    - exists s. simpl. split; [reflexivity|]. split; [intros [|k] c H; discriminate|].
      split; [reflexivity|]. split; [now rewrite app_nil_r | now destruct s].
    - cbn [enumerate_from for_each fst snd failed_lines].
      set (name := component_name None object_id i).
      set (s1 := match from_bytes W c with
                 | Ok mesh => set_lod_meshes (Dict.set name (Some mesh) (lod_meshes s)) s
                 | Err _ =>
                     set_lod_meshes (Dict.set name None (lod_meshes s))
                       (set_stdout (stdout s ++ [FailedToLoadLine name (ib_source_path W c)]) s)
                 end).
      destruct (IH (S i) s1) as (s' & Hrun & Hget & Hframe & Hout & Hs').
      exists s'. split.
      { unfold bind at 1. unfold s1 in Hrun. unfold name in Hrun.
        destruct (from_bytes W c); exact Hrun. }
      assert (Hname : Dict.get name (lod_meshes s1) = Some (loaded_or_absent c)).
      { unfold s1, loaded_or_absent. destruct (from_bytes W c); simpl;
          apply DictFacts.get_set_eq. }
      split.
      { intros [|k] c' Hnth; simpl in Hnth.
        - injection Hnth as <-. rewrite Nat.add_0_r. fold name.
          rewrite Hframe; auto.
          intros k Hk Heq. apply component_name_inj in Heq. lia.
        - replace (i + S k)%nat with (S i + k)%nat by lia. now apply Hget. }
      split.
      { intros key Hkey. rewrite Hframe.
        - assert (Hne : name <> key).
          { intros <-. apply (Hkey 0%nat); [simpl; lia|].
            now rewrite Nat.add_0_r. }
          unfold s1. destruct (from_bytes W c); simpl;
            now apply DictFacts.get_set_neq.
        - intros k Hk. replace (S i + k)%nat with (i + S k)%nat by lia.
          apply Hkey. simpl. lia. }
      split.
      { rewrite Hout. unfold s1. destruct (from_bytes W c); simpl; auto.
        now rewrite <- app_assoc. }
      rewrite Hs' at 1. unfold s1. destruct (from_bytes W c); reflexivity. }
  destruct (Hgen comps 0%nat s) as (s' & H1 & H2 & H3 & H4 & H5).
  exists s'. auto.
Qed.

(** X3. The loop over the components of one in-memory object never raises.
    It leaves under each component's name its mesh, or [None] exactly when
    its bytes failed to load, prints one line per failure, and changes no
    other entry of [lod_meshes] and no other part of the instance. *)
Theorem load_object_meshes_records object_id comps (s : State (Mesh W)) :
  exists s',
    load_object_meshes object_id comps s = Return tt s' /\
    (forall i c, nth_error comps i = Some c ->
       Dict.get (component_name None object_id i) (lod_meshes s')
       = Some (loaded_or_absent c)) /\
    (forall k, (forall i, (i < List.length comps)%nat ->
                          k <> component_name None object_id i) ->
       Dict.get k (lod_meshes s') = Dict.get k (lod_meshes s)) /\
    stdout s' = stdout s ++ failed_lines object_id 0 comps /\
    s' = set_stdout (stdout s') (set_lod_meshes (lod_meshes s') s).
Proof. apply load_object_meshes_Return. Qed.

Lemma mesh_comprehension_Return {V} (f : string -> result (Mesh W)) (g : Mesh W -> V)
      l : forall acc (s : State (Mesh W)) d s',
  comprehension l (fun name => bind (lift (f name)) (fun mesh => ret (name, g mesh)))
                acc s = Return d s' ->
  s' = s /\
  (forall name, In name l ->
     exists mesh, f name = Ok mesh /\ Dict.get name d = Some (g mesh)) /\
  (forall k, ~ In k l -> Dict.get k d = Dict.get k acc) /\
  (NoDup (Dict.keys acc ++ l) -> Dict.keys d = Dict.keys acc ++ l).
Proof.
  induction l as [|x l IH]; intros acc s d s' H; cbn [comprehension] in H.
  - unfold ret in H. injection H as <- <-. repeat split; auto.
    + intros name [].
    + intros _. now rewrite app_nil_r.
  - apply bind_Return in H. destruct H as (kv & s1 & Hkv & H).
    apply bind_Return in Hkv. destruct Hkv as (mesh & s2 & Hmesh & Hret).
    apply lift_Return in Hmesh. destruct Hmesh as [-> Hf].
    unfold ret in Hret. injection Hret as <- <-. simpl in H.
    apply IH in H. destruct H as (-> & Hin & Hout & Hkeys).
    split; auto. split; [|split].
    + intros name [<- | Hname].
      * destruct (in_dec string_dec x l) as [Hx | Hx].
        -- destruct (Hin _ Hx) as (m & Hm & Hget).
           exists m. split; auto.
        -- exists mesh. split; auto. rewrite Hout; auto.
           apply DictFacts.get_set_eq.
      * now apply Hin.
    + intros k Hk. simpl in Hk. rewrite Hout by tauto.
      apply DictFacts.get_set_neq. intros ->. tauto.
    + intros Hnd. rewrite Hkeys.
      * rewrite DictFacts.keys_set.
        pose proof (NoDup_remove_2 _ _ _ Hnd) as Hx.
        destruct (Dict.mem x acc) eqn:E.
        -- apply DictFacts.mem_true_iff in E. exfalso. apply Hx.
           apply in_or_app. now left.
        -- now rewrite <- app_assoc.
      * rewrite DictFacts.keys_set.
        pose proof (NoDup_remove_2 _ _ _ Hnd) as Hx.
        destruct (Dict.mem x acc) eqn:E.
        -- apply DictFacts.mem_true_iff in E. exfalso. apply Hx.
           apply in_or_app. now left.
        -- rewrite <- app_assoc. exact Hnd.
Qed.

Lemma mesh_comprehension_total {V} (f : string -> result (Mesh W)) (g : Mesh W -> V)
      l : forall acc (s : State (Mesh W)),
  (forall name, In name l -> exists mesh, f name = Ok mesh) ->
  exists d,
    comprehension l (fun name => bind (lift (f name)) (fun mesh => ret (name, g mesh)))
                  acc s = Return d s.
Proof.
  induction l as [|x l IH]; intros acc s Hok; cbn [comprehension].
  - exists acc. reflexivity.
  - destruct (Hok x (or_introl eq_refl)) as (mesh & Hf).
    destruct (IH (Dict.set x (g mesh) acc) s) as (d & Hd).
    { intros name Hin. apply Hok. now right. }
    exists d. unfold bind at 1. unfold bind at 1. rewrite Hf. simpl. exact Hd.
Qed.

Lemma mesh_comprehension_Raised {V} (f : string -> result (Mesh W)) (g : Mesh W -> V)
      l1 name l2 e : forall acc (s : State (Mesh W)),
  (forall n, In n l1 -> exists mesh, f n = Ok mesh) ->
  f name = Err e ->
  comprehension (l1 ++ name :: l2)
                (fun name => bind (lift (f name)) (fun mesh => ret (name, g mesh)))
                acc s = Raised e s.
Proof.
  induction l1 as [|x l1 IH]; intros acc s Hok Herr; cbn [comprehension app].
  - unfold bind at 1. unfold bind at 1. rewrite Herr. reflexivity.
  - destruct (Hok x (or_introl eq_refl)) as (mesh & Hf).
    unfold bind at 1. unfold bind at 1. rewrite Hf. simpl.
    apply IH; auto. intros n Hin. apply Hok. now right.
Qed.

Lemma for_each_total {A} (body : A -> Eff (Mesh W) unit) l :
  (forall x s, exists s', body x s = Return tt s') ->
  forall s, exists s', for_each l body s = Return tt s'.
Proof.
  intros Hb. induction l as [|x l IH]; intros s; cbn [for_each].
  - exists s. reflexivity.
  - destruct (Hb x s) as (s1 & H1). destruct (IH s1) as (s' & H').
    exists s'. unfold bind. now rewrite H1.
Qed.

(** X4. Without an on-disk LOD model, [load_meshes] returns normally as
    soon as every full component's mesh loads: no failure to load the bytes
    of an in-memory LOD component makes it raise. *)
Theorem load_meshes_tolerates_failed_bytes (s : State (Mesh W)) :
  lod_model_path self = None ->
  (forall name, In name (Dict.keys (full_components s)) ->
     exists mesh, from_paths W (full_mesh_path self name) = Ok mesh) ->
  exists s', load_meshes self s = Return tt s'.
Proof.
  intros Hnone Hfull. rewrite load_meshes_unfold.
  unfold bind at 1. simpl.
  destruct (mesh_comprehension_total (fun name => from_paths W (full_mesh_path self name))
              (fun m => m) (Dict.keys (full_components s)) [] s Hfull) as (fm & Hfm).
  unfold bind at 1. rewrite Hfm. unfold bind at 1. simpl.
  unfold load_lod_meshes. rewrite Hnone. unfold bind at 1. simpl.
  destruct (lod_objects self) as [objs|]; [|eexists; reflexivity].
  apply for_each_total. intros o s1.
  destruct (load_object_meshes_Return (fst o) (components (snd o)) s1) as (s' & H & _).
  eauto.
Qed.

(** X5. A full component whose mesh fails to load is fatal: [load_meshes]
    raises the loader's error at the first such component and leaves the
    instance as it was, [full_meshes] included. *)
Theorem load_meshes_full_failure_is_fatal (s : State (Mesh W)) l1 name l2 e :
  Dict.keys (full_components s) = l1 ++ name :: l2 ->
  (forall n, In n l1 -> exists mesh, from_paths W (full_mesh_path self n) = Ok mesh) ->
  from_paths W (full_mesh_path self name) = Err e ->
  load_meshes self s = Raised e s.
Proof.
  intros Hkeys Hok Herr. rewrite load_meshes_unfold.
  unfold bind at 1. simpl. rewrite Hkeys.
  unfold bind at 1.
  rewrite (mesh_comprehension_Raised (fun n => from_paths W (full_mesh_path self n))
             (fun m => m) l1 name l2 e [] s Hok Herr).
  reflexivity.
Qed.

End MeshFacts.

Section LoadFacts.
Context {W : World}.
Variable self : Config (ComponentData W).
Variable P : State (Mesh W) -> Prop.

Lemma preserves_any_load_hashes path json_str object_id :
  preserves P (@_load_component_hashes W path json_str object_id).
Proof.
  unfold _load_component_hashes. destruct path;
    (apply preserves_bind; [apply preserves_lift | intros; apply preserves_ret]).
Qed.

Hypothesis P_lod_meshes : forall d s, P s -> P (set_lod_meshes d s).
Hypothesis P_stdout : forall l s, P s -> P (set_stdout l s).

Lemma preserves_load_object_meshes object_id comps :
  preserves P (load_object_meshes (W := W) object_id comps).
Proof.
  unfold load_object_meshes. apply preserves_for_each. intros ic.
  cbv zeta. destruct (from_bytes W (snd ic)).
  - apply preserves_modify. intros s H. now apply P_lod_meshes.
  - apply preserves_bind.
    + apply preserves_modify. intros s H. now apply P_stdout.
    + intros _. apply preserves_modify. intros s H. now apply P_lod_meshes.
Qed.

Lemma preserves_load_lod_meshes : preserves P (load_lod_meshes self).
Proof.
  unfold load_lod_meshes. apply preserves_bind.
  - destruct (lod_model_path self); [|apply preserves_ret].
    apply preserves_bind; [apply preserves_get_state | intros s1].
    apply preserves_bind.
    + apply preserves_comprehension. intros name.
      apply preserves_bind; [apply preserves_lift | intros; apply preserves_ret].
    + intros lm. apply preserves_modify. intros s H. now apply P_lod_meshes.
  - intros _. destruct (lod_objects self); [|apply preserves_ret].
    apply preserves_for_each. intros o. apply preserves_load_object_meshes.
Qed.

End LoadFacts.

Section LoadedFacts.
Context {W : World}.
Variable self : Config (ComponentData W).

(** [load_metadata] sets [full_components] to the table of the full
    model's descriptor and leaves the meshes, the matches and the output
    alone. *)
Lemma load_metadata_full (s s' : State (Mesh W)) :
  load_metadata self s = Return tt s' ->
  exists hashes,
    read_metadata W (path_join (full_model_path self) "Metadata.json") = Ok hashes /\
    map snd (Dict.items (full_components s')) = hashes /\
    NoDup (Dict.keys (full_components s')) /\
    (forall i, Dict.get (component_name (Some (full_model_path self)) "" i)
                        (full_components s') = nth_error hashes i) /\
    full_meshes s' = full_meshes s /\ lod_meshes s' = lod_meshes s /\
    matched s' = matched s /\ vg_maps s' = vg_maps s /\ stdout s' = stdout s /\
    geo_matcher s' = geo_matcher s.
Proof.
  unfold load_metadata. intros H.
  apply bind_Return in H. destruct H as (fc & s1 & Hfc & H).
  apply load_component_hashes_Return in Hfc.
  destruct Hfc as (-> & hashes & Hdesc & Hsnd & Hnd & Hget).
  apply bind_Return in H. destruct H as ([] & s2 & Hmod & H).
  unfold modify in Hmod. injection Hmod as <-.
  apply bind_Return in H. destruct H as ([] & s3 & Hdisk & H).
  apply bind_Return in H. destruct H as ([] & s4 & Hobj & H).
  unfold modify in H. injection H as <-. simpl.
  set (Q := fun t : State (Mesh W) =>
              full_components t = fc /\ full_meshes t = full_meshes s /\
              lod_meshes t = lod_meshes s /\ matched t = matched s /\
              vg_maps t = vg_maps s /\ stdout t = stdout s /\
              geo_matcher t = geo_matcher s).
  assert (Q2 : Q (set_full_components fc s)) by (repeat split).
  assert (Q3 : Q s3).
  { assert (Hp : preserves Q
       (match lod_model_path self with
        | Some p => bind (_load_component_hashes (Some p) "" "")
                         (fun lc => modify (set_lod_components lc))
        | None => ret tt
        end)).
    { destruct (lod_model_path self); [|apply preserves_ret].
      apply preserves_bind; [apply preserves_any_load_hashes | intros lc].
      apply preserves_modify. intros t Ht. exact Ht. }
    specialize (Hp _ Q2). rewrite Hdisk in Hp. exact Hp. }
  assert (Q4 : Q s4).
  { assert (Hp : preserves Q
       (match lod_objects self with
        | Some objs =>
            for_each (Dict.items objs) (fun o =>
              bind (_load_component_hashes None (metadata (snd o)) (fst o))
                   (fun d => modify (fun s =>
                      set_lod_components (Dict.update (lod_components s) d) s)))
        | None => ret tt
        end)).
    { destruct (lod_objects self) as [objs|]; [|apply preserves_ret].
      apply preserves_for_each. intros o.
      apply preserves_bind; [apply preserves_any_load_hashes | intros d].
      apply preserves_modify. intros st Hst. exact Hst. }
    specialize (Hp _ Q3). rewrite Hobj in Hp. exact Hp. }
  destruct Q4 as (H1 & H2 & H3 & H4 & H5 & H6 & H7).
  exists hashes. rewrite H1.
  split; [exact Hdesc|]. split; [exact Hsnd|]. split; [exact Hnd|].
  split; [exact Hget|]. repeat split; assumption.
Qed.

(** The full model as loaded: one mesh per component, under its name. *)
Lemma load_full_model s0 :
  load self = Return tt s0 ->
  exists hashes,
    read_metadata W (path_join (full_model_path self) "Metadata.json") = Ok hashes /\
    map snd (Dict.items (full_components s0)) = hashes /\
    NoDup (Dict.keys (full_components s0)) /\
    Dict.keys (full_meshes s0) = Dict.keys (full_components s0) /\
    forall i h,
      nth_error hashes i = Some h ->
      let name := component_name (Some (full_model_path self)) "" i in
      Dict.get name (full_components s0) = Some h /\
      exists mesh,
        Dict.get name (full_meshes s0) = Some mesh /\
        from_paths W (full_mesh_path self name) = Ok mesh.
Proof.
  unfold load. intros H.
  apply bind_Return in H. destruct H as ([] & s1 & Hmeta & Hmesh).
  apply load_metadata_full in Hmeta.
  destruct Hmeta as (hashes & Hdesc & Hsnd & Hnd & Hget & _).
  rewrite load_meshes_unfold in Hmesh.
  apply bind_Return in Hmesh. destruct Hmesh as (st & st' & Hst & Hmesh).
  apply get_state_Return in Hst. destruct Hst; subst st st'.
  apply bind_Return in Hmesh. destruct Hmesh as (fm & s2 & Hfm & Hmesh).
  apply (mesh_comprehension_Return
           (fun name => from_paths W (full_mesh_path self name)) (fun m => m)) in Hfm.
  destruct Hfm as (-> & Hin & _ & Hkeys).
  apply bind_Return in Hmesh. destruct Hmesh as ([] & s3 & Hmod & Hlod).
  unfold modify in Hmod. injection Hmod as <-.
  assert (Hp : full_components s0 = full_components s1 /\ full_meshes s0 = fm).
  { pose proof (preserves_load_lod_meshes self
                  (fun t => full_components t = full_components s1 /\ full_meshes t = fm))
      as Hp.
    specialize (Hp (fun d t Ht => Ht) (fun l t Ht => Ht)
                   (set_full_meshes fm s1) (conj eq_refl eq_refl)).
    rewrite Hlod in Hp. exact Hp. }
  destruct Hp as (Hfc & Hfm0). rewrite Hfc, Hfm0.
  exists hashes. split; [exact Hdesc|]. split; [exact Hsnd|]. split; [exact Hnd|].
  split; [apply Hkeys; exact Hnd|].
  intros i h Hnth. cbv zeta. split.
  - now rewrite Hget.
  - destruct (Hin (component_name (Some (full_model_path self)) "" i))
      as (mesh & Hok & Hmeshget).
    + apply (DictFacts.get_Some_in _ h). now rewrite Hget.
    + exists mesh. auto.
Qed.

(** X6. After a successful load every component of the full model's
    descriptor is in [full_components] under its name with its hash, in
    descriptor order, and [full_meshes] holds under the same names, in the
    same order, the mesh read from that component's file. *)
Theorem load_completes_full_model s0 :
  load self = Return tt s0 ->
  exists hashes,
    read_metadata W (path_join (full_model_path self) "Metadata.json") = Ok hashes /\
    map snd (Dict.items (full_components s0)) = hashes /\
    NoDup (Dict.keys (full_components s0)) /\
    Dict.keys (full_meshes s0) = Dict.keys (full_components s0) /\
    forall i h,
      nth_error hashes i = Some h ->
      let name := component_name (Some (full_model_path self)) "" i in
      Dict.get name (full_components s0) = Some h /\
      exists mesh,
        Dict.get name (full_meshes s0) = Some mesh /\
        from_paths W (full_mesh_path self name) = Ok mesh.
Proof. apply load_full_model. Qed.

End LoadedFacts.

(** ** The hash shortcut *)

Lemma get_of_items_last_holder {V} h v (l1 l2 : list (string * V)) :
  ~ In h (map fst l2) -> Dict.get h (Dict.of_items (l1 ++ (h, v) :: l2)) = Some v.
Proof.
  intros Hn. unfold Dict.of_items. rewrite get_of_items_rev.
  rewrite rev_app_distr. simpl. rewrite <- app_assoc. simpl.
  rewrite get_app_r.
  - simpl. now rewrite String.eqb_refl.
  - apply DictFacts.get_None_notin. unfold Dict.keys. rewrite map_rev.
    intros Hin. apply in_rev in Hin. tauto.
Qed.

Section HashPriority.
Context {W : World}.
Variable self : Config (ComponentData W).

Lemma load_ready s0 : load self = Return tt s0 -> ready s0.
Proof.
  unfold load, bind. intros H.
  pose proof (preserves_load_metadata self _ (ready_post_init self)) as R1.
  destruct (load_metadata self (post_init self)) as [[] sa|e sa]; [|discriminate].
  pose proof (preserves_load_meshes self _ R1) as R2.
  rewrite H in R2. exact R2.
Qed.

(** The index as loaded is the inverse of [lod_components] as loaded. *)
Lemma load_lod_index s0 :
  load self = Return tt s0 ->
  lod_hash_to_name s0 =
  Dict.of_items (map (fun nh => (snd nh, fst nh)) (Dict.items (lod_components s0))).
Proof.
  unfold load. intros H.
  apply bind_Return in H. destruct H as ([] & s1 & Hmeta & Hmesh).
  apply load_metadata_Return in Hmeta; [|constructor].
  destruct Hmeta as (_ & Hidx).
  rewrite load_meshes_unfold in Hmesh.
  apply bind_Return in Hmesh. destruct Hmesh as (st & st' & Hst & Hmesh).
  apply get_state_Return in Hst. destruct Hst; subst st st'.
  apply bind_Return in Hmesh. destruct Hmesh as (fm & s2 & Hfm & Hmesh).
  apply (mesh_comprehension_Return
           (fun name => from_paths W (full_mesh_path self name)) (fun m => m)) in Hfm.
  destruct Hfm as (-> & _).
  apply bind_Return in Hmesh. destruct Hmesh as ([] & s3 & Hmod & Hlod).
  unfold modify in Hmod. injection Hmod as <-.
  pose proof (preserves_load_lod_meshes self
                (fun t => lod_hash_to_name t = lod_hash_to_name s1 /\
                          lod_components t = lod_components s1)
                (fun d t Ht => Ht) (fun l t Ht => Ht)
                (set_full_meshes fm s1) (conj eq_refl eq_refl)) as Hp.
  rewrite Hlod in Hp. destruct Hp as (-> & ->). exact Hidx.
Qed.

Lemma lod_hash_to_name_claimed_state fh ln lh sim vg line gm (s : State (Mesh W)) :
  lod_hash_to_name (claimed_state fh ln lh sim vg line gm s)
  = Dict.remove lh (lod_hash_to_name s).
Proof.
  unfold claimed_state, vgs_recorded. destruct (0 <? remapped_count vg)%nat; reflexivity.
Qed.

(** A completed loop has popped the hash of each component it processed. *)
Lemma match_loop_pops l : forall (s : State (Mesh W)) u s' h,
  match_loop self l s = Return u s' ->
  In h (map snd l) -> Dict.get h (lod_hash_to_name s') = None.
Proof.
  intros s u s' h Hloop Hin.
  apply in_map_iff in Hin. destruct Hin as ([name h'] & Heq & Hin).
  simpl in Heq. subst h'.
  destruct (in_split _ _ Hin) as (p1 & p2 & ->).
  apply match_loop_split in Hloop. destruct Hloop as (sa & sb & _ & Hstep & Hp2).
  simpl in Hstep.
  destruct (Dict.get h (lod_hash_to_name s')) as [n|] eqn:Hget; [exfalso | reflexivity].
  pose proof (match_loop_frame self _ _ _ _ Hp2) as (_ & _ & _ & _ & Hsub & _).
  apply Hsub in Hget.
  apply match_component_Return in Hstep.
  destruct Hstep as (_ & fm & ln & lh & sim & lm & vg & line & gm &
                     _ & _ & _ & _ & Hbranch & ->).
  rewrite lod_hash_to_name_claimed_state in Hget.
  destruct (string_dec lh h) as [-> | Hne].
  - rewrite DictFacts.get_remove_eq in Hget. discriminate.
  - rewrite DictFacts.get_remove_neq in Hget by exact Hne.
    destruct Hbranch as [(_ & -> & _) | (Hnone & _)]; congruence.
Qed.

(** C5, as amended.  Let [B] be the last LOD component of [lod_components]
    that carries the hash [h] of the full component [A], and let the loop
    have reached [A] with no record made so far referencing [h].  If the
    scorer returns [q] on the pair ([A], [B]) and the solver returns on it,
    the iteration of [A] returns: it records ([B], [h], [q]), pops [h],
    prints the by-hash line and leaves the matcher's settings as they were,
    whatever the scorer would do, fail or return any value, on any other
    candidate.  A run that completes returns that record, and none of its
    lines reports a geometric match for [h]. *)
Theorem hash_shortcut_priority s0 pre A h post B l1 l2 s1 fm lm q vg :
  load self = Return tt s0 ->
  Dict.items (full_components s0) = pre ++ (A, h) :: post ->
  Dict.items (lod_components s0) = l1 ++ (B, h) :: l2 ->
  ~ In h (map snd l2) ->
  match_loop self pre s0 = Return tt s1 ->
  (forall h' n q', Dict.get h' (matched s1) <> Some (MatchTuple n h q')) ->
  Dict.get A (full_meshes s0) = Some fm ->
  Dict.get B (lod_meshes s0) = Some lm ->
  calculate_similarity W (geo_matcher s1) fm lm = Ok q ->
  match_vertex_groups W (vg_matcher_candidates_count self) fm lm = Ok vg ->
  match_component self A h s1
  = Return tt (claimed_state h B h q vg
                 (ByHashLine A h B (Dict.len (Dict.remove h (lod_hash_to_name s1))) q)
                 (geo_matcher s1) s1) /\
  forall m s',
    run_fresh self = Return m s' ->
    Dict.get h m = Some (MatchTuple B h q) /\
    In (ByHashLine A h B (Dict.len (Dict.remove h (lod_hash_to_name s1))) q) (stdout s') /\
    forall fn ln lh v c q', ~ In (ByGeoLine fn h ln lh v c q') (stdout s').
Proof.
  intros Hload Hitems Hlod Hlast Hpre Hfree Hfm Hlm Hq Hvg.
  assert (Hidx : Dict.get h (lod_hash_to_name s0) = Some B).
  { rewrite (load_lod_index _ Hload). rewrite Hlod, map_app. simpl. apply get_of_items_last_holder.
    rewrite map_map. simpl. exact Hlast. }
  destruct (load_ready _ Hload) as (Hm0 & _ & Hnd0 & Hout0).
  pose proof (match_loop_fresh self _ _ _ _ Hpre) as (Hndpre & _).
  pose proof (match_loop_frame self _ _ _ _ Hpre)
    as (_ & Hfm1 & Hlm1 & _ & _ & added & Hm1 & Hkeys & Hval & Hcov).
  rewrite Hm0 in Hm1. simpl in Hm1.
  assert (Hpool : Dict.get h (lod_hash_to_name s1) = Some B).
  { destruct (Hcov _ _ Hidx) as [Hstill | Htaken]; [exact Hstill | exfalso].
    rewrite <- Hkeys in Hndpre.
    destruct (in_claimed_get _ _ Hndpre Htaken) as (fh & n & q0 & Hget).
    apply (Hfree fh n q0). now rewrite Hm1. }
  assert (Hnew : ~ In h (map snd pre)).
  { intros Hin. rewrite (match_loop_pops _ _ _ _ _ Hpre Hin) in Hpool. discriminate. }
  assert (Hstep : match_component self A h s1
                  = Return tt (claimed_state h B h q vg
                      (ByHashLine A h B (Dict.len (Dict.remove h (lod_hash_to_name s1))) q)
                      (geo_matcher s1) s1)).
  { assert (Hmem : Dict.mem h (matched s1) = false).
    { apply DictFacts.mem_false_iff. rewrite Hm1, Hkeys. exact Hnew. }
    rewrite <- Hfm1 in Hfm. rewrite <- Hlm1 in Hlm.
    unfold match_component, bind, get_state. rewrite Hmem.
    unfold getitem. rewrite Hfm. unfold ret, modify, Dict.pop. rewrite Hpool.
    cbn [fst snd].
    unfold hash_shortcut, match_vgs, similarity_of, print, getitem.
    repeat first [ rewrite Hfm | rewrite Hlm | rewrite Hq | rewrite Hvg
                 | progress unfold bind, get_state, ret, lift, modify
                 | progress simpl ].
    unfold claimed_state, vgs_recorded.
    destruct (0 <? remapped_count vg)%nat; reflexivity. }
  split; [exact Hstep|].
  intros m s' Hrun. apply run_fresh_Return in Hrun.
  destruct Hrun as (s0' & Hload' & _ & Hloop & ->).
  rewrite Hload in Hload'. injection Hload' as <-.
  rewrite Hitems in Hloop.
  pose proof (match_loop_fresh self _ _ _ _ Hloop) as (Hndall & _).
  apply match_loop_split in Hloop. destruct Hloop as (sa & sb & Hp1 & Hst & Hp2).
  rewrite Hpre in Hp1. injection Hp1 as <-.
  simpl in Hst. rewrite Hstep in Hst. injection Hst as <-.
  pose proof (match_loop_frame self _ _ _ _ Hp2) as (_ & _ & _ & _ & _ & added2 & Hm2 & _).
  destruct (match_loop_stdout self _ _ _ _ Hp2) as (lines2 & Hout2 & Hlines2).
  destruct (match_loop_stdout self _ _ _ _ Hpre) as (lines1 & Hout1 & Hlines1).
  destruct (stdout_claimed_state h B h q vg
              (ByHashLine A h B (Dict.len (Dict.remove h (lod_hash_to_name s1))) q)
              (geo_matcher s1) s1) as (vl & Hout & Hvl).
  split; [|split].
  - rewrite Hm2. apply get_app_l. unfold claimed_state, vgs_recorded.
    destruct (0 <? remapped_count vg)%nat; simpl; apply DictFacts.get_set_eq.
  - rewrite Hout2, Hout. apply in_or_app. left. apply in_or_app. right. simpl. auto.
  - intros fn ln lh v c q' Hin. rewrite Hout2, Hout, Hout1 in Hin.
    assert (Hgeo : geo_line_of h (ByGeoLine fn h ln lh v c q')).
    { exists fn, ln, lh, v, c, q'. reflexivity. }
    apply in_app_or in Hin. destruct Hin as [Hin | Hin].
    + apply in_app_or in Hin. destruct Hin as [Hin | Hin].
      * apply in_app_or in Hin. destruct Hin as [Hin | Hin].
        -- destruct (Hout0 _ Hin) as (n0 & p0 & Heq). discriminate.
        -- apply Hnew. exact (Hlines1 _ _ Hin Hgeo).
      * destruct Hin as [Heq | [Heq | []]]; [discriminate Heq|].
        subst vl. exact (Hvl _ Hgeo).
    + apply (Hlines2 _ _ Hin) in Hgeo.
      rewrite map_app in Hndall. simpl in Hndall.
      apply NoDup_remove_2 in Hndall. apply Hndall. apply in_or_app. now right.
Qed.

End HashPriority.

(** C5, counterexample.  The full component with hash [h1] and the first
    LOD component share that hash and no earlier full component claimed
    that LOD component, yet no record of the completed run references it:
    the record for [h1] references the later LOD component with the same
    hash, the one the index kept. *)
Lemma shared_hash_claims_last_holder :
  exists m s,
    run_fresh (W := shared_world) (disk_config 3) = Return m s /\
    Dict.get "Component 1" (full_components s) = Some "h1" /\
    Dict.get "Component 0" (lod_components s) = Some "h1" /\
    (forall fh ln lh q, Dict.get fh m = Some (MatchTuple ln lh q) -> ln <> "Component 0") /\
    Dict.get "h1" m = Some (MatchTuple "Component 2" "h1" (Num (1 # 2))).
Proof.
  exists shared_matched.
  exists (final_state (run_fresh (W := shared_world) (disk_config 3))).
  split; [vm_compute; reflexivity|].
  split; [vm_compute; reflexivity|].
  split; [vm_compute; reflexivity|].
  split; [|vm_compute; reflexivity].
  intros fh ln lh q Hget. unfold shared_matched in Hget. simpl in Hget.
  destruct (String.eqb fh "h0"); [injection Hget as <- _ _; discriminate|].
  destruct (String.eqb fh "h1"); [injection Hget as <- _ _; discriminate|].
  discriminate.
Qed.

Lemma hash_shortcut_priority_shared :
  match_component (W := shared_world) (disk_config 3) "Component 1" "h1"
    (final_state (match_loop (W := shared_world) (disk_config 3)
                             [("Component 0", "h0")] shared_loaded))
  = Return tt
      (claimed_state (W := shared_world) "h1" "Component 2" "h1" (Num (1 # 2))
         [(0, 0); (1, 2); (2, 1)]%Z
         (ByHashLine "Component 1" "h1" "Component 2" 1 (Num (1 # 2)))
         (geo_matcher shared_loaded)
         (final_state (match_loop (W := shared_world) (disk_config 3)
                                  [("Component 0", "h0")] shared_loaded))) /\
  forall m s',
    run_fresh (W := shared_world) (disk_config 3) = Return m s' ->
    Dict.get "h1" m = Some (MatchTuple "Component 2" "h1" (Num (1 # 2))) /\
    In (ByHashLine "Component 1" "h1" "Component 2" 1 (Num (1 # 2))) (stdout s') /\
    forall fn ln lh v c q', ~ In (ByGeoLine fn "h1" ln lh v c q') (stdout s').
Proof.
  apply (hash_shortcut_priority (W := shared_world) (disk_config 3) shared_loaded
           [("Component 0", "h0")] "Component 1" "h1" []
           "Component 2" [("Component 0", "h1"); ("Component 1", "h0")]
           [("Component 3", "h9")]
           (final_state (match_loop (W := shared_world) (disk_config 3)
                                    [("Component 0", "h0")] shared_loaded))
           "full/Component 1.vb" (Some "lod/Component 2.vb") (Num (1 # 2))
           [(0, 0); (1, 2); (2, 1)]%Z).
  - vm_compute; reflexivity.
  - vm_compute; reflexivity.
  - vm_compute; reflexivity.
  - simpl. intros [H | []]. discriminate H.
  - vm_compute; reflexivity.
  - intros h' n q' Hget.
    assert (Hm : matched (final_state (match_loop (W := shared_world) (disk_config 3)
                                         [("Component 0", "h0")] shared_loaded))
                 = [("h0", MatchTuple "Component 1" "h0" (Num (1 # 2)))])
      by (vm_compute; reflexivity).
    rewrite Hm in Hget. simpl in Hget.
    destruct (String.eqb h' "h0"); [|discriminate Hget].
    injection Hget as _ Hh _. discriminate Hh.
  - vm_compute; reflexivity.
  - vm_compute; reflexivity.
  - vm_compute; reflexivity.
  - vm_compute; reflexivity.
Defined.

(** ** The hash pass *)

Section HashPassFacts.
Context {W : World}.

Lemma match_by_hash_unfold (s : State (Mesh W)) :
  match_by_hash s = match_by_hash_loop (Dict.items (full_components s)) s.
Proof. reflexivity. Qed.

(** One iteration of [match_by_hash]. *)
Lemma match_by_hash_step name h l (s : State (Mesh W)) u s' :
  match_by_hash_loop ((name, h) :: l) s = Return u s' ->
  exists s1,
    match_by_hash_loop l s1 = Return u s' /\
    lod_hash_to_name s1 = Dict.remove h (lod_hash_to_name s) /\
    full_components s1 = full_components s /\
    full_meshes s1 = full_meshes s /\
    lod_meshes s1 = lod_meshes s /\
    vg_maps s1 = vg_maps s /\
    ((matched s1 = matched s /\
      (Dict.get h (lod_hash_to_name s) = None \/
       exists n, Dict.get h (lod_hash_to_name s) = Some n /\
                 Dict.get n (lod_meshes s) = Some None))
     \/
     (exists n mesh,
        Dict.get h (lod_hash_to_name s) = Some n /\
        Dict.get n (lod_meshes s) = Some (Some mesh) /\
        matched s1 = Dict.set h (MatchName n) (matched s))).
Proof.
  unfold match_by_hash_loop. cbn [for_each fst snd]. cbv zeta. intros H.
  apply bind_Return in H. destruct H as ([] & s1 & Hbody & Hrest).
  exists s1. split; [exact Hrest|]. clear Hrest.
  apply bind_Return in Hbody. destruct Hbody as (st & st' & Hst & Hbody).
  apply get_state_Return in Hst. destruct Hst; subst st st'.
  apply bind_Return in Hbody. destruct Hbody as ([] & s2 & Hmod & Hbody).
  unfold modify in Hmod. injection Hmod as <-.
  unfold Dict.pop in Hbody. cbn [fst snd] in Hbody.
  destruct (Dict.get h (lod_hash_to_name s)) as [n|] eqn:Hpop.
  - apply bind_Return in Hbody. destruct Hbody as (st & st' & Hst & Hbody).
    apply get_state_Return in Hst. destruct Hst; subst st st'.
    apply bind_Return in Hbody. destruct Hbody as (lm & s3 & Hlm & Hbody).
    apply getitem_Return in Hlm. destruct Hlm as [-> Hlm]. simpl in Hlm.
    destruct lm as [mesh|].
    + apply bind_Return in Hbody. destruct Hbody as (fm & s3 & Hfm & Hbody).
      apply getitem_Return in Hfm. destruct Hfm as [-> Hfm].
      apply bind_Return in Hbody. destruct Hbody as (lm' & s3 & Hlm' & Hbody).
      apply getitem_Return in Hlm'. destruct Hlm' as [-> Hlm'].
      apply bind_Return in Hbody. destruct Hbody as (q & s3 & Hq & Hbody).
      apply similarity_of_Return in Hq. destruct Hq as [-> Hq].
      apply bind_Return in Hbody. destruct Hbody as ([] & s3 & Hmod & Hbody).
      unfold modify in Hmod. injection Hmod as <-.
      apply bind_Return in Hbody. destruct Hbody as (st & st' & Hst & Hbody).
      apply get_state_Return in Hst. destruct Hst; subst st st'.
      unfold print, modify in Hbody. injection Hbody as <-. simpl.
      repeat split; auto. right. exists n, mesh. auto.
    + unfold ret in Hbody. injection Hbody as <-. simpl.
      repeat split; auto. left. split; auto. right. exists n. auto.
  - unfold ret in Hbody. injection Hbody as <-. simpl.
    repeat split; auto.
Qed.

Lemma match_by_hash_loop_Return l : forall (s : State (Mesh W)) u s',
  match_by_hash_loop l s = Return u s' ->
  full_components s' = full_components s /\
  full_meshes s' = full_meshes s /\
  lod_meshes s' = lod_meshes s /\
  vg_maps s' = vg_maps s /\
  (forall k, In k (map snd l) -> Dict.get k (lod_hash_to_name s') = None) /\
  (forall k, ~ In k (map snd l) ->
             Dict.get k (lod_hash_to_name s') = Dict.get k (lod_hash_to_name s)) /\
  (forall fh v,
     Dict.get fh (matched s') = Some v ->
     (Dict.get fh (matched s) = Some v /\
      (In fh (map snd l) ->
       forall n, Dict.get fh (lod_hash_to_name s) = Some n ->
                 Dict.get n (lod_meshes s) = Some None))
     \/
     (exists n mesh,
        v = MatchName n /\ In fh (map snd l) /\
        Dict.get fh (lod_hash_to_name s) = Some n /\
        Dict.get n (lod_meshes s) = Some (Some mesh))) /\
  (forall fh, Dict.get fh (matched s) <> None -> Dict.get fh (matched s') <> None).
Proof.
  induction l as [|[name h] l IH]; intros s u s' H.
  - unfold match_by_hash_loop in H. cbn [for_each] in H.
    unfold ret in H. inversion H; subst u s'. clear H.
    split; [reflexivity|]. split; [reflexivity|]. split; [reflexivity|].
    split; [reflexivity|]. split; [intros k []|]. split; [reflexivity|].
    split; [|auto].
    intros fh v Hget. left. split; auto. intros [].
  - apply match_by_hash_step in H.
    destruct H as (s1 & Hrest & Hpool & Hfc & Hfm & Hlm & Hvg & Hstep).
    apply IH in Hrest.
    destruct Hrest as (Hfc' & Hfm' & Hlm' & Hvg' & Hgone & Hkept & Hrec & Hmono).
    split; [congruence|]. split; [congruence|]. split; [congruence|].
    split; [congruence|]. split; [|split; [|split]].
    + intros k Hk. destruct (in_dec string_dec k (map snd l)) as [Hin | Hnin].
      * now apply Hgone.
      * rewrite Hkept by exact Hnin. rewrite Hpool.
        simpl in Hk. destruct Hk as [<- | Hk]; [|tauto].
        apply DictFacts.get_remove_eq.
    + intros k Hk. simpl in Hk. rewrite Hkept by tauto. rewrite Hpool.
      apply DictFacts.get_remove_neq. intros ->. tauto.
    + intros fh v Hget. simpl.
      assert (Hpool1 : forall n, fh <> h ->
                Dict.get fh (lod_hash_to_name s1) = Some n ->
                Dict.get fh (lod_hash_to_name s) = Some n).
      { intros n Hne. rewrite Hpool, DictFacts.get_remove_neq; auto. }
      destruct (Hrec _ _ Hget) as [(Hold & Habs) | (n & mesh & -> & Hin & Hn & Hmesh)].
      * destruct Hstep as [(Hm & Hwhy) | (n & mesh & Hn & Hmesh & Hm)].
        -- left. rewrite Hm in Hold. split; auto.
           intros [<- | Hin] n Hn.
           ++ destruct Hwhy as [Hnone | (n' & Hn' & Habsent)]; congruence.
           ++ destruct (string_dec fh h) as [-> | Hne].
              ** destruct Hwhy as [Hnone | (n' & Hn' & Habsent)]; congruence.
              ** rewrite <- Hlm. apply Habs; auto.
                 rewrite Hpool, DictFacts.get_remove_neq; auto.
        -- rewrite Hm in Hold. destruct (string_dec h fh) as [<- | Hne].
           ++ rewrite DictFacts.get_set_eq in Hold. injection Hold as <-.
              right. exists n, mesh. auto.
           ++ rewrite DictFacts.get_set_neq in Hold by exact Hne.
              left. split; auto. intros [Heq | Hin] n' Hn'; [congruence|].
              rewrite <- Hlm. apply Habs; auto.
              rewrite Hpool, DictFacts.get_remove_neq; auto.
      * right. exists n, mesh. split; auto. split; auto.
        assert (Hne : fh <> h).
        { intros ->. rewrite Hpool, DictFacts.get_remove_eq in Hn. discriminate. }
        split; [|congruence].
        rewrite Hpool, DictFacts.get_remove_neq in Hn; auto.
    + intros fh Hfh. apply Hmono.
      destruct Hstep as [(Hm & _) | (n & mesh & _ & _ & Hm)]; rewrite Hm; auto.
      destruct (string_dec h fh) as [<- | Hne].
      * rewrite DictFacts.get_set_eq. discriminate.
      * now rewrite DictFacts.get_set_neq.
Qed.

(** X7. Starting with no match recorded, [match_by_hash] records under a
    full hash only the bare name of the LOD component the pool held for
    that very hash, and only when that component's mesh is loaded.  Every
    full hash has left the pool afterwards, matched or not; other pool
    entries and [vg_maps] are untouched. *)
Theorem match_by_hash_records_equal_hashes (s s' : State (Mesh W)) :
  match_by_hash s = Return tt s' ->
  matched s = [] ->
  (forall fh v,
     Dict.get fh (matched s') = Some v ->
     exists n mesh,
       v = MatchName n /\
       In fh (map snd (Dict.items (full_components s))) /\
       Dict.get fh (lod_hash_to_name s) = Some n /\
       Dict.get n (lod_meshes s) = Some (Some mesh)) /\
  (forall h, In h (map snd (Dict.items (full_components s))) ->
             Dict.get h (lod_hash_to_name s') = None) /\
  (forall k, ~ In k (map snd (Dict.items (full_components s))) ->
             Dict.get k (lod_hash_to_name s') = Dict.get k (lod_hash_to_name s)) /\
  vg_maps s' = vg_maps s.
Proof.
  rewrite match_by_hash_unfold. intros H Hm.
  apply match_by_hash_loop_Return in H.
  destruct H as (_ & _ & _ & Hvg & Hgone & Hkept & Hrec & _).
  split; [|auto].
  intros fh v Hget.
  destruct (Hrec _ _ Hget) as [(Hold & _) | (n & mesh & Hv & Hin & Hn & Hmesh)].
  - rewrite Hm in Hold. discriminate.
  - exists n, mesh. auto.
Qed.

(** X8. [match_by_hash] consumes a candidate whose mesh failed to load: a
    full component whose hash the pool maps to a LOD component with an
    absent mesh gets no record, and that hash is gone from the pool. *)
Theorem match_by_hash_drops_absent_candidate (s s' : State (Mesh W)) name h n :
  match_by_hash s = Return tt s' ->
  In (name, h) (Dict.items (full_components s)) ->
  Dict.get h (lod_hash_to_name s) = Some n ->
  Dict.get n (lod_meshes s) = Some None ->
  Dict.get h (matched s) = None ->
  Dict.get h (matched s') = None /\ Dict.get h (lod_hash_to_name s') = None.
Proof.
  rewrite match_by_hash_unfold. intros H Hin Hn Habs Hm.
  apply match_by_hash_loop_Return in H.
  destruct H as (_ & _ & _ & _ & Hgone & _ & Hrec & _).
  split.
  - destruct (Dict.get h (matched s')) as [v|] eqn:E; auto.
    destruct (Hrec _ _ E) as [(Hold & _) | (n' & mesh & _ & _ & Hn' & Hmesh)];
      congruence.
  - apply Hgone. apply in_map_iff. exists (name, h). auto.
Qed.

(** X9. The two passes do not compose: once [match_by_hash] has recorded a
    match on a fresh table, [match_by_geometry] cannot return normally,
    since it rejects every full hash that is already matched. *)
Theorem hash_pass_then_geometry_never_returns
        (self : Config (ComponentData W)) (s s1 : State (Mesh W)) :
  match_by_hash s = Return tt s1 ->
  matched s = [] ->
  matched s1 <> [] ->
  forall u s2, match_by_geometry self s1 <> Return u s2.
Proof.
  rewrite match_by_hash_unfold. intros H Hm Hne u s2 Hgeo.
  apply match_by_hash_loop_Return in H.
  destruct H as (Hfc & _ & _ & _ & _ & _ & Hrec & _).
  assert (Hex : exists fh v, Dict.get fh (matched s1) = Some v).
  { destruct (matched s1) as [|[fh v] rest]; [congruence|].
    exists fh, v. simpl. now rewrite String.eqb_refl. }
  destruct Hex as (fh & v & Hget).
  destruct (Hrec _ _ Hget) as [(Hold & _) | (n & mesh & _ & Hin & _)].
  - rewrite Hm in Hold. discriminate.
  - unfold match_by_geometry in Hgeo.
    apply bind_Return in Hgeo. destruct Hgeo as (st & st' & Hst & Hloop).
    apply get_state_Return in Hst. destruct Hst; subst st st'.
    rewrite Hfc in Hloop.
    change (match_loop self (Dict.items (full_components s)) s1 = Return u s2) in Hloop.
    apply match_loop_fresh in Hloop. destruct Hloop as (_ & Hnew).
    apply (Hnew _ Hin). eapply DictFacts.get_Some_in; eauto.
Qed.

End HashPassFacts.

(** ** Rankings *)

Lemma has_nan_false l :
  has_nan l = false <-> forall kv, In kv l -> exists q, snd kv = Num q.
Proof.
  unfold has_nan. induction l as [|x l IH]; simpl.
  - split; auto. intros _ kv [].
  - rewrite Bool.orb_false_iff, IH. split.
    + intros [Hx Hl] kv [<- | Hin]; auto.
      destruct (snd x); [eauto | discriminate].
    + intros H. split.
      * destruct (H x (or_introl eq_refl)) as (q & ->). reflexivity.
      * intros kv Hin. apply H. now right.
Qed.

Lemma insert_desc_sorted x l :
  (exists q, snd x = Num q) ->
  (forall kv, In kv l -> exists q, snd kv = Num q) ->
  StronglySorted ranks_before l -> StronglySorted ranks_before (insert_desc x l).
Proof.
  intros (qx & Hx). induction l as [|y l IH]; simpl; intros Hnum Hs.
  - constructor; constructor.
  - apply StronglySorted_inv in Hs. destruct Hs as [Hl Hy].
    destruct (Hnum y (or_introl eq_refl)) as (qy & Hqy).
    unfold sim_ltb. rewrite Hx, Hqy.
    destruct (Qle_bool qy qx) eqn:E; simpl.
    + apply Qle_bool_iff in E.
      assert (Hxy : ranks_before x y).
      { unfold ranks_before. now rewrite Hx, Hqy. }
      constructor.
      * constructor; auto.
      * constructor; auto.
        rewrite Forall_forall in *. intros z Hz.
        specialize (Hy z Hz). unfold ranks_before in *.
        rewrite Hx. rewrite Hqy in Hy.
        destruct (snd z) as [qz|]; [|exact Hy].
        eapply Qle_trans; eauto.
    + constructor.
      * apply IH; auto.
      * rewrite Forall_forall in *. intros z Hz.
        apply (Permutation_in _ (insert_desc_perm x l)) in Hz.
        destruct Hz as [<- | Hz]; [|auto].
        unfold ranks_before. rewrite Hx, Hqy.
        apply Qlt_le_weak. apply Qnot_le_lt.
        intros Hle. apply Qle_bool_iff in Hle. congruence.
Qed.

Lemma insertion_sorted_desc_sorted l :
  has_nan l = false -> StronglySorted ranks_before (insertion_sorted_desc l).
Proof.
  rewrite has_nan_false. unfold insertion_sorted_desc.
  induction l as [|x l IH]; simpl; intros Hnum.
  - constructor.
  - apply insert_desc_sorted.
    + apply Hnum. now left.
    + intros kv Hin. apply Hnum. right.
      eapply Permutation_in; [apply insertion_sorted_desc_perm | exact Hin].
    + apply IH. intros kv Hin. apply Hnum. now right.
Qed.

Lemma sorted_desc_sorted (W : World) l :
  has_nan l = false -> StronglySorted ranks_before (sorted_desc W l).
Proof.
  intros H. unfold sorted_desc. rewrite H. now apply insertion_sorted_desc_sorted.
Qed.

Lemma In_get_NoDup {V} k v (d : Dict.t V) :
  NoDup (Dict.keys d) -> In (k, v) d -> Dict.get k d = Some v.
Proof.
  intros Hnd Hin. destruct (in_split _ _ Hin) as (d1 & d2 & ->).
  now apply get_of_split.
Qed.

Lemma sorted_firstn_skipn {A} (R : A -> A -> Prop) (l : list A) : forall k a b,
  StronglySorted R l -> In a (firstn k l) -> In b (skipn k l) -> R a b.
Proof.
  induction l as [|x l IH]; intros k a b Hs Ha Hb.
  - now rewrite firstn_nil in Ha.
  - destruct k as [|k]; simpl in *; [tauto|].
    apply StronglySorted_inv in Hs. destruct Hs as [Hl Hx].
    destruct Ha as [<- | Ha].
    + rewrite Forall_forall in Hx. apply Hx.
      rewrite <- (firstn_skipn k l). apply in_or_app. now right.
    + eapply IH; eauto.
Qed.

Lemma slice_to_firstn {A} (n : Z) (l : list A) : exists k, slice_to n l = firstn k l.
Proof. unfold slice_to. destruct (0 <=? n)%Z; eauto. Qed.

Section RankingFacts.
Context {W : World}.
Variable self : Config (ComponentData W).

Lemma score_candidates_values (fm : Mesh W) l : forall acc s r s',
  score_candidates fm l acc s = Return r s' ->
  (NoDup (Dict.keys acc) -> NoDup (Dict.keys r)) /\
  forall h q,
    Dict.get h r = Some q ->
    Dict.get h acc = Some q \/
    exists n lm,
      In (h, n) l /\ Dict.get n (lod_meshes s) = Some lm /\
      calculate_similarity W (geo_matcher s) fm lm = Ok q.
Proof.
  induction l as [|[lod_hash lod_name] l IH]; intros acc s r s' H;
    cbn [score_candidates] in H.
  - unfold ret in H. injection H as <- <-. auto.
  - apply bind_Return in H. destruct H as (st & st' & Hst & H).
    apply get_state_Return in Hst. destruct Hst; subst st st'.
    apply bind_Return in H. destruct H as (lm & s1 & Hlm & H).
    apply getitem_Return in Hlm. destruct Hlm as [-> Hlm].
    apply bind_Return in H. destruct H as (q0 & s1 & Hq & H).
    apply similarity_of_Return in Hq. destruct Hq as [-> Hq].
    apply IH in H. destruct H as (Hnd & Hval). split.
    + intros Hacc. apply Hnd. now apply DictFacts.NoDup_keys_set.
    + intros h q Hget. destruct (Hval _ _ Hget) as [Hacc | (n & lm' & Hin & Hm & Hs)].
      * destruct (string_dec lod_hash h) as [<- | Hne].
        -- rewrite DictFacts.get_set_eq in Hacc. injection Hacc as <-.
           right. exists lod_name, lm. simpl. auto.
        -- rewrite DictFacts.get_set_neq in Hacc by exact Hne. now left.
      * right. exists n, lm'. simpl. auto.
Qed.

(** The table [calculate_similarities] returns. *)
Lemma calculate_similarities_ranked (fm : Mesh W) d s r s' :
  calculate_similarities fm d s = Return r s' ->
  s' = s /\
  ((forall h, Dict.get h r <> Some NaN) ->
   StronglySorted ranks_before (Dict.items r)) /\
  NoDup (Dict.keys r) /\
  (forall h, In h (Dict.keys r) <-> In h (Dict.keys d)) /\
  forall h q,
    Dict.get h r = Some q ->
    exists n lm,
      In (h, n) (Dict.items d) /\ Dict.get n (lod_meshes s) = Some lm /\
      calculate_similarity W (geo_matcher s) fm lm = Ok q.
Proof.
  intros H.
  destruct (calculate_similarities_Return _ _ _ _ _ H) as (Hs & Hkeys).
  unfold calculate_similarities in H.
  apply bind_Return in H. destruct H as (sims & s1 & Hsc & H).
  destruct (score_candidates_Return _ _ _ _ _ _ Hsc) as (-> & _).
  apply score_candidates_values in Hsc. destruct Hsc as (Hnd & Hval).
  specialize (Hnd (NoDup_nil _)).
  unfold ret in H. injection H as <- <-.
  assert (Hperm : Permutation (sorted_desc W (Dict.items sims)) sims)
    by apply sorted_desc_perm.
  assert (Hnd' : NoDup (map fst (sorted_desc W (Dict.items sims)))).
  { eapply Permutation_NoDup; [|exact Hnd].
    apply Permutation_map. apply Permutation_sym. exact Hperm. }
  rewrite of_items_NoDup in * by exact Hnd'.
  split; auto. split; [|split; [exact Hnd'|split; [exact Hkeys|]]].
  - intros Hnum. apply sorted_desc_sorted. apply has_nan_false.
    intros [k v] Hin. simpl. destruct v as [q|]; [eauto|].
    exfalso. apply (Hnum k). apply In_get_NoDup; [exact Hnd'|].
    eapply Permutation_in; [apply Permutation_sym; exact Hperm | exact Hin].
  - intros h q Hget. apply get_Some_In_items in Hget.
    apply (Permutation_in _ Hperm) in Hget.
    apply (In_get_NoDup _ _ _ Hnd) in Hget.
    destruct (Hval _ _ Hget) as [Hacc | Hex]; [discriminate | exact Hex].
Qed.

(** X10. [calculate_similarities] returns, without changing the instance,
    one entry per candidate hash it was given, each holding the scorer's
    value for that candidate's mesh under the matcher's current settings.
    When no entry of the table is NaN, the table is ordered so that no
    entry has a higher similarity than an entry before it; with a NaN
    score the order is whatever [sorted] leaves and nothing is claimed
    of it. *)
Theorem calculate_similarities_ranking (fm : Mesh W) d s r s' :
  calculate_similarities fm d s = Return r s' ->
  s' = s /\
  NoDup (Dict.keys r) /\
  (forall h, In h (Dict.keys r) <-> In h (Dict.keys d)) /\
  (forall h q,
    Dict.get h r = Some q ->
    exists n lm,
      In (h, n) (Dict.items d) /\ Dict.get n (lod_meshes s) = Some lm /\
      calculate_similarity W (geo_matcher s) fm lm = Ok q) /\
  ((forall h, Dict.get h r <> Some NaN) ->
   StronglySorted ranks_before (Dict.items r)).
Proof.
  intros H. apply calculate_similarities_ranked in H.
  destruct H as (H1 & H2 & H3 & H4 & H5). auto.
Qed.

End RankingFacts.

(** ** The two search stages *)

Section StageFacts.
Context {W : World}.
Variable self : Config (ComponentData W).

Lemma pool_comprehension_values (pool : Dict.t string) l : forall acc (s : State (Mesh W)) r s',
  comprehension l (fun hash => bind (getitem pool hash) (fun name => ret (hash, name)))
                acc s = Return r s' ->
  (NoDup (Dict.keys acc) -> NoDup (Dict.keys r)) /\
  forall k n, Dict.get k r = Some n ->
              Dict.get k acc = Some n \/ Dict.get k pool = Some n.
Proof.
  induction l as [|h l IH]; intros acc s r s' H; cbn [comprehension] in H.
  - unfold ret in H. injection H as <- <-. auto.
  - apply bind_Return in H. destruct H as (kv & s1 & Hkv & H).
    apply bind_Return in Hkv. destruct Hkv as (name & s2 & Hname & Hret).
    apply getitem_Return in Hname. destruct Hname as [-> Hname].
    unfold ret in Hret. injection Hret as <- <-. simpl in H.
    apply IH in H. destruct H as (Hnd & Hval). split.
    + intros Hacc. apply Hnd. now apply DictFacts.NoDup_keys_set.
    + intros k n Hget. destruct (Hval _ _ Hget) as [Hacc | Hpool]; auto.
      destruct (string_dec h k) as [<- | Hne].
      * rewrite DictFacts.get_set_eq in Hacc. injection Hacc as <-. now right.
      * rewrite DictFacts.get_set_neq in Hacc by exact Hne. now left.
Qed.

Lemma fine_match_maximum (fm : Mesh W) pre s h q s' :
  fine_match self fm pre s = Return (h, q) s' ->
  (forall h' n lm,
      In h' pre ->
      Dict.get h' (lod_hash_to_name s) = Some n ->
      Dict.get n (lod_meshes s) = Some lm ->
      calculate_similarity W (fine_matcher self s) fm lm <> Ok NaN) ->
  In h pre /\
  exists best,
    q = Num best /\
    forall h', In h' pre ->
      exists n lm q',
        Dict.get h' (lod_hash_to_name s) = Some n /\
        Dict.get n (lod_meshes s) = Some lm /\
        calculate_similarity W (fine_matcher self s) fm lm = Ok (Num q') /\
        (q' <= best)%Q /\ (h' = h -> Num q' = q).
Proof.
  intros H Hnonan. pose proof (fine_match_Return _ _ _ _ _ _ H) as (_ & Hwin).
  simpl in Hwin. split; auto.
  unfold fine_match in H.
  apply bind_Return in H. destruct H as (st & st' & Hst & H).
  apply get_state_Return in Hst. destruct Hst; subst st st'.
  apply bind_Return in H. destruct H as (d & s1 & Hd & H).
  destruct (pool_comprehension_Return _ _ _ _ _ _ Hd) as (-> & Hdkeys).
  apply pool_comprehension_values in Hd. destruct Hd as (Hdnd & Hdval).
  specialize (Hdnd (NoDup_nil _)).
  apply bind_Return in H. destruct H as ([] & s1 & Hcfg & H).
  unfold configure, modify in Hcfg. injection Hcfg as <-.
  apply bind_Return in H. destruct H as (r & s1 & Hr & H).
  apply calculate_similarities_ranked in Hr.
  destruct Hr as (-> & Hsorted & Hrnd & Hrkeys & Hrval).
  apply next_iter_Return in H. destruct H as (-> & rest & ->).
  assert (Hsrc : forall k v,
            Dict.get k ((h, q) :: rest) = Some v ->
            In k pre /\
            exists n lm,
              Dict.get k (lod_hash_to_name s) = Some n /\
              Dict.get n (lod_meshes s) = Some lm /\
              calculate_similarity W (fine_matcher self s) fm lm = Ok v).
  { intros k v Hget.
    destruct (Hrval _ _ Hget) as (n & lm & Hn & Hlm & Hscore).
    simpl in Hlm, Hscore.
    assert (Hkpre : In k pre).
    { assert (Hkd : In k (Dict.keys d)).
      { apply in_map_iff. exists (k, n). auto. }
      apply Hdkeys in Hkd. destruct Hkd as [[] | Hkd]. exact Hkd. }
    split; auto. exists n, lm. split; auto.
    apply (In_get_NoDup _ _ _ Hdnd) in Hn.
    destruct (Hdval _ _ Hn) as [Hnil | Hpool]; [discriminate | exact Hpool]. }
  assert (Hnum : forall k, Dict.get k ((h, q) :: rest) <> Some NaN).
  { intros k Hget. destruct (Hsrc _ _ Hget) as (Hk & n & lm & Hn & Hlm & Hscore).
    exact (Hnonan _ _ _ Hk Hn Hlm Hscore). }
  specialize (Hsorted Hnum).
  assert (Hq : exists best, q = Num best).
  { destruct q as [best|]; [eauto|]. exfalso. apply (Hnum h).
    simpl. now rewrite String.eqb_refl. }
  destruct Hq as (best & ->). exists best. split; auto.
  intros h' Hin.
  assert (Hk : In h' (Dict.keys ((h, Num best) :: rest))).
  { apply Hrkeys, Hdkeys. now right. }
  apply DictFacts.in_keys_get in Hk. destruct Hk as (v & Hv).
  destruct v as [q'|]; [|exfalso; exact (Hnum _ Hv)].
  destruct (Hsrc _ _ Hv) as (_ & n & lm & Hn & Hlm & Hscore).
  exists n, lm, q'. split; auto. split; auto. split; auto. split.
  - pose proof (get_Some_In_items _ _ _ Hv) as Hinr.
    destruct Hinr as [Heq | Hinr].
    + injection Heq as _ <-. apply Qle_refl.
    + apply StronglySorted_inv in Hsorted. destruct Hsorted as (_ & Hall).
      rewrite Forall_forall in Hall. apply (Hall _ Hinr).
  - intros ->. simpl in Hv. rewrite String.eqb_refl in Hv. congruence.
Qed.

(** X11. When the scorer gives no prefiltered candidate a NaN under the
    fine settings, the candidate the fine stage returns is one of the
    prefiltered hashes, and its similarity is a number, the largest the
    scorer gives, under the fine settings, to the mesh of any prefiltered
    candidate. *)
Theorem fine_match_selects_maximum (fm : Mesh W) pre s h q s' :
  fine_match self fm pre s = Return (h, q) s' ->
  (forall h' n lm,
      In h' pre ->
      Dict.get h' (lod_hash_to_name s) = Some n ->
      Dict.get n (lod_meshes s) = Some lm ->
      calculate_similarity W (fine_matcher self s) fm lm <> Ok NaN) ->
  In h pre /\
  exists best,
    q = Num best /\
    forall h', In h' pre ->
      exists n lm q',
        Dict.get h' (lod_hash_to_name s) = Some n /\
        Dict.get n (lod_meshes s) = Some lm /\
        calculate_similarity W (fine_matcher self s) fm lm = Ok (Num q') /\
        (q' <= best)%Q /\ (h' = h -> Num q' = q).
Proof. apply fine_match_maximum. Qed.

Lemma prefilter_slice (fm : Mesh W) s pre s' :
  prefilter self fm s = Return pre s' ->
  exists r,
    calculate_similarities fm (lod_hash_to_name s)
      (configured (geo_matcher_prefilter_sample_size self)
                  (geo_matcher_prefilter_voxel_size self) s) = Return r s' /\
    pre = slice_to (Z.min (geo_matcher_prefilter_candidates_count self)
                          (Z.of_nat (Dict.len r))) (Dict.keys r).
Proof.
  unfold prefilter. intros H.
  apply bind_Return in H. destruct H as ([] & s1 & Hcfg & H).
  unfold configure, modify in Hcfg. injection Hcfg as <-.
  apply bind_Return in H. destruct H as (st & st' & Hst & H).
  apply get_state_Return in Hst. destruct Hst; subst st st'.
  apply bind_Return in H. destruct H as (r & s1 & Hr & H).
  unfold ret in H. injection H as <- <-.
  exists r. split; auto.
Qed.

(** X12. When the scorer gives no pool entry a NaN under the coarse
    settings, the prefilter keeps the best-ranked candidates: a pool entry
    it drops never has a higher coarse similarity than an entry it
    keeps. *)
Theorem prefilter_keeps_best_ranked (fm : Mesh W) s pre s'
        h1 h2 n1 n2 lm1 lm2 (q1 q2 : Q) :
  prefilter self fm s = Return pre s' ->
  NoDup (Dict.keys (lod_hash_to_name s)) ->
  (forall h n lm,
      Dict.get h (lod_hash_to_name s) = Some n ->
      Dict.get n (lod_meshes s) = Some lm ->
      calculate_similarity W (coarse_matcher self s) fm lm <> Ok NaN) ->
  In h1 pre -> ~ In h2 pre ->
  Dict.get h1 (lod_hash_to_name s) = Some n1 ->
  Dict.get h2 (lod_hash_to_name s) = Some n2 ->
  Dict.get n1 (lod_meshes s) = Some lm1 ->
  Dict.get n2 (lod_meshes s) = Some lm2 ->
  calculate_similarity W (coarse_matcher self s) fm lm1 = Ok (Num q1) ->
  calculate_similarity W (coarse_matcher self s) fm lm2 = Ok (Num q2) ->
  (q2 <= q1)%Q.
Proof.
  intros H Hnd Hnonan Hin1 Hnin2 Hn1 Hn2 Hlm1 Hlm2 Hq1 Hq2.
  apply prefilter_slice in H. destruct H as (r & Hr & ->).
  apply calculate_similarities_ranked in Hr.
  destruct Hr as (_ & Hsorted & Hrnd & Hrkeys & Hrval).
  assert (Hnum : forall h, Dict.get h r <> Some NaN).
  { intros h Hget.
    destruct (Hrval _ _ Hget) as (n & lm & Hin & Hlm & Hq).
    apply (In_get_NoDup _ _ _ Hnd) in Hin. simpl in Hlm, Hq.
    exact (Hnonan _ _ _ Hin Hlm Hq). }
  specialize (Hsorted Hnum).
  destruct (slice_to_firstn (Z.min (geo_matcher_prefilter_candidates_count self)
                                   (Z.of_nat (Dict.len r))) (Dict.keys r))
    as (k & Hk).
  rewrite Hk in Hin1, Hnin2. unfold Dict.keys in Hin1, Hnin2.
  rewrite firstn_map in Hin1, Hnin2.
  apply in_map_iff in Hin1. destruct Hin1 as ([h1' q1'] & Heq1 & Hin1).
  simpl in Heq1. subst h1'.
  assert (Hk2 : In h2 (Dict.keys r)).
  { apply Hrkeys. eapply DictFacts.get_Some_in; eauto. }
  apply DictFacts.in_keys_get in Hk2. destruct Hk2 as (q2' & Hget2).
  pose proof (get_Some_In_items _ _ _ Hget2) as Hin2.
  rewrite <- (firstn_skipn k r) in Hin2. apply in_app_or in Hin2.
  destruct Hin2 as [Hin2 | Hin2].
  { exfalso. apply Hnin2. apply in_map_iff. exists (h2, q2'). auto. }
  pose proof (sorted_firstn_skipn _ _ _ _ _ Hsorted Hin1 Hin2) as Hrank.
  unfold ranks_before in Hrank. simpl in Hrank.
  assert (Hget1 : Dict.get h1 r = Some q1').
  { apply In_get_NoDup; auto. eapply firstn_incl; eauto. }
  assert (Hval : forall h q n lm q0,
            Dict.get h r = Some q ->
            Dict.get h (lod_hash_to_name s) = Some n ->
            Dict.get n (lod_meshes s) = Some lm ->
            calculate_similarity W (coarse_matcher self s) fm lm = Ok q0 ->
            q = q0).
  { intros h q n lm q0 Hget Hn Hlm Hq.
    destruct (Hrval _ _ Hget) as (n' & lm' & Hin & Hlm' & Hq').
    apply (In_get_NoDup _ _ _ Hnd) in Hin. simpl in Hlm', Hq'.
    unfold coarse_matcher in Hq. congruence. }
  rewrite (Hval _ _ _ _ _ Hget1 Hn1 Hlm1 Hq1) in Hrank.
  rewrite (Hval _ _ _ _ _ Hget2 Hn2 Hlm2 Hq2) in Hrank.
  exact Hrank.
Qed.

(** X13. The geometric search can return a match only from a non-empty
    candidate pool and with a prefilter count other than zero. *)
Theorem geometric_search_needs_candidates full_name full_hash (fm : Mesh W) s best s' :
  geometric_search self full_name full_hash fm s = Return best s' ->
  lod_hash_to_name s <> [] /\ geo_matcher_prefilter_candidates_count self <> 0%Z.
Proof.
  intros H. apply geometric_search_Return in H.
  destruct H as (pre & s1 & mesh & Hpre & _ & Hin & Hget & _).
  split.
  - intros Hnil. rewrite Hnil in Hget. discriminate.
  - intros Hzero. apply prefilter_slice in Hpre. destruct Hpre as (r & _ & ->).
    rewrite Hzero in Hin.
    rewrite Z.min_l in Hin by lia. unfold slice_to in Hin. simpl in Hin. exact Hin.
Qed.

(** X14. A full component that is processed when the candidate pool is
    empty makes the iteration raise [StopIteration]; no match, remap or
    line is added. *)
Theorem empty_pool_iteration_raises name h (fm : Mesh W) s :
  Dict.mem h (matched s) = false ->
  Dict.get name (full_meshes s) = Some fm ->
  lod_hash_to_name s = [] ->
  exists s',
    match_component self name h s = Raised StopIteration s' /\
    matched s' = matched s /\ vg_maps s' = vg_maps s /\ stdout s' = stdout s /\
    lod_hash_to_name s' = [].
Proof.
  intros Hmem Hfm Hpool.
  unfold match_component, bind, get_state. rewrite Hmem.
  unfold getitem. rewrite Hfm. unfold ret, modify, Dict.pop. rewrite Hpool.
  cbn [Dict.get Dict.remove fst snd].
  unfold geometric_search, prefilter, bind, configure, modify, get_state.
  cbn [lod_hash_to_name set_lod_hash_to_name set_geo_matcher].
  unfold calculate_similarities, bind. cbn [Dict.items score_candidates].
  unfold ret. cbn [sorted_desc has_nan existsb insertion_sorted_desc fold_right
                   Dict.of_items fold_left Dict.keys map Dict.len List.length].
  assert (Hslice : forall n, @slice_to string n [] = []).
  { intros n. unfold slice_to. destruct (0 <=? n)%Z; apply firstn_nil. }
  rewrite Hslice.
  unfold fine_match, bind, get_state. cbn [comprehension]. unfold ret, configure, modify.
  unfold calculate_similarities, bind. cbn [Dict.items score_candidates].
  unfold ret. cbn [sorted_desc has_nan existsb insertion_sorted_desc fold_right
                   Dict.of_items fold_left].
  unfold next_iter, raise. cbn [Dict.items].
  eexists. split; [reflexivity|]. repeat split.
Qed.

End StageFacts.

(** ** The run as a whole *)

Lemma len_remove {V} k v (d : Dict.t V) :
  NoDup (Dict.keys d) -> Dict.get k d = Some v ->
  S (Dict.len (Dict.remove k d)) = Dict.len d.
Proof.
  induction d as [|[k' v'] d IH]; simpl; [discriminate|].
  intros Hnd Hget. inversion Hnd as [|? ? Hk Hnd']; subst.
  destruct (String.eqb k k') eqn:E.
  - apply String.eqb_eq in E. subst k'.
    rewrite DictFacts.remove_notin; auto.
    now apply DictFacts.get_None_notin.
  - simpl. f_equal. auto.
Qed.

Section RunShape.
Context {W : World}.
Variable self : Config (ComponentData W).

Lemma match_loop_consumes l : forall (s : State (Mesh W)) u s',
  match_loop self l s = Return u s' ->
  NoDup (Dict.keys (lod_hash_to_name s)) ->
  (Dict.len (lod_hash_to_name s') + List.length l)%nat = Dict.len (lod_hash_to_name s).
Proof.
  induction l as [|[name h] l IH]; intros s u s' H Hnd.
  - inversion H; subst. simpl. lia.
  - apply match_loop_cons_Return in H. destruct H as (s1 & Hstep & Hloop).
    simpl in Hstep. apply match_component_frame in Hstep.
    destruct Hstep as (ln & lh & sim & _ & _ & Hln & Hpool & _).
    apply IH in Hloop.
    + rewrite Hpool in Hloop. pose proof (len_remove _ _ _ Hnd Hln). simpl. lia.
    + rewrite Hpool. now apply DictFacts.NoDup_keys_remove.
Qed.

(** X15. Every full component of a completed run has consumed exactly one
    entry of the LOD hash index: the entries left in the pool and the full
    components add up to the size of the index, so a run can complete only
    when there are at least as many indexed LOD hashes as full
    components. *)
Theorem completed_run_consumes_pool m s' :
  run_fresh self = Return m s' ->
  (Dict.len (lod_hash_to_name s') + Dict.len (full_components s'))%nat
  = Dict.len (lod_index self) /\
  (Dict.len (full_components s') <= Dict.len (lod_index self))%nat.
Proof.
  intros Hrun. apply run_fresh_Return in Hrun.
  destruct Hrun as (s0 & Hload & (_ & _ & Hnd & _) & Hloop & _).
  rewrite (lod_index_loaded _ _ Hload).
  pose proof (match_loop_frame self _ _ _ _ Hloop) as (Hfc & _).
  apply match_loop_consumes in Hloop; auto.
  rewrite Hfc. unfold Dict.len, Dict.items in *. lia.
Qed.

(** X16. The match table of a completed run has one key per full
    component, in the order of [full_components], and every record names a
    LOD component by the name and hash under which the LOD hash index held
    it. *)
Theorem completed_run_table_shape m s' :
  run_fresh self = Return m s' ->
  Dict.keys m = map snd (Dict.items (full_components s')) /\
  forall fh n lh q,
    Dict.get fh m = Some (MatchTuple n lh q) ->
    Dict.get lh (lod_index self) = Some n.
Proof.
  intros Hrun. apply run_fresh_Return in Hrun.
  destruct Hrun as (s0 & Hload & (Hm0 & _) & Hloop & ->).
  rewrite (lod_index_loaded _ _ Hload).
  apply match_loop_frame in Hloop.
  destruct Hloop as (Hfc & _ & _ & _ & _ & added & Hm & Hkeys & Hval & _).
  rewrite Hm, Hm0, Hfc. simpl. split; auto.
  intros fh n lh q Hget.
  destruct (Hval _ _ (get_Some_In_items _ _ _ Hget)) as (n' & lh' & q' & Heq & Hidx).
  injection Heq as <- <- <-. exact Hidx.
Qed.

End RunShape.

(** ** Instances of the further properties *)

Lemma load_component_hashes_table_twin :
  post_init (W := twin_world) (disk_config 3) = post_init (W := twin_world) (disk_config 3) /\
  exists hashes,
    descriptor_of (W := twin_world) (Some "full") "" = Ok hashes /\
    map snd (Dict.items [("Component 0", "h1"); ("Component 1", "h2")]) = hashes /\
    NoDup (Dict.keys [("Component 0", "h1"); ("Component 1", "h2")]) /\
    forall i, Dict.get (component_name (Some "full") "" i)
                       [("Component 0", "h1"); ("Component 1", "h2")]
              = nth_error hashes i.
Proof.
  apply (load_component_hashes_table (W := twin_world) (Some "full") "" ""
           (post_init (W := twin_world) (disk_config 3))
           [("Component 0", "h1"); ("Component 1", "h2")]
           (post_init (W := twin_world) (disk_config 3))).
  vm_compute; reflexivity.
Defined.

Lemma lod_index_inverts_lod_components_twin :
  NoDup (Dict.keys (lod_hash_to_name twin_metadata_loaded)) /\
  (forall h n,
     Dict.get h (lod_hash_to_name twin_metadata_loaded) = Some n ->
     Dict.get n (lod_components twin_metadata_loaded) = Some h /\
     exists l1 l2,
       Dict.items (lod_components twin_metadata_loaded) = l1 ++ (n, h) :: l2 /\
       ~ In h (map snd l2)) /\
  (forall n h,
     Dict.get n (lod_components twin_metadata_loaded) = Some h ->
     exists n', Dict.get h (lod_hash_to_name twin_metadata_loaded) = Some n').
Proof.
  apply (lod_index_inverts_lod_components (W := twin_world) (disk_config 3)
           twin_metadata_loaded).
  vm_compute; reflexivity.
Defined.

Lemma load_meshes_tolerates_failed_bytes_absent :
  exists s',
    load_meshes (W := absent_world const_score identity_solve) (object_config [None] 3)
                absent_metadata_loaded = Return tt s'.
Proof.
  apply (load_meshes_tolerates_failed_bytes
           (W := absent_world const_score identity_solve) (object_config [None] 3)
           absent_metadata_loaded).
  - reflexivity.
  - intros name _. eexists. reflexivity.
Defined.

Lemma load_meshes_full_failure_unreadable :
  load_meshes (W := unreadable_world) (disk_config 3) unreadable_metadata_loaded
  = Raised (ExternalError "full/Component 0.vb") unreadable_metadata_loaded.
Proof.
  apply (load_meshes_full_failure_is_fatal (W := unreadable_world) (disk_config 3)
           unreadable_metadata_loaded [] "Component 0" []).
  - vm_compute; reflexivity.
  - intros n [].
  - vm_compute; reflexivity.
Defined.

Lemma load_completes_full_model_twin :
  exists hashes,
    read_metadata twin_world (path_join "full" "Metadata.json") = Ok hashes /\
    map snd (Dict.items (full_components twin_loaded)) = hashes /\
    NoDup (Dict.keys (full_components twin_loaded)) /\
    Dict.keys (full_meshes twin_loaded) = Dict.keys (full_components twin_loaded) /\
    forall i h,
      nth_error hashes i = Some h ->
      let name := component_name (Some "full") "" i in
      Dict.get name (full_components twin_loaded) = Some h /\
      exists mesh,
        Dict.get name (full_meshes twin_loaded) = Some mesh /\
        from_paths twin_world (full_mesh_path (W := twin_world) (disk_config 3) name)
        = Ok mesh.
Proof.
  apply (load_completes_full_model (W := twin_world) (disk_config 3) twin_loaded).
  vm_compute; reflexivity.
Defined.

Lemma match_by_hash_records_twin :
  (forall fh v,
     Dict.get fh (matched (final_state (match_by_hash (W := twin_world) twin_loaded)))
     = Some v ->
     exists n mesh,
       v = MatchName n /\
       In fh (map snd (Dict.items (full_components twin_loaded))) /\
       Dict.get fh (lod_hash_to_name twin_loaded) = Some n /\
       Dict.get n (lod_meshes twin_loaded) = Some (Some mesh)) /\
  (forall h, In h (map snd (Dict.items (full_components twin_loaded))) ->
             Dict.get h (lod_hash_to_name
                           (final_state (match_by_hash (W := twin_world) twin_loaded)))
             = None) /\
  (forall k, ~ In k (map snd (Dict.items (full_components twin_loaded))) ->
             Dict.get k (lod_hash_to_name
                           (final_state (match_by_hash (W := twin_world) twin_loaded)))
             = Dict.get k (lod_hash_to_name twin_loaded)) /\
  vg_maps (final_state (match_by_hash (W := twin_world) twin_loaded)) = vg_maps twin_loaded.
Proof.
  apply (match_by_hash_records_equal_hashes (W := twin_world) twin_loaded
           (final_state (match_by_hash (W := twin_world) twin_loaded))).
  - vm_compute; reflexivity.
  - vm_compute; reflexivity.
Defined.

Lemma match_by_hash_drops_absent_twin :
  Dict.get "h2" (matched (final_state (match_by_hash (W := absent_twin_world)
                                                     absent_twin_loaded))) = None /\
  Dict.get "h2" (lod_hash_to_name (final_state (match_by_hash (W := absent_twin_world)
                                                              absent_twin_loaded))) = None.
Proof.
  apply (match_by_hash_drops_absent_candidate (W := absent_twin_world) absent_twin_loaded
           (final_state (match_by_hash (W := absent_twin_world) absent_twin_loaded))
           "Component 0" "h2" "obj - Component 0").
  - vm_compute; reflexivity.
  - vm_compute; auto.
  - vm_compute; reflexivity.
  - vm_compute; reflexivity.
  - vm_compute; reflexivity.
Defined.

Lemma hash_pass_then_geometry_twin :
  matched (final_state (match_by_hash (W := twin_world) twin_loaded))
  = [("h1", MatchName "Component 0"); ("h2", MatchName "Component 1")] /\
  forall u s2,
    match_by_geometry (W := twin_world) (disk_config 3)
      (final_state (match_by_hash (W := twin_world) twin_loaded)) <> Return u s2.
Proof.
  split; [vm_compute; reflexivity|].
  apply (hash_pass_then_geometry_never_returns (W := twin_world) (disk_config 3)
           twin_loaded (final_state (match_by_hash (W := twin_world) twin_loaded))).
  - vm_compute; reflexivity.
  - vm_compute; reflexivity.
  - vm_compute; discriminate.
Defined.

Lemma calculate_similarities_ranking_graded :
  graded_loaded = graded_loaded /\
  NoDup (Dict.keys [("h3", Num (9 # 10)); ("h2", Num (4 # 10))]) /\
  (forall h, In h (Dict.keys [("h3", Num (9 # 10)); ("h2", Num (4 # 10))]) <->
             In h (Dict.keys (lod_hash_to_name graded_loaded))) /\
  (forall h q,
    Dict.get h [("h3", Num (9 # 10)); ("h2", Num (4 # 10))] = Some q ->
    exists n lm,
      In (h, n) (Dict.items (lod_hash_to_name graded_loaded)) /\
      Dict.get n (lod_meshes graded_loaded) = Some lm /\
      calculate_similarity graded_world (geo_matcher graded_loaded)
                           "full/Component 0.vb" lm = Ok q) /\
  ((forall h, Dict.get h [("h3", Num (9 # 10)); ("h2", Num (4 # 10))] <> Some NaN) ->
   StronglySorted ranks_before
     (Dict.items [("h3", Num (9 # 10)); ("h2", Num (4 # 10))])).
Proof.
  apply (calculate_similarities_ranking (W := graded_world) "full/Component 0.vb"
           (lod_hash_to_name graded_loaded) graded_loaded
           [("h3", Num (9 # 10)); ("h2", Num (4 # 10))] graded_loaded).
  vm_compute; reflexivity.
Defined.

Lemma fine_match_selects_maximum_graded :
  In "h3" ["h2"; "h3"] /\
  exists best,
    Num (9 # 10) = Num best /\
    forall h', In h' ["h2"; "h3"] ->
      exists n lm q',
        Dict.get h' (lod_hash_to_name graded_loaded) = Some n /\
        Dict.get n (lod_meshes graded_loaded) = Some lm /\
        calculate_similarity graded_world
          (fine_matcher (W := graded_world) (disk_config 1) graded_loaded)
          "full/Component 0.vb" lm = Ok (Num q') /\
        (q' <= best)%Q /\ (h' = "h3" -> Num q' = Num (9 # 10)).
Proof.
  apply (fine_match_selects_maximum (W := graded_world) (disk_config 1)
           "full/Component 0.vb" ["h2"; "h3"] graded_loaded "h3" (Num (9 # 10))
           (final_state (fine_match (W := graded_world) (disk_config 1)
                           "full/Component 0.vb" ["h2"; "h3"] graded_loaded))).
  - vm_compute; reflexivity.
  - intros h' n lm _ _ _. cbn. unfold graded_score.
    destruct lm as [p|]; [destruct (String.eqb p _)|]; discriminate.
Defined.

Lemma prefilter_keeps_best_ranked_graded : (4 # 10 <= 9 # 10)%Q.
Proof.
  apply (prefilter_keeps_best_ranked (W := graded_world) (disk_config 1)
           "full/Component 0.vb" graded_loaded ["h3"]
           (final_state (prefilter (W := graded_world) (disk_config 1)
                           "full/Component 0.vb" graded_loaded))
           "h3" "h2" "Component 1" "Component 0"
           (Some "lod/Component 1.vb") (Some "lod/Component 0.vb")).
  - vm_compute; reflexivity.
  - vm_compute. repeat constructor; simpl; intuition discriminate.
  - intros h n lm _ _. cbn. unfold graded_score.
    destruct lm as [p|]; [destruct (String.eqb p _)|]; discriminate.
  - simpl; auto.
  - simpl. intros [H | []]. discriminate H.
  - vm_compute; reflexivity.
  - vm_compute; reflexivity.
  - vm_compute; reflexivity.
  - vm_compute; reflexivity.
  - vm_compute; reflexivity.
  - vm_compute; reflexivity.
Defined.

Lemma geometric_search_needs_candidates_graded :
  lod_hash_to_name graded_loaded <> [] /\
  geo_matcher_prefilter_candidates_count (disk_config 1) <> 0%Z.
Proof.
  apply (geometric_search_needs_candidates (W := graded_world) (disk_config 1)
           "Component 0" "h1" "full/Component 0.vb" graded_loaded
           ("Component 1", "h3", Num (9 # 10))
           (final_state (geometric_search (W := graded_world) (disk_config 1)
                           "Component 0" "h1" "full/Component 0.vb" graded_loaded))).
  vm_compute; reflexivity.
Defined.

Lemma empty_pool_iteration_raises_no_lod :
  exists s',
    match_component (W := no_lod_world) (disk_config 3) "Component 0" "h1" no_lod_loaded
    = Raised StopIteration s' /\
    matched s' = matched no_lod_loaded /\ vg_maps s' = vg_maps no_lod_loaded /\
    stdout s' = stdout no_lod_loaded /\ lod_hash_to_name s' = [].
Proof.
  apply (empty_pool_iteration_raises (W := no_lod_world) (disk_config 3)
           "Component 0" "h1" "full/Component 0.vb" no_lod_loaded).
  - vm_compute; reflexivity.
  - vm_compute; reflexivity.
  - vm_compute; reflexivity.
Defined.

Lemma completed_run_consumes_pool_twin :
  (Dict.len (lod_hash_to_name twin_final) + Dict.len (full_components twin_final))%nat
  = Dict.len (lod_index (W := twin_world) (disk_config 3)) /\
  (Dict.len (full_components twin_final)
   <= Dict.len (lod_index (W := twin_world) (disk_config 3)))%nat.
Proof.
  apply (completed_run_consumes_pool (W := twin_world) (disk_config 3)
           twin_matched twin_final).
  vm_compute; reflexivity.
Defined.

Lemma completed_run_table_shape_twin :
  Dict.keys twin_matched = map snd (Dict.items (full_components twin_final)) /\
  forall fh n lh q,
    Dict.get fh twin_matched = Some (MatchTuple n lh q) ->
    Dict.get lh (lod_index (W := twin_world) (disk_config 3)) = Some n.
Proof.
  apply (completed_run_table_shape (W := twin_world) (disk_config 3)
           twin_matched twin_final).
  vm_compute; reflexivity.
Defined.
